(** * S3archiver: a shallow embedding of [main.go] and its verification

    The archiver walks a local directory, derives an S3 key for every
    entry that is no directory, skips the entries whose key is already in
    the listing of the bucket or in the JSON manifest, uploads the others
    and saves the manifest once the walk is over.

    How the program is modelled:
    - Go strings are byte strings ([string]); a nil slice and an empty
      slice are kept apart ([option (list string)]); the map used as a set
      is a [gmap string bool] read with the zero value [false] for absent
      keys.
    - The operating system is a Unix one: [os.PathSeparator] is ['/'] and
      [filepath.Clean], [filepath.Join] are the lexical Unix versions.
    - [encoding/json] works on the bytes of the manifest file: a scanner
      with the states of Go's scanner reads the input and builds the JSON
      value, which is then decoded into [ArchivedFiles], the key list in
      place in its backing array as Go does; [MarshalIndent] writes the
      bytes Go writes for that type.
    - The world of a run ([Env]) holds the manifest side of the file
      system ([FileSystem]: entries by path, found only through the
      directories on the way to them, so that a system call fails with
      [ENOENT], [ENOTDIR] or [EACCES] as the way to its path has it), the
      local directory as the tree [filepath.Walk] finds, the answers of
      the S3 service, and which calls of the operating system fail for
      other reasons. [ioutil.WriteFile] truncates before it writes: a
      write that fails can leave a part of the bytes.
    - A run ([main]) returns its exit status, the files it leaves and the
      list of what it did ([event]): skips, calls of [UploadFile], calls of
      [os.MkdirAll] and [ioutil.WriteFile]. *)

From Stdlib Require Import Ascii String List NArith Bool Lia.
From stdpp Require Import base option list strings gmap.

Open Scope string_scope.
Open Scope list_scope.

(** ** Byte strings: the parts of package [strings] that the program uses *)

Module Strings.

(** [strings.HasPrefix] *)
Fixpoint HasPrefix (s prefix : string) : bool :=
  match prefix, s with
  | EmptyString, _ => true
  | String _ _, EmptyString => false
  | String p prefix', String c s' => Ascii.eqb p c && HasPrefix s' prefix'
  end.

(** [s[n:]] and [s[:n]], cut short at the end of [s]. *)
Fixpoint drop (n : nat) (s : string) : string :=
  match n, s with
  | O, _ => s
  | S _, EmptyString => EmptyString
  | S n', String _ s' => drop n' s'
  end.

Fixpoint take (n : nat) (s : string) : string :=
  match n, s with
  | O, _ => EmptyString
  | S _, EmptyString => EmptyString
  | S n', String c s' => String c (take n' s')
  end.

(** [strings.TrimPrefix]: [s] without the leading [prefix], or [s] itself
    when it does not start with [prefix]. *)
Definition TrimPrefix (s prefix : string) : string :=
  if HasPrefix s prefix then drop (String.length prefix) s else s.

(** [strings.ReplaceAll s old new] for a non-empty [old]: the
    non-overlapping occurrences of [old] are replaced from the left.
    [skip] counts the bytes of the occurrence being replaced that are
    still to be dropped. *)
Fixpoint replace_from (skip : nat) (s old new : string) : string :=
  match s with
  | EmptyString => EmptyString
  | String c s' =>
      match skip with
      | S k => replace_from k s' old new
      | O =>
          if HasPrefix s old
          then new +:+ replace_from (String.length old - 1) s' old new
          else String c (replace_from O s' old new)
      end
  end.

(** With an empty [old], Go inserts [new] before every UTF-8 sequence and
    at the end; the program never does that ([old] is one byte), so the
    bytes are taken one by one there. *)
Fixpoint intersperse (s new : string) : string :=
  match s with
  | EmptyString => new
  | String c s' => new +:+ String c (intersperse s' new)
  end.

Definition ReplaceAll (s old new : string) : string :=
  match old with
  | EmptyString => intersperse s new
  | _ => replace_from O s old new
  end.

(** [strings.Join] *)
Fixpoint Join (elems : list string) (sep : string) : string :=
  match elems with
  | [] => ""
  | [e] => e
  | e :: rest => e +:+ sep +:+ Join rest sep
  end.

(** Occurrence of a byte in a string. *)
Fixpoint contains (c : ascii) (s : string) : bool :=
  match s with
  | EmptyString => false
  | String a s' => Ascii.eqb a c || contains c s'
  end.

End Strings.

(** ** Package [path/filepath] on Unix *)

Module Filepath.

Definition Separator : ascii := "/"%char.

(** The maximal runs of bytes between separators: ["a//b"] gives
    [["a"; ""; "b"]]. [cur] is the run being read. *)
Fixpoint split_from (cur : string) (s : string) : list string :=
  match s with
  | EmptyString => [cur]
  | String c s' =>
      if Ascii.eqb c Separator
      then cur :: split_from "" s'
      else split_from (cur +:+ String c "") s'
  end.

Definition split (s : string) : list string := split_from "" s.

(** One step of [Clean] on the elements kept so far (last one first):
    empty and [.] elements are dropped, [..] removes the element before
    it, is dropped at the root, and is kept at the start of a relative
    path. *)
Definition clean_step (rooted : bool) (kept : list string) (e : string)
  : list string :=
  if String.eqb e "" || String.eqb e "." then kept
  else if String.eqb e ".." then
    match kept with
    | k :: kept' => if String.eqb k ".." then e :: kept else kept'
    | [] => if rooted then [] else [e]
    end
  else e :: kept.

Definition rooted (p : string) : bool :=
  match p with
  | String c _ => Ascii.eqb c Separator
  | EmptyString => false
  end.

(** [filepath.Clean]: the shortest path equivalent to [p] by lexical
    processing; the empty path becomes ["."]. *)
Definition Clean (p : string) : string :=
  let kept := rev (fold_left (clean_step (rooted p)) (split p) []) in
  let body := Strings.Join kept "/" in
  if rooted p then "/" +:+ body
  else if String.eqb body "" then "." else body.

(** [filepath.Join] of two elements: empty elements before the first
    non-empty one are ignored, the rest is joined and cleaned. *)
Definition Join (a b : string) : string :=
  if negb (String.eqb a "") then Clean (a +:+ "/" +:+ b)
  else if negb (String.eqb b "") then Clean b
  else "".

End Filepath.

(** ** UTF-8, as package [unicode/utf8] decodes and encodes it *)

Module Utf8.

Definition byte (n : N) : ascii := ascii_of_N n.

Definition between (lo hi : N) (c : ascii) : bool :=
  ((lo <=? N_of_ascii c) && (N_of_ascii c <=? hi))%N.

Definition is_ascii (c : ascii) : bool := (N_of_ascii c <? 128)%N.

(** A continuation byte, [0x80..0xBF]. *)
Definition cont (c : ascii) : bool := between 128 191 c.

(** The first two bytes of a three-byte sequence: no overlong form and no
    surrogate. *)
Definition lead3 (b1 b2 : ascii) : bool :=
  (between 224 224 b1 && between 160 191 b2)
  || (between 225 236 b1 && cont b2)
  || (between 237 237 b1 && between 128 159 b2)
  || (between 238 239 b1 && cont b2).

(** The first two bytes of a four-byte sequence, up to [U+10FFFF]. *)
Definition lead4 (b1 b2 : ascii) : bool :=
  (between 240 240 b1 && between 144 191 b2)
  || (between 241 243 b1 && cont b2)
  || (between 244 244 b1 && between 128 143 b2).

(** The width of the sequence at the start of [s], as
    [utf8.DecodeRuneInString] accepts it; [0] when [s] is empty or starts
    with an invalid sequence (Go then reports [RuneError] of width 1). *)
Definition rune_len (s : string) : nat :=
  match s with
  | EmptyString => 0
  | String b1 r1 =>
      if is_ascii b1 then 1
      else
        match r1 with
        | EmptyString => 0
        | String b2 r2 =>
            if between 194 223 b1 then (if cont b2 then 2 else 0)
            else
              match r2 with
              | EmptyString => 0
              | String b3 r3 =>
                  if lead3 b1 b2 then (if cont b3 then 3 else 0)
                  else
                    match r3 with
                    | EmptyString => 0
                    | String b4 _ =>
                        if lead4 b1 b2 && cont b3 && cont b4 then 4 else 0
                    end
              end
        end
  end.

(** [U+FFFD], the replacement character, encoded. *)
Definition replacement : string :=
  String (byte 239) (String (byte 191) (String (byte 189) "")).

(** [utf8.EncodeRune]: surrogates and values above [U+10FFFF] are encoded
    as [U+FFFD]. *)
Definition EncodeRune (r : N) : string :=
  if (r <? 128)%N then String (byte r) ""
  else if (r <? 2048)%N then
    String (byte (192 + r / 64)) (String (byte (128 + r mod 64)) "")
  else if ((55296 <=? r) && (r <=? 57343))%N || (1114111 <? r)%N then
    replacement
  else if (r <? 65536)%N then
    String (byte (224 + r / 4096))
      (String (byte (128 + (r / 64) mod 64))
         (String (byte (128 + r mod 64)) ""))
  else
    String (byte (240 + r / 262144))
      (String (byte (128 + (r / 4096) mod 64))
         (String (byte (128 + (r / 64) mod 64))
            (String (byte (128 + r mod 64)) ""))).

(** The pieces Go cuts a string into when it ranges over its runes: a
    well-formed sequence, or one byte that starts none. *)
Inductive chunk :=
  | Rune (bytes : string)
  | Bad (b : ascii).

(** [skip] bytes of the sequence found last are still to be passed. *)
Fixpoint chunks_from (skip : nat) (s : string) : list chunk :=
  match s with
  | EmptyString => []
  | String c s' =>
      match skip with
      | S k => chunks_from k s'
      | O =>
          match rune_len s with
          | O => Bad c :: chunks_from 0 s'
          | S k => Rune (Strings.take (S k) s) :: chunks_from k s'
          end
      end
  end.

Definition chunks (s : string) : list chunk := chunks_from 0 s.

Definition chunk_valid (c : chunk) : string :=
  match c with
  | Rune bytes => bytes
  | Bad _ => replacement
  end.

Fixpoint concat (l : list string) : string :=
  match l with
  | [] => ""
  | x :: l' => x +:+ concat l'
  end.

(** What a conversion through runes makes of [s]
    ([strings.ToValidUTF8] with one [U+FFFD] for every invalid byte). *)
Definition sanitize (s : string) : string :=
  concat (map chunk_valid (chunks s)).

End Utf8.

(** ** Errors *)

Inductive Errno :=
  ENOENT | EACCES | EISDIR | ENOTDIR | EEXIST | EIO | ENOSPC | ELOOP.

(** The error values the program can see. [SkipDir] and [SkipAll] are the
    sentinels of [path/filepath]; the others are produced by [os]
    ([PathError]), by [encoding/json], by the S3 client and by
    [fmt.Errorf] with [%w]. [Panic] stands for a run-time panic, which
    ends the process. *)
Inductive error :=
  | PathError (op path : string) (errno : Errno)
  | SyntaxError (msg : string)
  | UnmarshalTypeError (value : string)
  | BackendError (msg : string)
  | Errorf (msg : string) (cause : error)
  | Panic (msg : string)
  | SkipDir
  | SkipAll.

(** [os.IsNotExist]: looks through a [PathError], not through [%w]. *)
Definition IsNotExist (err : option error) : bool :=
  match err with
  | Some (PathError _ _ ENOENT) => true
  | _ => false
  end.

Definition is_SkipDir (e : error) : bool :=
  match e with SkipDir => true | _ => false end.

Definition is_SkipAll (e : error) : bool :=
  match e with SkipAll => true | _ => false end.

(** ** Package [encoding/json], for the manifest type *)

Module Json.

#[local] Unset Elimination Schemes.
Inductive value :=
  | Null
  | Bool (b : bool)
  | Number (lit : string)
  | Str (s : string)
  | Array (elems : list value)
  | Object (members : list (string * value)).
#[local] Set Elimination Schemes.

(** An array or object being read; what was read of it comes last
    first. For an object, [key] is the key whose value is awaited. *)
Inductive frame :=
  | InArray (seen : list value)
  | InObject (seen : list (string * value)) (key : string).

(** The step functions of Go's scanner. A string state carries the bytes
    decoded so far and a [\u] escape for a high surrogate that awaits its
    low surrogate; a number state carries the literal. *)
Inductive step :=
  | BeginValue
  | BeginValueOrEmpty
  | BeginStringOrEmpty
  | BeginString
  | InString (is_key : bool) (acc : string) (high : option N)
  | InStringEsc (is_key : bool) (acc : string) (high : option N)
  | InStringEscU (is_key : bool) (acc : string) (high : option N)
      (digits : nat) (code : N)
  | AfterKey
  | EndValue
  | EndTop (v : value)
  | NumNeg (lit : string)
  | Num0 (lit : string)
  | Num1 (lit : string)
  | NumDot (lit : string)
  | NumDot0 (lit : string)
  | NumE (lit : string)
  | NumESign (lit : string)
  | NumE0 (lit : string)
  | Literal (rest : string) (v : value).

Record scanner := Scanner {
  st : step;
  parseState : list frame;
  depth : N
}.

Definition maxNestingDepth : N := 10000.

Definition quote_char : ascii := "034"%char.
Definition backslash : ascii := "\"%char.

Definition isSpace (c : ascii) : bool :=
  Ascii.eqb c " " || Ascii.eqb c "009" || Ascii.eqb c "013"
  || Ascii.eqb c "010".

Definition is_digit (c : ascii) : bool := Utf8.between 48 57 c.
Definition is_digit19 (c : ascii) : bool := Utf8.between 49 57 c.

Definition hex_value (c : ascii) : option N :=
  if Utf8.between 48 57 c then Some (N_of_ascii c - 48)%N
  else if Utf8.between 97 102 c then Some (N_of_ascii c - 87)%N
  else if Utf8.between 65 70 c then Some (N_of_ascii c - 55)%N
  else None.

Definition snoc (s : string) (c : ascii) : string := s +:+ String c "".

(** A value is complete: it goes to the enclosing array or object, or it
    is the top-level value. *)
Definition complete (v : value) (fs : list frame) (d : N) : scanner :=
  match fs with
  | [] => Scanner (EndTop v) [] d
  | InArray seen :: fs' => Scanner EndValue (InArray (v :: seen) :: fs') d
  | InObject seen key :: fs' =>
      Scanner EndValue (InObject ((key, v) :: seen) "" :: fs') d
  end.

Definition push (f : frame) (next : step) (sc : scanner) : option scanner :=
  if (depth sc + 1 <=? maxNestingDepth)%N
  then Some (Scanner next (f :: parseState sc) (depth sc + 1))
  else None.

(** [stateEndValue] inside an array or an object *)
Definition end_value (sc : scanner) (c : ascii) : option scanner :=
  if isSpace c then Some sc
  else
    match parseState sc with
    | InArray seen :: fs =>
        if Ascii.eqb c "," then Some (Scanner BeginValue (parseState sc) (depth sc))
        else if Ascii.eqb c "]"
        then Some (complete (Array (rev seen)) fs (depth sc - 1))
        else None
    | InObject seen _ :: fs =>
        if Ascii.eqb c "," then Some (Scanner BeginString (parseState sc) (depth sc))
        else if Ascii.eqb c "}"
        then Some (complete (Object (rev seen)) fs (depth sc - 1))
        else None
    | [] => None
    end.

(** [stateEndTop] *)
Definition end_top (sc : scanner) (c : ascii) : option scanner :=
  if isSpace c then Some sc else None.

Definition after_value (sc : scanner) (c : ascii) : option scanner :=
  match st sc with
  | EndTop _ => end_top sc c
  | _ => end_value sc c
  end.

(** [stateBeginValue] *)
Definition begin_value (sc : scanner) (c : ascii) : option scanner :=
  let goto s := Some (Scanner s (parseState sc) (depth sc)) in
  if isSpace c then Some sc
  else if Ascii.eqb c "{" then push (InObject [] "") BeginStringOrEmpty sc
  else if Ascii.eqb c "[" then push (InArray []) BeginValueOrEmpty sc
  else if Ascii.eqb c quote_char then goto (InString false "" None)
  else if Ascii.eqb c "-" then goto (NumNeg (String c ""))
  else if Ascii.eqb c "0" then goto (Num0 (String c ""))
  else if is_digit19 c then goto (Num1 (String c ""))
  else if Ascii.eqb c "t" then goto (Literal "rue" (Bool true))
  else if Ascii.eqb c "f" then goto (Literal "alse" (Bool false))
  else if Ascii.eqb c "n" then goto (Literal "ull" Null)
  else None.

(** A pending high surrogate that gets no low surrogate becomes
    [U+FFFD]. *)
Definition flush (acc : string) (high : option N) : string :=
  match high with
  | Some _ => acc +:+ Utf8.replacement
  | None => acc
  end.

Definition is_high (r : N) : bool := ((55296 <=? r) && (r <? 56320))%N.
Definition is_low (r : N) : bool := ((56320 <=? r) && (r <? 57344))%N.

Definition emit_alone (acc : string) (r : N) : string * option N :=
  if is_high r then (acc, Some r)
  else if is_low r then (acc +:+ Utf8.replacement, None)
  else (acc +:+ Utf8.EncodeRune r, None).

(** The end of a [\uXXXX] escape of value [r] ([unquote] with
    [utf16.DecodeRune]). *)
Definition emit_code (acc : string) (high : option N) (r : N)
  : string * option N :=
  match high with
  | Some h =>
      if is_low r
      then (acc +:+ Utf8.EncodeRune (65536 + (h - 55296) * 1024 + (r - 56320)),
            None)
      else emit_alone (acc +:+ Utf8.replacement) r
  | None => emit_alone acc r
  end.

(** The closing quote: the bytes read become valid UTF-8 and the string
    is a key or a value. *)
Definition end_string (is_key : bool) (s : string) (sc : scanner)
  : option scanner :=
  if is_key then
    match parseState sc with
    | InObject seen _ :: fs =>
        Some (Scanner AfterKey (InObject seen s :: fs) (depth sc))
    | _ => None
    end
  else Some (complete (Str s) (parseState sc) (depth sc)).

Definition escaped (c : ascii) : option ascii :=
  if Ascii.eqb c "b" then Some "008"%char
  else if Ascii.eqb c "f" then Some "012"%char
  else if Ascii.eqb c "n" then Some "010"%char
  else if Ascii.eqb c "r" then Some "013"%char
  else if Ascii.eqb c "t" then Some "009"%char
  else if Ascii.eqb c backslash || Ascii.eqb c "/" || Ascii.eqb c quote_char
  then Some c
  else None.

Definition finish_number (lit : string) (sc : scanner) (c : ascii)
  : option scanner :=
  after_value (complete (Number lit) (parseState sc) (depth sc)) c.

Definition is_e (c : ascii) : bool := Ascii.eqb c "e" || Ascii.eqb c "E".

(** One byte of input; [None] is a syntax error. *)
Definition feed (sc : scanner) (c : ascii) : option scanner :=
  let goto s := Some (Scanner s (parseState sc) (depth sc)) in
  match st sc with
  | BeginValue => begin_value sc c
  | BeginValueOrEmpty =>
      if isSpace c then Some sc
      else if Ascii.eqb c "]" then end_value sc c
      else begin_value sc c
  | BeginStringOrEmpty =>
      if isSpace c then Some sc
      else if Ascii.eqb c "}" then end_value sc c
      else if Ascii.eqb c quote_char then goto (InString true "" None)
      else None
  | BeginString =>
      if isSpace c then Some sc
      else if Ascii.eqb c quote_char then goto (InString true "" None)
      else None
  | InString k acc high =>
      if Ascii.eqb c quote_char
      then end_string k (Utf8.sanitize (flush acc high)) sc
      else if Ascii.eqb c backslash then goto (InStringEsc k acc high)
      else if (N_of_ascii c <? 32)%N then None
      else goto (InString k (snoc (flush acc high) c) None)
  | InStringEsc k acc high =>
      if Ascii.eqb c "u" then goto (InStringEscU k acc high 0 0)
      else
        match escaped c with
        | Some b => goto (InString k (snoc (flush acc high) b) None)
        | None => None
        end
  | InStringEscU k acc high n code =>
      match hex_value c with
      | Some d =>
          let code' := (code * 16 + d)%N in
          if Nat.eqb n 3
          then let '(acc', high') := emit_code acc high code' in
               goto (InString k acc' high')
          else goto (InStringEscU k acc high (S n) code')
      | None => None
      end
  | AfterKey =>
      if isSpace c then Some sc
      else if Ascii.eqb c ":" then goto BeginValue
      else None
  | EndValue => end_value sc c
  | EndTop _ => end_top sc c
  | NumNeg lit =>
      if Ascii.eqb c "0" then goto (Num0 (snoc lit c))
      else if is_digit19 c then goto (Num1 (snoc lit c))
      else None
  | Num1 lit =>
      if is_digit c then goto (Num1 (snoc lit c))
      else if Ascii.eqb c "." then goto (NumDot (snoc lit c))
      else if is_e c then goto (NumE (snoc lit c))
      else finish_number lit sc c
  | Num0 lit =>
      if Ascii.eqb c "." then goto (NumDot (snoc lit c))
      else if is_e c then goto (NumE (snoc lit c))
      else finish_number lit sc c
  | NumDot lit =>
      if is_digit c then goto (NumDot0 (snoc lit c)) else None
  | NumDot0 lit =>
      if is_digit c then goto (NumDot0 (snoc lit c))
      else if is_e c then goto (NumE (snoc lit c))
      else finish_number lit sc c
  | NumE lit =>
      if Ascii.eqb c "+" || Ascii.eqb c "-" then goto (NumESign (snoc lit c))
      else if is_digit c then goto (NumE0 (snoc lit c))
      else None
  | NumESign lit =>
      if is_digit c then goto (NumE0 (snoc lit c)) else None
  | NumE0 lit =>
      if is_digit c then goto (NumE0 (snoc lit c))
      else finish_number lit sc c
  | Literal rest v =>
      match rest with
      | String r rest' =>
          if Ascii.eqb c r then
            match rest' with
            | EmptyString => Some (complete v (parseState sc) (depth sc))
            | _ => goto (Literal rest' v)
            end
          else None
      | EmptyString => None
      end
  end.

Fixpoint run (sc : scanner) (data : string) : option scanner :=
  match data with
  | EmptyString => Some sc
  | String c data' =>
      match feed sc c with
      | Some sc' => run sc' data'
      | None => None
      end
  end.

(** The whole input is one JSON value with white space around it
    ([checkValid]: at the end of the input the scanner is given a
    space and must have seen the end of the top-level value). *)
Definition parse (data : string) : option value :=
  match run (Scanner BeginValue [] 0) data with
  | Some sc =>
      match feed sc " " with
      | Some sc' =>
          match st sc' with
          | EndTop v => Some v
          | _ => None
          end
      | None => None
      end
  | None => None
  end.

(** *** Decoding into [ArchivedFiles] *)

(** The description of a JSON value in an [UnmarshalTypeError]. *)
Definition describe (v : value) : string :=
  match v with
  | Null => "null"
  | Bool _ => "bool"
  | Number _ => "number"
  | Str _ => "string"
  | Array _ => "array"
  | Object _ => "object"
  end.

(** Only the first error is kept ([saveError]); decoding goes on. *)
Definition first_error (e1 e2 : option error) : option error :=
  match e1 with
  | Some _ => e1
  | None => e2
  end.

(** A JSON value into a [string] element that holds [old]: a string is
    stored, [null] changes nothing, any other value is a type error. *)
Definition decode_elem (old : string) (v : value) : string * option error :=
  match v with
  | Str s => (s, None)
  | Null => (old, None)
  | _ => (old, Some (UnmarshalTypeError (describe v)))
  end.

(** A slice of strings while it is decoded into: its elements ([None]
    for a nil slice) and what its backing array holds past its length.
    A string of the array that was never set is empty. *)
Record slice := Slice {
  elements : option (list string);
  beyond : list string
}.

(** The elements of a JSON array into a slice whose backing array holds
    [backing]: the element of index [i] starts from what the array holds
    there (the decoder sets the length to [i + 1] and decodes into the
    element in place), from the zero value past the array. *)
Fixpoint decode_elems (backing : list string) (vs : list value)
  : list string * option error :=
  match vs with
  | [] => ([], None)
  | v :: vs' =>
      let '(x, e) := decode_elem (hd "" backing) v in
      let '(xs, e') := decode_elems (tl backing) vs' in
      (x :: xs, first_error e e')
  end.

(** A JSON value into the field [Files []string]: [null] makes the slice
    nil; an array is decoded into the slice in place, which is cut to the
    length of the array (the rest stays in the backing array), and an
    empty array makes a new empty slice; any other value is a type error
    and leaves the slice as it is. *)
Definition decode_files (old : slice) (v : value) : slice * option error :=
  match v with
  | Null => (Slice None [], None)
  | Array [] => (Slice (Some []) [], None)
  | Array vs =>
      let backing := default [] (elements old) ++ beyond old in
      let '(xs, e) := decode_elems backing vs in
      (Slice (Some xs) (drop (length vs) backing), e)
  | _ => (old, Some (UnmarshalTypeError (describe v)))
  end.

Definition upper (c : ascii) : ascii :=
  if Utf8.between 97 122 c then ascii_of_N (N_of_ascii c - 32) else c.

(** [foldName], as far as a comparison with an ASCII name goes: ASCII
    letters in upper case, and the two letters outside ASCII that fold to
    an ASCII one, the long s [U+017F] and the Kelvin sign [U+212A]. *)
Fixpoint foldName (s : string) : string :=
  match s with
  | EmptyString => EmptyString
  | String c s' =>
      match s' with
      | String c2 s'' =>
          if Ascii.eqb c "197" && Ascii.eqb c2 "191"
          then String "S" (foldName s'')
          else
            match s'' with
            | String c3 s''' =>
                if Ascii.eqb c "226" && Ascii.eqb c2 "132"
                   && Ascii.eqb c3 "170"
                then String "K" (foldName s''')
                else String (upper c) (foldName s')
            | EmptyString => String (upper c) (foldName s')
            end
      | EmptyString => String (upper c) EmptyString
      end
  end.

(** The key of a member selects the field tagged [json:"files"]: the
    match does not depend on case. *)
Definition is_files_key (key : string) : bool :=
  String.eqb (foldName key) "FILES".

(** The members of a JSON object, in order, into the struct: a member
    whose key selects no field is skipped. *)
Fixpoint decode_members (files : slice) (ms : list (string * value))
  : slice * option error :=
  match ms with
  | [] => (files, None)
  | (key, v) :: ms' =>
      if is_files_key key then
        let '(files', e) := decode_files files v in
        let '(files'', e') := decode_members files' ms' in
        (files'', first_error e e')
      else decode_members files ms'
  end.

(** The top-level value into the struct that holds [files]. *)
Definition decode (files : slice) (v : value) : slice * option error :=
  match v with
  | Object ms => decode_members files ms
  | Null => (files, None)
  | _ => (files, Some (UnmarshalTypeError (describe v)))
  end.

(** [json.Unmarshal(data, &archived)] where [archived.Files] is [files],
    a slice that fills its backing array: nothing is decoded when the
    input is not valid. *)
Definition Unmarshal (data : string) (files : option (list string))
  : option (list string) * option error :=
  match parse data with
  | None => (files, Some (SyntaxError "invalid JSON input"))
  | Some v =>
      let '(files', err) := decode (Slice files []) v in
      (elements files', err)
  end.

(** *** Encoding [ArchivedFiles] *)

Definition hex_digit (n : N) : ascii :=
  if (n <? 10)%N then ascii_of_N (48 + n) else ascii_of_N (87 + n).

(** A byte below [0x80] in a string: the quote and the backslash get a
    backslash, control characters their short escape or [\u00XX], and so
    do [<], [>] and [&] (HTML escaping is on). *)
Definition escape_byte (c : ascii) : string :=
  if Ascii.eqb c quote_char || Ascii.eqb c backslash
  then String backslash (String c "")
  else if Ascii.eqb c "008" then "\b"
  else if Ascii.eqb c "012" then "\f"
  else if Ascii.eqb c "010" then "\n"
  else if Ascii.eqb c "013" then "\r"
  else if Ascii.eqb c "009" then "\t"
  else if (N_of_ascii c <? 32)%N || Ascii.eqb c "<" || Ascii.eqb c ">"
          || Ascii.eqb c "&"
  then "\u00" +:+ String (hex_digit (N_of_ascii c / 16))
                   (String (hex_digit (N_of_ascii c mod 16)) "")
  else String c "".

(** [U+2028] and [U+2029], encoded. *)
Definition line_separator : string :=
  String "226" (String "128" (String "168" "")).
Definition paragraph_separator : string :=
  String "226" (String "128" (String "169" "")).

Definition escape_chunk (ch : Utf8.chunk) : string :=
  match ch with
  | Utf8.Bad _ => "\ufffd"
  | Utf8.Rune bytes =>
      match bytes with
      | String c EmptyString => escape_byte c
      | _ =>
          if String.eqb bytes line_separator then "\u2028"
          else if String.eqb bytes paragraph_separator then "\u2029"
          else bytes
      end
  end.

(** A Go string as a JSON string. *)
Definition quote (s : string) : string :=
  String quote_char
    (Utf8.concat (map escape_chunk (Utf8.chunks s))
     +:+ String quote_char "").

Definition newline : string := String "010" "".

(** [json.MarshalIndent(archived, "", "  ")]: it cannot fail for this
    type. A nil slice is [null]; an empty one is [[]]. *)
Definition MarshalIndent (files : option (list string)) : string :=
  "{" +:+ newline +:+ "  " +:+ quote "files" +:+ ": " +:+
  match files with
  | None => "null"
  | Some [] => "[]"
  | Some xs =>
      "[" +:+ newline +:+ "    " +:+
      Strings.Join (map quote xs) ("," +:+ newline +:+ "    ") +:+
      newline +:+ "  ]"
  end +:+ newline +:+ "}".

End Json.

(** ** The local directory tree, as [filepath.Walk] sees it *)

Inductive FileMode :=
  | ModeRegular | ModeDir | ModeSymlink | ModeNamedPipe | ModeSocket
  | ModeDevice | ModeCharDevice | ModeIrregular.

Record FileInfo := { Mode : FileMode }.

Definition IsDir (info : FileInfo) : bool :=
  match Mode info with ModeDir => true | _ => false end.

(** What [os.Lstat] answers for an entry that is not a directory. *)
Inductive LeafKind :=
  | Regular | Symlink | NamedPipe | Socket | Device | CharDevice | Irregular.

Definition leaf_mode (k : LeafKind) : FileMode :=
  match k with
  | Regular => ModeRegular
  | Symlink => ModeSymlink
  | NamedPipe => ModeNamedPipe
  | Socket => ModeSocket
  | Device => ModeDevice
  | CharDevice => ModeCharDevice
  | Irregular => ModeIrregular
  end.

(** An entry of the tree: a non-directory, a directory with its entries in
    the order [readDirNames] returns them (sorted by name), a directory
    that cannot be read, or an entry on which [os.Lstat] fails. *)
#[local] Unset Elimination Schemes.
Inductive node :=
  | Leaf (k : LeafKind)
  | Dir (entries : list (string * node))
  | DirUnreadable (e : Errno)
  | Broken (e : Errno).
#[local] Set Elimination Schemes.

Definition dir_info : FileInfo := {| Mode := ModeDir |}.

Definition node_is_dir (n : node) : bool :=
  match n with Dir _ | DirUnreadable _ => true | _ => false end.

Definition lstat_fails (n : node) : bool :=
  match n with Broken _ => true | _ => false end.

Module Walker.
Section Walk.

Context {St : Type}.

(** [filepath.WalkFunc], with the state the closure works on. *)
Definition WalkFunc : Type :=
  string -> option FileInfo -> option error -> St -> St * option error.

Variable walkFn : WalkFunc.

(** After a call on the entry [child] returned [e], the loop over the
    names of a directory goes on only when [e] is [SkipDir] and the entry
    is a directory or could not be examined. *)
Definition goes_on (child : node) (e : error) : bool :=
  is_SkipDir e && (node_is_dir child || lstat_fails child).

(** [filepath.walk]. A [Broken] entry stands for the call
    [walkFn(filename, fileInfo, err)] made when [lstat] fails. *)
Fixpoint walk (path : string) (n : node) (st : St) : St * option error :=
  match n with
  | Leaf k => walkFn path (Some {| Mode := leaf_mode k |}) None st
  | Broken e => walkFn path None (Some (PathError "lstat" path e)) st
  | DirUnreadable e =>
      walkFn path (Some dir_info) (Some (PathError "open" path e)) st
  | Dir entries =>
      let '(st1, err1) := walkFn path (Some dir_info) None st in
      match err1 with
      | Some _ => (st1, err1)
      | None =>
          (fix walk_names (es : list (string * node)) (st : St)
             : St * option error :=
             match es with
             | [] => (st, None)
             | (name, child) :: es' =>
                 let filename := Filepath.Join path name in
                 let '(st', err) := walk filename child st in
                 match err with
                 | None => walk_names es' st'
                 | Some e =>
                     if goes_on child e then walk_names es' st'
                     else (st', Some e)
                 end
             end) entries st1
      end
  end.

(** [filepath.Walk] *)
Definition Walk (root : string) (tree : node) (st : St)
  : St * option error :=
  let '(st', err) := walk root tree st in
  match err with
  | Some e => if is_SkipDir e || is_SkipAll e then (st', None) else (st', err)
  | None => (st', None)
  end.

End Walk.
End Walker.

(** ** The program *)

(** [ArchivedFiles]: [Files] is [None] for a nil slice. *)
Record ArchivedFiles := { Files : option (list string) }.

(** The elements of a slice of strings. *)
Definition elems (s : option (list string)) : list string := default [] s.

(** [append(s, x)] *)
Definition append (s : option (list string)) (x : string)
  : option (list string) :=
  Some (elems s ++ [x]).

(** *** The manifest side of the file system *)

(** What stands at a path: a file with its bytes, a directory, a file that
    the process may not open, a directory that it may not search. *)
Inductive fentry :=
  | FFile (data : string)
  | FDir
  | FNoAccess
  | FDirNoAccess.

Definition is_dir (e : fentry) : bool :=
  match e with FDir | FDirNoAccess => true | _ => false end.

(** The entries of the file system by path. An entry counts only when the
    directories on the way to it are there ([lookup_path]). A path that is
    not rooted starts at the working directory, which is a directory like
    the root. Paths are taken as they are written: two spellings of one
    path are two paths. *)
Record FileSystem := { entries : gmap string fentry }.

Definition is_separator (c : ascii) : bool := Ascii.eqb c Filepath.Separator.

(** Where the last element of [s] starts: [k] is the index of the first
    byte of [s], [prev_sep] tells that a separator (or nothing) comes
    before it, [j] is the start of the last element seen so far. *)
Fixpoint last_element_start (s : string) (k : nat) (prev_sep : bool) (j : nat)
  : nat :=
  match s with
  | EmptyString => j
  | String c s' =>
      if is_separator c then last_element_start s' (S k) true j
      else last_element_start s' (S k) false (if prev_sep then k else j)
  end.

(** The directory that holds the last element of [path], as [os.MkdirAll]
    finds it: the separators at the end are skipped, then the last
    element, and what comes before the separator in front of it is the
    directory ([path[:j-1]] when [j > 1]). *)
Definition parent (path : string) : option string :=
  let j := last_element_start path 0 true 0 in
  if Nat.ltb 1 j then Some (Strings.take (j - 1) path) else None.

(** The directories on the way to [path], the nearest one first. *)
Fixpoint ancestors_from (fuel : nat) (path : string) : list string :=
  match fuel with
  | O => []
  | S fuel' =>
      match parent path with
      | Some dir => dir :: ancestors_from fuel' dir
      | None => []
      end
  end.

Definition ancestors (path : string) : list string :=
  ancestors_from (String.length path) path.

(** The first of [dirs] that cannot be passed, with the error of the
    system call that meets it. *)
Fixpoint search (m : gmap string fentry) (dirs : list string) : option Errno :=
  match dirs with
  | [] => None
  | dir :: dirs' =>
      match m !! dir with
      | None => Some ENOENT
      | Some FDir => search m dirs'
      | Some FDirNoAccess => Some EACCES
      | Some (FFile _) | Some FNoAccess => Some ENOTDIR
      end
  end.

(** The way to [path], from the outside in. *)
Definition way (fs : FileSystem) (path : string) : option Errno :=
  search (entries fs) (rev (ancestors path)).

(** What a system call finds at [path]. *)
Definition lookup_path (fs : FileSystem) (path : string) : Errno + fentry :=
  match way fs path with
  | Some e => inl e
  | None =>
      match entries fs !! path with
      | None => inl ENOENT
      | Some x => inr x
      end
  end.

(** [fs !! path]: the entry a system call finds at [path], if any. *)
#[global] Instance FileSystem_lookup : Lookup string fentry FileSystem :=
  fun path fs =>
    match lookup_path fs path with
    | inr x => Some x
    | inl _ => None
    end.

#[global] Instance FileSystem_empty : Empty FileSystem := {| entries := ∅ |}.

(** [<[path := x]> fs] puts an entry at [path], whatever is on the way. *)
#[global] Instance FileSystem_insert : Insert string fentry FileSystem :=
  fun path x fs => {| entries := <[path := x]> (entries fs) |}.

#[global] Instance FileSystem_singleton : SingletonM string fentry FileSystem :=
  fun path x => {| entries := {[ path := x ]} |}.

(** [path] lies below [dir]. *)
Definition is_below (dir path : string) : bool :=
  existsb (String.eqb dir) (ancestors path).

(** A new, empty directory at [path]. *)
Definition make_dir (path : string) (fs : FileSystem) : FileSystem :=
  {| entries :=
       <[path := FDir]>
         (filter (fun kv => is_below path (fst kv) = false) (entries fs)) |}.

(** One answer of the bucket listing: the keys of a page, or a failure. *)
Inductive page :=
  | PageOk (Contents : list string)
  | PageErr (msg : string).

(** What the S3 client does for the program: the answers to the successive
    [ListObjectsV2] requests on a bucket (the first one, then those that
    follow while the listing is truncated) and the outcome of a
    [PutObject]. *)
Record S3Client := {
  ListObjectsV2 : string -> page * list page;
  PutObject : string -> string -> option string
}.

(** [S3Uploader] *)
Record S3Uploader := { Client : S3Client }.

(** How a call of [ioutil.WriteFile] fails: when the file is opened, or
    when it has been created or truncated and [written] bytes have been
    written to it. *)
Inductive WriteFault :=
  | OpenFails (e : Errno)
  | WriteFails (written : nat) (e : Errno).

(** The world around one run. [tree] is what stands at the local directory
    while it is walked; [open_err], [mkdir_err] and [write_err] say which
    calls of [os.Open], [os.Mkdir] and [ioutil.WriteFile] fail for a
    reason that the entries of the file system do not show (permissions,
    a full disk); [config_err] is the outcome of
    [config.LoadDefaultConfig] for a credentials file and a region. *)
Record Env := {
  files : FileSystem;
  tree : node;
  open_err : string -> option Errno;
  mkdir_err : string -> option Errno;
  write_err : string -> option WriteFault;
  config_err : string -> string -> option string;
  s3 : S3Client
}.

(** What a run does that can be observed, in order. *)
Inductive event :=
  | SkipInS3 (s3Key : string)
  | SkipArchived (s3Key : string)
  | UploadCall (localPath s3Key bucket : string) (result : option error)
  | MkdirCall (directory : string) (result : option error)
  | WriteCall (filename data : string) (result : option error).

(** [ioutil.ReadFile] *)
Definition ReadFile (fs : FileSystem) (filename : string)
  : string * option error :=
  match lookup_path fs filename with
  | inl e => ("", Some (PathError "open" filename e))
  | inr (FFile data) => (data, None)
  | inr FDir | inr FDirNoAccess =>
      ("", Some (PathError "read" filename EISDIR))
  | inr FNoAccess => ("", Some (PathError "open" filename EACCES))
  end.

(** [ioutil.WriteFile]: the file is opened, created if it is not there and
    truncated if it is, the bytes are written and the file is closed. A
    write that fails leaves the bytes that were written. *)
Definition WriteFile (env : Env) (fs : FileSystem)
    (filename data : string) : FileSystem * option error :=
  match way fs filename with
  | Some e => (fs, Some (PathError "open" filename e))
  | None =>
      match entries fs !! filename with
      | Some FDir | Some FDirNoAccess =>
          (fs, Some (PathError "open" filename EISDIR))
      | Some FNoAccess => (fs, Some (PathError "open" filename EACCES))
      | Some (FFile _) | None =>
          match write_err env filename with
          | Some (OpenFails e) => (fs, Some (PathError "open" filename e))
          | Some (WriteFails written e) =>
              (<[filename := FFile (Strings.take written data)]> fs,
               Some (PathError "write" filename e))
          | None => (<[filename := FFile data]> fs, None)
          end
      end
  end.

(** [os.Stat], for its error. *)
Definition Stat (fs : FileSystem) (name : string) : option error :=
  match lookup_path fs name with
  | inl e => Some (PathError "stat" name e)
  | inr _ => None
  end.

(** [os.Mkdir]: the directory that is to hold [path] must be there, and
    nothing at [path]. *)
Definition Mkdir (env : Env) (fs : FileSystem) (path : string)
  : FileSystem * option error :=
  match way fs path with
  | Some e => (fs, Some (PathError "mkdir" path e))
  | None =>
      match entries fs !! path with
      | Some _ => (fs, Some (PathError "mkdir" path EEXIST))
      | None =>
          match mkdir_err env path with
          | Some e => (fs, Some (PathError "mkdir" path e))
          | None => (make_dir path fs, None)
          end
      end
  end.

(** [os.MkdirAll]: nothing to do for a directory, an error for anything
    else that is there; otherwise the parent is made first, then [path]
    itself, and an error of [os.Mkdir] counts only when no directory is
    at [path] after it. [fuel] bounds the calls for the parents. *)
Fixpoint MkdirAll_from (fuel : nat) (env : Env) (fs : FileSystem)
    (path : string) : FileSystem * option error :=
  match lookup_path fs path with
  | inr x =>
      if is_dir x then (fs, None)
      else (fs, Some (PathError "mkdir" path ENOTDIR))
  | inl _ =>
      let '(fs1, err) :=
        match fuel, parent path with
        | S fuel', Some dir => MkdirAll_from fuel' env fs dir
        | _, _ => (fs, None)
        end in
      match err with
      | Some e => (fs1, Some e)
      | None =>
          let '(fs2, err) := Mkdir env fs1 path in
          match err with
          | None => (fs2, None)
          | Some e =>
              match lookup_path fs2 path with
              | inr x => if is_dir x then (fs2, None) else (fs2, Some e)
              | inl _ => (fs2, Some e)
              end
          end
      end
  end.

Definition MkdirAll (env : Env) (fs : FileSystem) (path : string)
  : FileSystem * option error :=
  MkdirAll_from (String.length path) env fs path.

(** [LoadArchivedFiles] *)
Definition LoadArchivedFiles (fs : FileSystem) (filename : string)
  : ArchivedFiles * option error :=
  let '(data, err) := ReadFile fs filename in
  match err with
  | Some e =>
      if IsNotExist err then ({| Files := Some [] |}, None)
      else ({| Files := None |}, Some e)
  | None =>
      let '(files, err) := Json.Unmarshal data None in
      ({| Files := files |}, err)
  end.

(** [SaveArchivedFiles] *)
Definition SaveArchivedFiles (env : Env) (fs : FileSystem)
    (filename : string) (archived : ArchivedFiles)
  : FileSystem * list event * option error :=
  let data := Json.MarshalIndent (Files archived) in
  let '(fs', err) := WriteFile env fs filename data in
  (fs', [WriteCall filename data err], err).

(** The loop of [ListS3Files]: [resp] answers the request for the next
    page, [more] holds the answers to the requests that follow. *)
Fixpoint list_pages (resp : page) (more : list page)
    (files : option (list string)) : option (list string) * option error :=
  match resp with
  | PageErr msg => (None, Some (BackendError msg))
  | PageOk Contents =>
      let files' := fold_left append Contents files in
      match more with
      | [] => (files', None)
      | resp' :: more' => list_pages resp' more' files'
      end
  end.

(** [ListS3Files] *)
Definition ListS3Files (u : S3Uploader) (bucket : string)
  : option (list string) * option error :=
  let '(resp, more) := ListObjectsV2 (Client u) bucket in
  list_pages resp more None.

(** [UploadFile] *)
Definition UploadFile (env : Env) (u : S3Uploader)
    (localPath s3Key bucket : string) : option error :=
  match open_err env localPath with
  | Some e =>
      Some (Errorf ("failed to open file " +:+ localPath)
              (PathError "open" localPath e))
  | None =>
      match PutObject (Client u) bucket s3Key with
      | Some msg =>
          Some (Errorf ("failed to upload " +:+ s3Key +:+ " to S3")
                  (BackendError msg))
      | None => None
      end
  end.

(** [EnsureArchiveDirectory] *)
Definition EnsureArchiveDirectory (env : Env) (fs : FileSystem)
    (directory : string) : FileSystem * list event * option error :=
  if IsNotExist (Stat fs directory) then
    let '(fs', err) := MkdirAll env fs directory in
    (fs', [MkdirCall directory err], err)
  else (fs, [], None).

Definition PathSeparator : string := String Filepath.Separator "".

(** [GenerateArchiveFilePath] *)
Definition GenerateArchiveFilePath (archiveDir localDir : string) : string :=
  let baseName := Strings.ReplaceAll localDir PathSeparator "_" in
  let baseName := Strings.ReplaceAll baseName ":" "-" in
  Filepath.Join archiveDir (baseName +:+ ".json").

(** The S3 key of a visited path (lines 187-190 of [main.go]). *)
Definition s3KeyOf (localDirectory path : string) : string :=
  let relativePath := Strings.TrimPrefix path localDirectory in
  let relativePath := Strings.TrimPrefix relativePath PathSeparator in
  Strings.ReplaceAll relativePath PathSeparator "/".

(** The map built from the bucket listing. *)
Definition make_s3FileMap (s3Files : option (list string)) : gmap string bool :=
  fold_left (fun m s3File => <[s3File := true]> m) (elems s3Files) ∅.

(** [m[k]] on a [map[string]bool]. *)
Definition map_index (m : gmap string bool) (k : string) : bool :=
  default false (m !! k).

(** The loop over [archived.Files] that looks for [s3Key]. *)
Fixpoint is_archived (archivedFiles : list string) (s3Key : string) : bool :=
  match archivedFiles with
  | [] => false
  | archivedFile :: rest =>
      if String.eqb archivedFile s3Key then true else is_archived rest s3Key
  end.

(** What the closure given to [filepath.Walk] works on: the captured
    variable [archived] and what was done so far. *)
Record WalkState := {
  archived : ArchivedFiles;
  trace : list event
}.

(** The closure given to [filepath.Walk]. Go panics on a nil [info]; Walk
    gives one only together with an error. *)
Definition walk_callback (env : Env) (uploader : S3Uploader)
    (s3FileMap : gmap string bool) (localDirectory bucketName : string)
    (path : string) (info : option FileInfo) (err : option error)
    (st : WalkState) : WalkState * option error :=
  match err with
  | Some e => (st, Some e)
  | None =>
      match info with
      | None => (st, Some (Panic "nil pointer dereference"))
      | Some info =>
          if IsDir info then (st, None)
          else
            let s3Key := s3KeyOf localDirectory path in
            if map_index s3FileMap s3Key then
              ({| archived := archived st;
                  trace := trace st ++ [SkipInS3 s3Key] |}, None)
            else if is_archived (elems (Files (archived st))) s3Key then
              ({| archived := archived st;
                  trace := trace st ++ [SkipArchived s3Key] |}, None)
            else
              let res := UploadFile env uploader path s3Key bucketName in
              let tr := trace st ++ [UploadCall path s3Key bucketName res] in
              match res with
              | Some e => ({| archived := archived st; trace := tr |}, Some e)
              | None =>
                  ({| archived :=
                        {| Files := append (Files (archived st)) s3Key |};
                      trace := tr |}, None)
              end
      end
  end.

(** The command line, after [flag.Parse]. *)
Record Flags := {
  credFile : string;
  bucketName : string;
  region : string;
  localDirectory : string;
  archiveFile : string
}.

(** How a run ends: the exit status, the file system it leaves and what it
    did. *)
Record Outcome := {
  exit_code : nat;
  disk : FileSystem;
  events : list event
}.

(** [log.Fatalf]: exit status 1. *)
Definition fatal (fs : FileSystem) (tr : list event) : Outcome :=
  {| exit_code := 1; disk := fs; events := tr |}.

(** The path of the manifest and the file system after
    [EnsureArchiveDirectory], or its error. *)
Definition archive_path (flags : Flags) (env : Env)
  : string * FileSystem * list event * option error :=
  if negb (String.eqb (archiveFile flags) "") then
    (archiveFile flags, files env, [], None)
  else
    let archiveDir := "archives" in
    let '(fs, tr, err) := EnsureArchiveDirectory env (files env) archiveDir in
    (GenerateArchiveFilePath archiveDir (localDirectory flags), fs, tr, err).

(** [main] *)
Definition main (flags : Flags) (env : Env) : Outcome :=
  if String.eqb (bucketName flags) "" || String.eqb (localDirectory flags) ""
  then fatal (files env) []
  else
    let '(archiveJSON, fs, tr, err) := archive_path flags env in
    match err with
    | Some _ => fatal fs tr
    | None =>
    match config_err env (credFile flags) (region flags) with
    | Some _ => fatal fs tr
    | None =>
    let uploader := {| Client := s3 env |} in
    let '(loaded, err) := LoadArchivedFiles fs archiveJSON in
    match err with
    | Some _ => fatal fs tr
    | None =>
    let '(s3Files, err) := ListS3Files uploader (bucketName flags) in
    match err with
    | Some _ => fatal fs tr
    | None =>
    let s3FileMap := make_s3FileMap s3Files in
    let '(st, err) :=
      Walker.Walk
        (walk_callback env uploader s3FileMap (localDirectory flags)
           (bucketName flags))
        (localDirectory flags) (tree env)
        {| archived := loaded; trace := tr |} in
    match err with
    | Some _ => fatal fs (trace st)
    | None =>
    let '(fs', tr', err) := SaveArchivedFiles env fs archiveJSON (archived st) in
    match err with
    | Some _ => fatal fs' (trace st ++ tr')
    | None => {| exit_code := 0; disk := fs'; events := trace st ++ tr' |}
    end end end end end end.

(** ** Words of the specification *)

(** A call of the closure: path, [info], [err]. *)
Definition visit : Type := string * option FileInfo * option error.

(** The calls [filepath.Walk] makes on a tree when no call stops it: a
    directory comes before its entries. *)
Fixpoint visits (path : string) (n : node) : list visit :=
  match n with
  | Leaf k => [(path, Some {| Mode := leaf_mode k |}, None)]
  | Broken e => [(path, None, Some (PathError "lstat" path e))]
  | DirUnreadable e =>
      [(path, Some dir_info, Some (PathError "open" path e))]
  | Dir entries =>
      (path, Some dir_info, None) ::
      (fix visit_names (es : list (string * node)) : list visit :=
         match es with
         | [] => []
         | (name, child) :: es' =>
             visits (Filepath.Join path name) child ++ visit_names es'
         end) entries
  end.

(** The same calls, one after the other, up to the first one that returns
    an error. *)
Fixpoint run_visits {St : Type} (walkFn : Walker.WalkFunc (St := St))
    (vs : list visit) (st : St) : St * option error :=
  match vs with
  | [] => (st, None)
  | (path, info, err) :: vs' =>
      let '(st', r) := walkFn path info err st in
      match r with
      | Some e => (st', Some e)
      | None => run_visits walkFn vs' st'
      end
  end.

(** An entry that cannot be examined or read lies somewhere in the tree. *)
Fixpoint has_fault (n : node) : bool :=
  match n with
  | Leaf _ => false
  | Broken _ | DirUnreadable _ => true
  | Dir entries =>
      (fix any (es : list (string * node)) : bool :=
         match es with
         | [] => false
         | (_, child) :: es' => has_fault child || any es'
         end) entries
  end.

(** The file the manifest of a run is kept in. *)
Definition manifest_path (flags : Flags) : string :=
  if negb (String.eqb (archiveFile flags) "") then archiveFile flags
  else GenerateArchiveFilePath "archives" (localDirectory flags).

(** The key the closure decided about, for the events it adds. *)
Definition decided (ev : event) : list string :=
  match ev with
  | SkipInS3 k | SkipArchived k => [k]
  | UploadCall _ k _ _ => [k]
  | _ => []
  end.

(** The keys the closure decided about, in order. *)
Definition decided_keys (tr : list event) : list string := flat_map decided tr.

Definition is_upload (ev : event) : bool :=
  match ev with UploadCall _ _ _ _ => true | _ => false end.

Definition is_write (ev : event) : bool :=
  match ev with WriteCall _ _ _ => true | _ => false end.

(** The keys of the uploads that succeeded. *)
Fixpoint uploaded_keys (tr : list event) : list string :=
  match tr with
  | [] => []
  | UploadCall _ s3Key _ None :: tr' => s3Key :: uploaded_keys tr'
  | _ :: tr' => uploaded_keys tr'
  end.

(** The keys a listing script holds. *)
Definition page_keys (p : page) : list string :=
  match p with
  | PageOk Contents => Contents
  | PageErr _ => []
  end.

(** A path element as a directory holds it: not empty, without separator,
    and neither [.] nor [..]. *)
Definition plain_name (name : string) : bool :=
  negb (String.eqb name "") && negb (Strings.contains Filepath.Separator name)
  && negb (String.eqb name ".") && negb (String.eqb name "..").

(** Every byte [old] of [s] replaced by [new]. *)
Fixpoint subst_byte (old new : ascii) (s : string) : string :=
  match s with
  | EmptyString => EmptyString
  | String a s' =>
      String (if Ascii.eqb a old then new else a) (subst_byte old new s')
  end.

(** The file name [GenerateArchiveFilePath] makes of a directory. *)
Definition manifest_name (localDir : string) : string :=
  subst_byte ":" "-" (subst_byte "/" "_" localDir) +:+ ".json".

(** The keys the specification gives the entries of a tree that are no
    directories: the names from the root down, joined by [/]. *)
Fixpoint relative_keys (prefix : string) (n : node) : list string :=
  match n with
  | Leaf _ => [prefix]
  | Dir entries =>
      (fix below (es : list (string * node)) : list string :=
         match es with
         | [] => []
         | (name, child) :: es' =>
             relative_keys
               (if String.eqb prefix "" then name else prefix +:+ "/" +:+ name)
               child ++ below es'
         end) entries
  | DirUnreadable _ | Broken _ => []
  end.

(** The keys of all the uploads that were called. *)
Fixpoint upload_keys (tr : list event) : list string :=
  match tr with
  | [] => []
  | UploadCall _ s3Key _ _ :: tr' => s3Key :: upload_keys tr'
  | _ :: tr' => upload_keys tr'
  end.

(** The strings of a JSON value (keys apart). *)
Fixpoint strings_of (v : Json.value) : list string :=
  match v with
  | Json.Str s => [s]
  | Json.Array vs => flat_map strings_of vs
  | Json.Object ms => flat_map (fun kv => strings_of (snd kv)) ms
  | _ => []
  end.

(** A string that is valid UTF-8. *)
Definition valid_utf8 (s : string) : Prop := Utf8.sanitize s = s.

(** The keys of the bucket, as the answers to the listing requests hold
    them: the Remote Inventory Snapshot of a run whose listing succeeds. *)
Definition inventory (env : Env) (bucket : string) : list string :=
  flat_map page_keys
    (fst (ListObjectsV2 (s3 env) bucket)
     :: snd (ListObjectsV2 (s3 env) bucket)).

(** [e'] is a world for the run that comes after the run in [e]: the same
    local tree, the file system the run in [e] left, and a bucket that holds
    what it held plus the keys that run uploaded. *)
Definition follows (flags : Flags) (e e' : Env) : Prop :=
  tree e' = tree e /\
  files e' = disk (main flags e) /\
  forall k,
    In k (inventory e' (bucketName flags)) <->
    In k (inventory e (bucketName flags)) \/
    In k (uploaded_keys (events (main flags e))).

Definition is_page_error (p : page) : bool :=
  match p with PageErr _ => true | PageOk _ => false end.

(** A request of the listing of the bucket fails. *)
Definition listing_fails (env : Env) (bucket : string) : bool :=
  existsb is_page_error
    (fst (ListObjectsV2 (s3 env) bucket)
     :: snd (ListObjectsV2 (s3 env) bucket)).

(** The service and the operating system answer in [e'] as they do in
    [e]: the same calls fail. *)
Definition same_behaviour (flags : Flags) (e e' : Env) : Prop :=
  (forall p, open_err e' p = open_err e p) /\
  (forall p, mkdir_err e' p = mkdir_err e p) /\
  (forall p, write_err e' p = write_err e p) /\
  (forall c r, config_err e' c r = config_err e c r) /\
  (forall bucket key,
     PutObject (s3 e') bucket key = PutObject (s3 e) bucket key) /\
  listing_fails e' (bucketName flags) = listing_fails e (bucketName flags).

(** A write of [path] fails when the file is opened or not at all: it
    never leaves the file with a part of its bytes. *)
Definition writes_whole (env : Env) (path : string) : Prop :=
  forall written e, write_err env path <> Some (WriteFails written e).

(** The worlds of runs that come one after the other, in surroundings
    that do not change. *)
Fixpoint successive (flags : Flags) (e : Env) (later : list Env) : Prop :=
  match later with
  | [] => True
  | e' :: later' =>
      follows flags e e' /\ same_behaviour flags e e' /\
      successive flags e' later'
  end.

(** ** Words of the proofs *)

(** Induction on trees: the entries of a directory are trees. *)
Definition node_ind (P : node -> Prop)
    (HLeaf : forall k, P (Leaf k))
    (HDir : forall es, Forall (fun e => P (snd e)) es -> P (Dir es))
    (HUnreadable : forall e, P (DirUnreadable e))
    (HBroken : forall e, P (Broken e)) : forall n, P n :=
  fix go (n : node) : P n :=
    match n with
    | Leaf k => HLeaf k
    | Dir es =>
        HDir es
          ((fix all (es : list (string * node)) : Forall (fun e => P (snd e)) es :=
              match es with
              | [] => List.Forall_nil _
              | e :: es' => @List.Forall_cons _ _ e es' (go (snd e)) (all es')
              end) es)
    | DirUnreadable e => HUnreadable e
    | Broken e => HBroken e
    end.

Definition is_PathError (e : error) : bool :=
  match e with PathError _ _ _ => true | _ => false end.

Definition not_skip (e : error) : bool :=
  negb (is_SkipDir e) && negb (is_SkipAll e).

(** What [filepath.Join] puts before a plain last element. *)
Definition join_prefix (a : string) : string :=
  if String.eqb a "" then ""
  else
    let kept := rev (fold_left (Filepath.clean_step (Filepath.rooted a))
                       (Filepath.split a) []) in
    (if Filepath.rooted a then "/" else "") +:+
    match kept with
    | [] => ""
    | _ => Strings.Join kept "/" +:+ "/"
    end.

(** What one call of the closure does: nothing, a skip, an upload that
  failed, or an upload with the key appended. *)
Inductive call_effect (env : Env) (uploader : S3Uploader)
  (m : gmap string bool) (ld b path : string) (st : WalkState)
: WalkState -> option error -> Prop :=
  | Call_nothing r : call_effect env uploader m ld b path st st r
  | Call_skip_s3 :
      map_index m (s3KeyOf ld path) = true ->
      call_effect env uploader m ld b path st
        {| archived := archived st;
           trace := trace st ++ [SkipInS3 (s3KeyOf ld path)] |} None
  | Call_skip_archived :
      map_index m (s3KeyOf ld path) = false ->
      In (s3KeyOf ld path) (elems (Files (archived st))) ->
      call_effect env uploader m ld b path st
        {| archived := archived st;
           trace := trace st ++ [SkipArchived (s3KeyOf ld path)] |} None
  | Call_upload_failed e :
      map_index m (s3KeyOf ld path) = false ->
      ~ In (s3KeyOf ld path) (elems (Files (archived st))) ->
      UploadFile env uploader path (s3KeyOf ld path) b = Some e ->
      call_effect env uploader m ld b path st
        {| archived := archived st;
           trace := trace st ++
                    [UploadCall path (s3KeyOf ld path) b (Some e)] |}
        (Some e)
  | Call_uploaded :
      map_index m (s3KeyOf ld path) = false ->
      ~ In (s3KeyOf ld path) (elems (Files (archived st))) ->
      UploadFile env uploader path (s3KeyOf ld path) b = None ->
      call_effect env uploader m ld b path st
        {| archived :=
             {| Files := append (Files (archived st)) (s3KeyOf ld path) |};
           trace := trace st ++
                    [UploadCall path (s3KeyOf ld path) b None] |}
        None.

(** An event that is neither an upload nor a write. *)
Definition quiet (ev : event) : Prop := is_upload ev = false /\ is_write ev = false.

(** What a run is made of, step by step. *)
Inductive run_of (flags : Flags) (env : Env) : Outcome -> Prop :=
  | Run_stopped fs tr :
      lookup_path fs (manifest_path flags)
      = lookup_path (files env) (manifest_path flags) ->
      Forall quiet tr ->
      run_of flags env (fatal fs tr)
  | Run_walked fs tr loaded s3Files st werr :
      lookup_path fs (manifest_path flags)
      = lookup_path (files env) (manifest_path flags) ->
      Forall quiet tr ->
      LoadArchivedFiles (files env) (manifest_path flags) = (loaded, None) ->
      ListS3Files {| Client := s3 env |} (bucketName flags) = (s3Files, None) ->
      run_visits
        (walk_callback env {| Client := s3 env |} (make_s3FileMap s3Files)
           (localDirectory flags) (bucketName flags))
        (visits (localDirectory flags) (tree env))
        {| archived := loaded; trace := tr |} = (st, werr) ->
      forall o,
      match werr with
      | Some _ => o = fatal fs (trace st)
      | None =>
          exists fs' serr,
          SaveArchivedFiles env fs (manifest_path flags) (archived st)
          = (fs', [WriteCall (manifest_path flags)
                     (Json.MarshalIndent (Files (archived st))) serr], serr) /\
          o = {| exit_code := match serr with Some _ => 1 | None => 0 end;
                 disk := fs';
                 events := trace st ++
                           [WriteCall (manifest_path flags)
                              (Json.MarshalIndent (Files (archived st))) serr] |}
      end ->
      run_of flags env o.

Definition is_object_or_null (v : Json.value) : bool :=
  match v with Json.Object _ | Json.Null => true | _ => false end.

Definition is_array_or_null (v : Json.value) : bool :=
  match v with Json.Array _ | Json.Null => true | _ => false end.

Fixpoint all_high (s : string) : bool :=
  match s with
  | EmptyString => true
  | String c s' => negb (Utf8.is_ascii c) && all_high s'
  end.

(** A piece is a well-formed sequence: one byte below [0x80], or two to
    four bytes from [0x80] on that decode as one sequence. *)
Definition chunk_ok (ch : Utf8.chunk) : Prop :=
  match ch with
  | Utf8.Bad _ => True
  | Utf8.Rune bytes =>
      Utf8.rune_len bytes = String.length bytes /\
      ((exists c, bytes = String c "" /\ Utf8.is_ascii c = true) \/
       (2 <= String.length bytes /\ all_high bytes = true))
  end.

(** What stands between two elements of the array [MarshalIndent]
    writes, and the values its elements are read back as. *)
Definition element_separator : string := "," +:+ Json.newline +:+ "    ".

Definition read_strings (xs : list string) : list Json.value :=
  map (fun x => Json.Str (Utf8.sanitize x)) xs.

(** The JSON value [MarshalIndent] writes for a key list. *)
Definition written (files : option (list string)) : Json.value :=
  Json.Object
    [("files",
      match files with
      | None => Json.Null
      | Some xs => Json.Array (read_strings xs)
      end)].

(** Values, frames and scanners whose strings are all valid UTF-8. *)
Definition clean (v : Json.value) : Prop := Forall valid_utf8 (strings_of v).

Definition frame_clean (f : Json.frame) : Prop :=
  match f with
  | Json.InArray seen => Forall clean seen
  | Json.InObject seen _ => Forall (fun kv => clean (snd kv)) seen
  end.

Definition step_clean (s : Json.step) : Prop :=
  match s with
  | Json.EndTop v | Json.Literal _ v => clean v
  | _ => True
  end.

Definition scanner_clean (sc : Json.scanner) : Prop :=
  Forall frame_clean (Json.parseState sc) /\ step_clean (Json.st sc).

(** The strings of a slice and of its backing array are valid UTF-8. *)
Definition slice_valid (s : Json.slice) : Prop :=
  Forall valid_utf8 (elems (Json.elements s)) /\
  Forall valid_utf8 (Json.beyond s).

(** The key of every entry of the tree that is no directory is among
    [keys]. *)
Definition covered (flags : Flags) (t : node) (keys : list string) : Prop :=
  forall p info,
    In (p, Some info, None) (visits (localDirectory flags) t) ->
    IsDir info = false ->
    In (s3KeyOf (localDirectory flags) p) keys.

(** The run ends before the walk. *)
Definition stops (flags : Flags) (env : Env) : Prop :=
  String.eqb (bucketName flags) "" || String.eqb (localDirectory flags) ""
  = true \/
  snd (archive_path flags env) <> None \/
  config_err env (credFile flags) (region flags) <> None \/
  snd (LoadArchivedFiles (files env) (manifest_path flags)) <> None \/
  listing_fails env (bucketName flags) = true.

(** The run reaches the walk. *)
Definition ready (flags : Flags) (env : Env) (fs : FileSystem)
    (tr : list event) (loaded : ArchivedFiles)
    (s3Files : option (list string)) : Prop :=
  String.eqb (bucketName flags) "" || String.eqb (localDirectory flags) ""
  = false /\
  archive_path flags env = (manifest_path flags, fs, tr, None) /\
  config_err env (credFile flags) (region flags) = None /\
  LoadArchivedFiles (files env) (manifest_path flags) = (loaded, None) /\
  ListS3Files {| Client := s3 env |} (bucketName flags) = (s3Files, None).

(** What [main] does from the walk on. *)
Definition from_walk (flags : Flags) (env : Env) (fs : FileSystem)
    (tr : list event) (loaded : ArchivedFiles)
    (s3Files : option (list string)) : Outcome :=
  let '(st, werr) :=
    run_visits
      (walk_callback env {| Client := s3 env |} (make_s3FileMap s3Files)
         (localDirectory flags) (bucketName flags))
      (visits (localDirectory flags) (tree env))
      {| archived := loaded; trace := tr |} in
  match werr with
  | Some _ => fatal fs (trace st)
  | None =>
      let '(fs', tr', serr) :=
        SaveArchivedFiles env fs (manifest_path flags) (archived st) in
      match serr with
      | Some _ => fatal fs' (trace st ++ tr')
      | None => {| exit_code := 0; disk := fs'; events := trace st ++ tr' |}
      end
  end.

(** A path element without separator. *)
Definition no_sep (e : string) : Prop :=
  Strings.contains Filepath.Separator e = false.

(** The elements [Clean] has kept so far (last one first): none is empty
    or [.], none holds a separator, and [..] stands only at the start of
    a path that is not rooted. *)
Fixpoint kept_ok (r : bool) (acc : list string) : Prop :=
  match acc with
  | [] => True
  | e :: acc' =>
      kept_ok r acc' /\ e <> "" /\ e <> "." /\ no_sep e /\
      (e = ".." -> r = false /\ Forall (fun k => k = "..") acc')
  end.

(** A tree whose directories hold entries with plain names. *)
Fixpoint plain_tree (n : node) : bool :=
  match n with
  | Dir entries =>
      (fix all (es : list (string * node)) : bool :=
         match es with
         | [] => true
         | (name, child) :: es' =>
             plain_name name && plain_tree child && all es'
         end) entries
  | _ => true
  end.

(** The keys the closure derives for the calls of a walk on entries that
    are no directories, in the order of the walk. *)
Definition file_keys (ld : string) (vs : list visit) : list string :=
  flat_map
    (fun v : visit =>
       match v with
       | (path, Some info, None) =>
           if IsDir info then [] else [s3KeyOf ld path]
       | _ => []
       end) vs.

(** The path [P] of the walk stands for the relative path [rel] under the
    root [ld]. *)
Definition below (ld P rel : string) : Prop :=
  (rel = "" /\ P = ld) \/
  (rel <> "" /\ Filepath.rooted rel = false /\
   P = join_prefix ld +:+ rel /\
   Filepath.Clean P = P /\ P <> "." /\ P <> "/").

(** ** Sample worlds *)

Module Sample.

(** A bucket that lists [keys] in one page and accepts every upload. *)
Definition client (keys : list string) : S3Client :=
  {| ListObjectsV2 := fun _ => (PageOk keys, []);
     PutObject := fun _ _ => None |}.

(** A bucket whose listing fails on its second page. *)
Definition failing_client : S3Client :=
  {| ListObjectsV2 := fun _ => (PageOk ["a.txt"], [PageErr "timeout"]);
     PutObject := fun _ _ => None |}.

(** A bucket that refuses every upload. *)
Definition refusing_client : S3Client :=
  {| ListObjectsV2 := fun _ => (PageOk [], []);
     PutObject := fun _ _ => Some "AccessDenied" |}.

(** A bucket that lists [keys] in one page and refuses the uploads
    under the key [refused]. *)
Definition refusing_only (keys : list string) (refused : string) : S3Client :=
  {| ListObjectsV2 := fun _ => (PageOk keys, []);
     PutObject := fun _ key =>
       if String.eqb key refused then Some "AccessDenied" else None |}.

Definition local_tree : node :=
  Dir [("a.txt", Leaf Regular); ("sub", Dir [("b.txt", Leaf Regular)])].

(** Two files whose names are the single bytes 0xFE and 0xFF, which are
    not UTF-8. *)
Definition byte_fe : string := String (ascii_of_N 254) "".
Definition byte_ff : string := String (ascii_of_N 255) "".
Definition bytes_tree : node :=
  Dir [(byte_fe, Leaf Regular); (byte_ff, Leaf Regular)].

Definition world (fs : FileSystem) (t : node) (c : S3Client) : Env :=
  {| files := fs; tree := t;
     open_err := fun _ => None; mkdir_err := fun _ => None;
     write_err := fun _ => None; config_err := fun _ _ => None;
     s3 := c |}.

Definition flags (localDir : string) : Flags :=
  {| credFile := ""; bucketName := "bucket"; region := "ap-northeast-1";
     localDirectory := localDir; archiveFile := "" |}.

Definition state : WalkState :=
  {| archived := {| Files := Some ["old.txt"] |}; trace := [] |}.

End Sample.

(** * Verification *)

(** ** The embedding at work *)

Example Clean_examples :
  Filepath.Clean "a//b/./c/.." = "a/b" /\
  Filepath.Clean "/../a" = "/a" /\
  Filepath.Clean "../../a/.." = "../.." /\
  Filepath.Clean "" = "." /\
  Filepath.Clean "/" = "/" /\
  Filepath.Clean "./data/" = "data" /\
  Filepath.Join "./data" "a.txt" = "data/a.txt" /\
  Filepath.Join "data/" "a.txt" = "data/a.txt" /\
  Filepath.Join "" "a.txt" = "a.txt" /\
  Filepath.Join "/" "x" = "/x".
Proof. repeat split; reflexivity. Qed.

Example strings_examples :
  Strings.ReplaceAll "a/b//c" "/" "_" = "a_b__c" /\
  Strings.ReplaceAll "aaa" "aa" "b" = "ba" /\
  Strings.ReplaceAll "C:x" ":" "-" = "C-x" /\
  Strings.TrimPrefix "data/a" "data" = "/a" /\
  Strings.TrimPrefix "data/a" "./data" = "data/a" /\
  s3KeyOf "data" "data/sub/b.txt" = "sub/b.txt" /\
  s3KeyOf "data/" "data/sub/b.txt" = "sub/b.txt" /\
  GenerateArchiveFilePath "archives" "/home/me/photos"
  = "archives/_home_me_photos.json".
Proof. repeat split; reflexivity. Qed.

Example json_examples :
  Json.parse "{}" = Some (Json.Object []) /\
  Json.parse " [1, -2.5e3, true, null] "
  = Some (Json.Array [Json.Number "1"; Json.Number "-2.5e3"; Json.Bool true;
                      Json.Null]) /\
  Json.parse "[1,]" = None /\
  Json.parse "01" = None /\
  Json.parse "" = None /\
  Json.parse "{} x" = None /\
  Json.parse (Json.quote "a<\n") = Some (Json.Str "a<\n") /\
  Json.parse (String Json.quote_char ("\u00e9\ud83d\ude00\ud83d"
                                       +:+ String Json.quote_char ""))
  = Some (Json.Str (Utf8.EncodeRune 233 +:+ Utf8.EncodeRune 128512
                    +:+ Utf8.replacement)) /\
  Json.Unmarshal ("{" +:+ Json.quote "FILES" +:+ ":[" +:+ Json.quote "k"
                  +:+ ",null]}") None
  = (Some ["k"; ""], None) /\
  Json.Unmarshal (Json.MarshalIndent (Some ["a<b"; String "255" ""])) None
  = (Some ["a<b"; Utf8.replacement], None).
Proof. repeat split; vm_compute; reflexivity. Qed.

(** The scenario of the specification: [a.txt] and [sub/b.txt], an empty
    bucket and no manifest. Both files are uploaded in the order of the
    walk, and the manifest that is saved holds both keys. *)
Example scenario_empty_bucket :
  let o := main (Sample.flags "data")
             (Sample.world ∅ Sample.local_tree (Sample.client [])) in
  exit_code o = 0 /\
  events o
  = [MkdirCall "archives" None;
     UploadCall "data/a.txt" "a.txt" "bucket" None;
     UploadCall "data/sub/b.txt" "sub/b.txt" "bucket" None;
     WriteCall "archives/data.json"
       (Json.MarshalIndent (Some ["a.txt"; "sub/b.txt"])) None] /\
  LoadArchivedFiles (disk o) "archives/data.json"
  = ({| Files := Some ["a.txt"; "sub/b.txt"] |}, None).
Proof. repeat split; vm_compute; reflexivity. Qed.

(** The same with [a.txt] in the bucket: only [sub/b.txt] is uploaded and
    recorded. *)
Example scenario_one_in_bucket :
  let o := main (Sample.flags "data")
             (Sample.world ∅ Sample.local_tree (Sample.client ["a.txt"])) in
  exit_code o = 0 /\
  events o
  = [MkdirCall "archives" None;
     SkipInS3 "a.txt";
     UploadCall "data/sub/b.txt" "sub/b.txt" "bucket" None;
     WriteCall "archives/data.json"
       (Json.MarshalIndent (Some ["sub/b.txt"])) None].
Proof. repeat split; vm_compute; reflexivity. Qed.

(** A key of the manifest is skipped after the bucket was looked at. *)
Example scenario_in_manifest :
  let fs : FileSystem :=
    {[ "archives" := FDir;
       "archives/data.json" := FFile (Json.MarshalIndent (Some ["a.txt"])) ]} in
  let o := main (Sample.flags "data")
             (Sample.world fs Sample.local_tree (Sample.client ["sub/b.txt"])) in
  events o
  = [SkipArchived "a.txt"; SkipInS3 "sub/b.txt";
     WriteCall "archives/data.json" (Json.MarshalIndent (Some ["a.txt"])) None].
Proof. vm_compute. reflexivity. Qed.

(** ** Membership tests *)

Lemma is_archived_In (l : list string) (k : string) :
  is_archived l k = true <-> In k l.
Proof.
  induction l as [|x l IH]; simpl.
  - split; [discriminate | tauto].
  - destruct (String.eqb_spec x k) as [->|Hne].
    + split; auto.
    + rewrite IH. split; [auto | intros [H|H]; [contradiction | exact H]].
Qed.

Lemma is_archived_false (l : list string) (k : string) :
  is_archived l k = false <-> ~ In k l.
Proof.
  rewrite <- is_archived_In. destruct (is_archived l k); split; congruence.
Qed.

Lemma map_index_fold (l : list string) (m : gmap string bool) (k : string) :
  map_index (fold_left (fun m s3File => <[s3File := true]> m) l m) k = true
  <-> In k l \/ map_index m k = true.
Proof.
  revert m. induction l as [|x l IH]; intros m; simpl.
  - tauto.
  - rewrite IH. unfold map_index at 1. 
    destruct (decide (x = k)) as [->|Hne].
    + rewrite lookup_insert_eq. simpl. tauto.
    + rewrite lookup_insert_ne by exact Hne. fold (map_index m k).
      split; [intros [H|H]; auto | intros [[H|H]|H]; auto; contradiction].
Qed.

Lemma map_index_make (s3Files : option (list string)) (k : string) :
  map_index (make_s3FileMap s3Files) k = true <-> In k (elems s3Files).
Proof.
  unfold make_s3FileMap. rewrite map_index_fold.
  unfold map_index. rewrite lookup_empty. simpl.
  split; [intros [H|H]; [exact H | discriminate] | auto].
Qed.

(** ** [filepath.Walk] as a sequence of calls *)

Lemma run_visits_app {St} (fn : Walker.WalkFunc (St := St)) l1 l2 st :
  run_visits fn (l1 ++ l2) st =
  match run_visits fn l1 st with
  | (st', Some e) => (st', Some e)
  | (st', None) => run_visits fn l2 st'
  end.
Proof.
  revert st. induction l1 as [|[[p i] e] l1 IH]; intros st; simpl.
  - reflexivity.
  - destruct (fn p i e st) as [st' [r|]]; [reflexivity | apply IH].
Qed.

Lemma visits_errors (path : string) (n : node) :
  Forall (fun v : visit =>
            match snd v with Some e => is_PathError e = true | None => True end)
    (visits path n).
Proof.
  revert path. induction n as [k|es IH|e|e] using node_ind; intros path; simpl.
  - repeat constructor.
  - constructor; [exact I|].
    induction es as [|[name child] es IHes]; [constructor|].
    inversion IH as [|? ? Hc Hes]; subst.
    apply Forall_app; split; [apply Hc | apply IHes, Hes].
  - repeat constructor.
  - repeat constructor.
Qed.

Section WalkVisits.
Context {St : Type} (fn : Walker.WalkFunc (St := St)).

(** The closure returns neither [SkipDir] nor [SkipAll] when it is given
    no error or an error of the file system. *)
Hypothesis fn_no_skip :
  forall path info err st st' e,
    match err with Some e0 => is_PathError e0 = true | None => True end ->
    fn path info err st = (st', Some e) -> not_skip e = true.

Lemma run_visits_no_skip vs st st' e :
  Forall (fun v : visit =>
            match snd v with Some e => is_PathError e = true | None => True end)
    vs ->
  run_visits fn vs st = (st', Some e) -> not_skip e = true.
Proof.
  revert st. induction vs as [|[[p i] err] vs IH]; intros st Hall; simpl.
  - discriminate.
  - inversion Hall as [|? ? Hv Hvs]; subst. simpl in Hv.
    destruct (fn p i err st) as [st1 [r|]] eqn:Hfn.
    + intros [= <- <-]. eapply fn_no_skip; eauto.
    + apply IH, Hvs.
Qed.

Lemma walk_visits (path : string) (n : node) (st : St) :
  Walker.walk fn path n st = run_visits fn (visits path n) st.
Proof.
  revert path st.
  induction n as [k|es IH|e|e] using node_ind; intros path st; simpl.
  - destruct (fn path _ None st) as [st' [r|]]; reflexivity.
  - destruct (fn path (Some dir_info) None st) as [st1 [r|]]; [reflexivity|].
    clear st. revert st1.
    induction es as [|[name child] es IHes]; intros st1; [reflexivity|].
    inversion IH as [|? ? Hc Hes]; subst. simpl in Hc.
    rewrite run_visits_app, <- Hc.
    destruct (Walker.walk fn (Filepath.Join path name) child st1)
      as [st2 [r|]] eqn:Hw.
    + rewrite Hc in Hw.
      apply run_visits_no_skip in Hw; [|apply visits_errors].
      unfold Walker.goes_on. unfold not_skip in Hw.
      destruct (is_SkipDir r); [discriminate | reflexivity].
    + apply IHes, Hes.
  - destruct (fn path _ _ st) as [st' [r|]]; reflexivity.
  - destruct (fn path _ _ st) as [st' [r|]]; reflexivity.
Qed.

Lemma Walk_visits (root : string) (tree : node) (st : St) :
  Walker.Walk fn root tree st = run_visits fn (visits root tree) st.
Proof.
  unfold Walker.Walk. rewrite walk_visits.
  destruct (run_visits fn (visits root tree) st) as [st' [e|]] eqn:Hr;
    [|reflexivity].
  apply run_visits_no_skip in Hr; [|apply visits_errors].
  unfold not_skip in Hr.
  destruct (is_SkipDir e), (is_SkipAll e); try discriminate; reflexivity.
Qed.
End WalkVisits.

(** ** Byte strings *)

Lemma app_cons (a : ascii) (s t : string) :
  String a s +:+ t = String a (s +:+ t).
Proof. reflexivity. Qed.

Lemma app_empty_l (s : string) : "" +:+ s = s.
Proof. reflexivity. Qed.

Lemma app_empty_r (s : string) : s +:+ "" = s.
Proof. induction s as [|a s IH]; [reflexivity|]. rewrite app_cons, IH. reflexivity. Qed.

Lemma app_assoc_s (s t u : string) : (s +:+ t) +:+ u = s +:+ (t +:+ u).
Proof.
  induction s as [|a s IH]; [reflexivity|]. rewrite !app_cons, IH. reflexivity.
Qed.

Lemma app_length (s t : string) :
  String.length (s +:+ t) = String.length s + String.length t.
Proof.
  induction s as [|a s IH]; [reflexivity|]. rewrite app_cons. simpl. rewrite IH. reflexivity.
Qed.

Lemma app_inv_r (s t u : string) : s +:+ u = t +:+ u -> s = t.
Proof.
  revert t. induction s as [|a s IH]; intros [|b t] H.
  - reflexivity.
  - apply (f_equal String.length) in H.
    rewrite app_empty_l, !app_length in H. simpl in H. lia.
  - apply (f_equal String.length) in H.
    rewrite app_empty_l, !app_length in H. simpl in H. lia.
  - rewrite !app_cons in H. injection H as -> H. f_equal. apply IH, H.
Qed.

Lemma contains_app (c : ascii) (s t : string) :
  Strings.contains c (s +:+ t) = Strings.contains c s || Strings.contains c t.
Proof.
  induction s as [|a s IH]; [reflexivity|]. rewrite app_cons. simpl.
  rewrite IH. apply orb_assoc.
Qed.

Lemma ReplaceAll_byte (s : string) (old new : ascii) :
  Strings.ReplaceAll s (String old "") (String new "") = subst_byte old new s.
Proof.
  unfold Strings.ReplaceAll.
  induction s as [|a s IH]; [reflexivity|].
  cbn [Strings.replace_from Strings.HasPrefix String.length Nat.sub subst_byte].
  rewrite (Ascii.eqb_sym old a).
  destruct (Ascii.eqb a old); cbn [andb].
  - destruct s; rewrite app_cons, app_empty_l, IH; reflexivity.
  - rewrite IH; reflexivity.
Qed.

Lemma subst_byte_contains (old new : ascii) (s : string) :
  old <> new -> Strings.contains old (subst_byte old new s) = false.
Proof.
  intros Hne. induction s as [|a s IH]; [reflexivity|]. simpl. rewrite IH.
  destruct (Ascii.eqb_spec a old) as [->|Ha].
  - rewrite orb_false_r. apply Ascii.eqb_neq. congruence.
  - rewrite orb_false_r. apply Ascii.eqb_neq. exact Ha.
Qed.

Lemma subst_byte_keeps (c old new : ascii) (s : string) :
  c <> new -> Strings.contains c s = false ->
  Strings.contains c (subst_byte old new s) = false.
Proof.
  intros Hne. induction s as [|a s IH]; [reflexivity|]. simpl.
  intros H. apply orb_false_iff in H as [Ha Hs]. rewrite (IH Hs), orb_false_r.
  destruct (Ascii.eqb a old); [|exact Ha].
  apply Ascii.eqb_neq. congruence.
Qed.

(** Replacing a byte loses nothing on the strings that do not hold the
    new byte. *)
Lemma subst_byte_inj (old new : ascii) (s t : string) :
  Strings.contains new s = false -> Strings.contains new t = false ->
  subst_byte old new s = subst_byte old new t -> s = t.
Proof.
  revert t. induction s as [|a s IH]; intros [|b t] Hs Ht H;
    try discriminate; [reflexivity|].
  simpl in Hs, Ht, H.
  apply orb_false_iff in Hs as [Ha Hs]. apply orb_false_iff in Ht as [Hb Ht].
  injection H as Hab H. f_equal; [|apply IH; assumption].
  apply Ascii.eqb_neq in Ha, Hb.
  destruct (Ascii.eqb_spec a old) as [->|Hao], (Ascii.eqb_spec b old) as [->|Hbo];
    congruence.
Qed.

(** ** Paths *)

Lemma split_from_app (cur a y : string) :
  Filepath.split_from cur (a +:+ String Filepath.Separator y) =
  Filepath.split_from cur a ++ Filepath.split_from "" y.
Proof.
  revert cur. induction a as [|c a IH]; intros cur.
  - rewrite app_empty_l. simpl. reflexivity.
  - rewrite app_cons. simpl. destruct (Ascii.eqb c Filepath.Separator).
    + rewrite IH. reflexivity.
    + apply IH.
Qed.

Lemma split_from_plain (cur c : string) :
  Strings.contains Filepath.Separator c = false ->
  Filepath.split_from cur c = [cur +:+ c].
Proof.
  revert cur. induction c as [|a c IH]; intros cur H.
  - rewrite app_empty_r. reflexivity.
  - simpl in H. apply orb_false_iff in H as [Ha Hc]. simpl. rewrite Ha.
    rewrite (IH _ Hc), app_assoc_s. reflexivity.
Qed.

Lemma clean_step_plain (r : bool) (kept : list string) (c : string) :
  plain_name c = true -> Filepath.clean_step r kept c = c :: kept.
Proof.
  unfold plain_name, Filepath.clean_step. intros H.
  apply andb_true_iff in H as [H H3]. apply andb_true_iff in H as [H H2].
  apply andb_true_iff in H as [H0 H1].
  apply negb_true_iff in H0, H2, H3. rewrite H0, H2, H3. reflexivity.
Qed.

Lemma Join_snoc (l : list string) (c sep : string) :
  Strings.Join (l ++ [c]) sep =
  match l with
  | [] => c
  | _ => Strings.Join l sep +:+ sep +:+ c
  end.
Proof.
  induction l as [|x l IH]; [reflexivity|].
  destruct l as [|y l]; [reflexivity|].
  change ((x :: y :: l) ++ [c]) with (x :: ((y :: l) ++ [c])).
  change (Strings.Join (x :: (y :: l) ++ [c]) sep)
    with (x +:+ sep +:+ Strings.Join ((y :: l) ++ [c]) sep).
  rewrite IH.
  change (Strings.Join (x :: y :: l) sep)
    with (x +:+ sep +:+ Strings.Join (y :: l) sep).
  rewrite !app_assoc_s. reflexivity.
Qed.

Lemma app_not_empty (s c : string) : c <> "" -> String.eqb (s +:+ c) "" = false.
Proof.
  intros Hc. apply String.eqb_neq. intros H.
  apply (f_equal String.length) in H. rewrite app_length in H.
  destruct c; [congruence|]. simpl in H. lia.
Qed.

Lemma Join_plain (a c : string) :
  plain_name c = true -> Filepath.Join a c = join_prefix a +:+ c.
Proof.
  intros Hc. pose proof Hc as Hp. unfold plain_name in Hp.
  apply andb_true_iff in Hp as [Hp _]. apply andb_true_iff in Hp as [Hp _].
  apply andb_true_iff in Hp as [Hne Hsep].
  apply negb_true_iff in Hne, Hsep. apply String.eqb_neq in Hne.
  unfold Filepath.Join, join_prefix.
  destruct (String.eqb_spec a "") as [->|Ha]; cbn [negb].
  - destruct (String.eqb_spec c "") as [->|_]; [congruence|]. cbn [negb].
    unfold Filepath.Clean, Filepath.split.
    rewrite (split_from_plain _ _ Hsep), app_empty_l. cbn [fold_left].
    rewrite (clean_step_plain _ _ _ Hc).
    assert (Hr : Filepath.rooted c = false).
    { destruct c as [|x c]; [reflexivity|]. simpl in Hsep. simpl.
      apply orb_false_iff in Hsep as [Hx _]. exact Hx. }
    rewrite Hr. cbn. destruct (String.eqb_spec c "") as [->|_]; [congruence|].
    reflexivity.
  - unfold Filepath.Clean, Filepath.split.
    change ("/" +:+ c) with (String Filepath.Separator c).
    rewrite split_from_app, (split_from_plain _ _ Hsep), app_empty_l.
    rewrite fold_left_app. cbn [fold_left].
    assert (Hr : Filepath.rooted (a +:+ String Filepath.Separator c)
                 = Filepath.rooted a).
    { destruct a; [congruence | reflexivity]. }
    rewrite Hr.
    rewrite (clean_step_plain _ _ _ Hc). cbn [rev]. rewrite Join_snoc.
    set (kept := rev (fold_left _ _ _)).
    destruct (Filepath.rooted a).
    + destruct kept; [reflexivity|]. rewrite !app_assoc_s. reflexivity.
    + rewrite app_empty_l.
      destruct kept as [|k kept'].
      * destruct (String.eqb_spec c "") as [->|_]; [congruence | reflexivity].
      * rewrite <- !app_assoc_s. rewrite app_not_empty by exact Hne.
        reflexivity.
Qed.

Lemma subst_plain (d : string) : plain_name (manifest_name d) = true.
Proof.
  unfold plain_name, manifest_name.
  assert (Hsep : Strings.contains Filepath.Separator
                   (subst_byte ":" "-" (subst_byte "/" "_" d) +:+ ".json")
                 = false).
  { rewrite contains_app. apply orb_false_iff. split; [|reflexivity].
    apply subst_byte_keeps; [discriminate|].
    apply subst_byte_contains. discriminate. }
  rewrite Hsep. cbn [negb andb].
  set (b := subst_byte ":" "-" (subst_byte "/" "_" d)).
  assert (Hlen : 5 <= String.length (b +:+ ".json")).
  { rewrite app_length. simpl. lia. }
  destruct (String.eqb_spec (b +:+ ".json") "") as [E|_];
    [rewrite E in Hlen; simpl in Hlen; lia|].
  destruct (String.eqb_spec (b +:+ ".json") ".") as [E|_];
    [rewrite E in Hlen; simpl in Hlen; lia|].
  destruct (String.eqb_spec (b +:+ ".json") "..") as [E|_];
    [rewrite E in Hlen; simpl in Hlen; lia|].
  reflexivity.
Qed.

Lemma GenerateArchiveFilePath_eq (archiveDir localDir : string) :
  GenerateArchiveFilePath archiveDir localDir =
  join_prefix archiveDir +:+ manifest_name localDir.
Proof.
  unfold GenerateArchiveFilePath, PathSeparator.
  rewrite !ReplaceAll_byte.
  apply Join_plain, subst_plain.
Qed.

Lemma manifest_path_not_archives (localDir : string) :
  GenerateArchiveFilePath "archives" localDir <> "archives".
Proof.
  rewrite GenerateArchiveFilePath_eq. intros H.
  apply (f_equal String.length) in H. rewrite app_length in H.
  unfold manifest_name in H. rewrite app_length in H.
  change (String.length (join_prefix "archives")) with 9 in H.
  simpl in H. lia.
Qed.

(** ** The closure, one call *)

Section Callback.
Variables (env : Env) (uploader : S3Uploader) (m : gmap string bool)
          (ld b : string).

Local Abbreviation cb := (walk_callback env uploader m ld b).

Lemma callback_effect path info err st :
  call_effect env uploader m ld b path st
    (fst (cb path info err st)) (snd (cb path info err st)).
Proof.
  unfold walk_callback.
  destruct err as [e|]; [constructor|].
  destruct info as [info|]; [|constructor].
  destruct (IsDir info); [constructor|].
  destruct (map_index m (s3KeyOf ld path)) eqn:Hm; [now constructor|].
  destruct (is_archived _ _) eqn:Ha.
  - apply is_archived_In in Ha. now constructor.
  - apply is_archived_false in Ha.
    destruct (UploadFile env uploader path (s3KeyOf ld path) b) eqn:Hu;
      simpl; now constructor.
Qed.

(** A call on a directory, or with an error, changes nothing. *)
Lemma callback_error path info e st : cb path info (Some e) st = (st, Some e).
Proof. reflexivity. Qed.

Lemma callback_dir path info st :
  IsDir info = true -> cb path (Some info) None st = (st, None).
Proof. intros H. unfold walk_callback. rewrite H. reflexivity. Qed.

Lemma callback_no_skip path info err st st' e :
  match err with Some e0 => is_PathError e0 = true | None => True end ->
  cb path info err st = (st', Some e) -> not_skip e = true.
Proof.
  unfold walk_callback. intros Herr.
  destruct err as [e0|].
  - intros [= <- <-]. destruct e0; try discriminate; reflexivity.
  - destruct info as [info|]; [|intros [= <- <-]; reflexivity].
    destruct (IsDir info); [discriminate|].
    destruct (map_index _ _); [discriminate|].
    destruct (is_archived _ _); [discriminate|].
    unfold UploadFile.
    destruct (open_err env path); [intros [= <- <-]; reflexivity|].
    destruct (PutObject _ _ _); [intros [= <- <-]; reflexivity|discriminate].
Qed.

Lemma Walk_callback root tree st :
  Walker.Walk cb root tree st = run_visits cb (visits root tree) st.
Proof. apply Walk_visits. intros. eapply callback_no_skip; eauto. Qed.

(** ** The closure along the walk *)

(** The key list only grows, by the keys uploaded. *)
Lemma run_files vs st st' r :
  run_visits cb vs st = (st', r) ->
  exists new,
    trace st' = trace st ++ new /\
    elems (Files (archived st')) =
      elems (Files (archived st)) ++ uploaded_keys new /\
    (uploaded_keys new = [] -> archived st' = archived st) /\
    Forall (fun ev => is_write ev = false) new.
Proof.
  revert st. induction vs as [|[[p i] err] vs IH]; intros st; simpl.
  - intros [= <- <-]. exists []. rewrite !app_nil_r. auto.
  - pose proof (callback_effect p i err st) as Heff.
    destruct (cb p i err st) as [st1 r1]. simpl in Heff.
    assert (Hstep : exists new1,
               trace st1 = trace st ++ new1 /\
               elems (Files (archived st1)) =
                 elems (Files (archived st)) ++ uploaded_keys new1 /\
               (uploaded_keys new1 = [] -> archived st1 = archived st) /\
               Forall (fun ev => is_write ev = false) new1).
    { inversion Heff; subst; simpl.
      - exists []. rewrite !app_nil_r. auto.
      - exists [SkipInS3 (s3KeyOf ld p)]. simpl. rewrite app_nil_r.
        repeat split; auto.
      - exists [SkipArchived (s3KeyOf ld p)]. simpl. rewrite app_nil_r.
        repeat split; auto.
      - exists [UploadCall p (s3KeyOf ld p) b (Some e)]. simpl.
        rewrite app_nil_r. repeat split; auto.
      - exists [UploadCall p (s3KeyOf ld p) b None]. simpl.
        repeat split; auto. discriminate. }
    destruct Hstep as (new1 & Ht1 & Hf1 & Hn1 & Hw1).
    assert (Hup : forall a c, uploaded_keys (a ++ c)
                              = uploaded_keys a ++ uploaded_keys c).
    { intros a c. induction a as [|[| |? ? ? [?|]| |] a IHa]; simpl;
        rewrite ?IHa; reflexivity. }
    destruct r1 as [e1|].
    + intros [= <- <-]. exists new1. auto.
    + intros Hrun. destruct (IH _ Hrun) as (new2 & Ht2 & Hf2 & Hn2 & Hw2).
      exists (new1 ++ new2). rewrite Ht2, Ht1, Hf2, Hf1, Hup, !app_assoc.
      repeat split; auto.
      * intros Hnil. apply app_eq_nil in Hnil as [H1 H2].
        rewrite (Hn2 H2). apply Hn1, H1.
      * apply Forall_app; auto.
Qed.

Lemma uploaded_keys_app a c :
  uploaded_keys (a ++ c) = uploaded_keys a ++ uploaded_keys c.
Proof.
  induction a as [|[| |? ? ? [?|]| |] a IHa]; simpl; rewrite ?IHa; reflexivity.
Qed.

(** Every upload is for an entry of the walk that is no directory, under
    the key derived from its path, and only when the key is neither in
    the listing nor in the key list. *)
Lemma run_uploads vs st st' r :
  run_visits cb vs st = (st', r) ->
  forall p k b' res, In (UploadCall p k b' res) (trace st') ->
    In (UploadCall p k b' res) (trace st) \/
    (map_index m k = false /\ ~ In k (elems (Files (archived st))) /\
     b' = b /\ k = s3KeyOf ld p /\
     res = UploadFile env uploader p k b /\
     exists info, In (p, Some info, None) vs /\ IsDir info = false).
Proof.
  revert st. induction vs as [|[[p0 i] err] vs IH]; intros st; simpl.
  - intros [= <- <-]. auto.
  - pose proof (callback_effect p0 i err st) as Heff.
    assert (Hvis : forall st1 r1, cb p0 i err st = (st1, r1) ->
              trace st1 <> trace st ->
              exists info, i = Some info /\ err = None /\ IsDir info = false).
    { unfold walk_callback. intros st1 r1.
      destruct err; [intros [= <- <-] H; congruence|].
      destruct i as [info|]; [|intros [= <- <-] H; congruence].
      destruct (IsDir info) eqn:Hd; [intros [= <- <-] H; congruence|].
      intros _ _. eauto. }
    destruct (cb p0 i err st) as [st1 r1] eqn:Hcb. simpl in Heff.
    specialize (Hvis _ _ eq_refl).
    assert (Hstep : forall p k b' res, In (UploadCall p k b' res) (trace st1) ->
              In (UploadCall p k b' res) (trace st) \/
              (map_index m k = false /\ ~ In k (elems (Files (archived st))) /\
               b' = b /\ k = s3KeyOf ld p /\
               res = UploadFile env uploader p k b /\ p = p0 /\
               trace st1 <> trace st)).
    { intros p k b' res Hin.
      assert (Hneq : forall ev, trace st ++ [ev] <> trace st).
      { intros ev E. apply (f_equal (@length _)) in E.
        rewrite length_app in E. simpl in E. lia. }
      inversion Heff; subst; simpl in Hin; auto;
        apply in_app_or in Hin as [Hin|[Hin|[]]]; auto; try discriminate;
        injection Hin as <- <- <- <-; right; simpl; repeat split; auto. }
    assert (Hmono : forall k, In k (elems (Files (archived st))) ->
                              In k (elems (Files (archived st1)))).
    { intros k Hk. inversion Heff; subst; simpl; auto.
      unfold append. simpl. apply in_or_app. auto. }
    destruct r1 as [e1|].
    + intros [= <- <-] p k b' res Hin.
      destruct (Hstep _ _ _ _ Hin) as [H|(H1 & H2 & H3 & H4 & H5 & -> & Hne)];
        [auto|].
      right. destruct (Hvis Hne) as (info & -> & -> & Hd).
      repeat split; auto. exists info. split; [left; reflexivity | exact Hd].
    + intros Hrun p k b' res Hin.
      destruct (IH _ Hrun _ _ _ _ Hin)
        as [H|(H1 & H2 & H3 & H4 & H5 & info & Hi & Hd)].
      * destruct (Hstep _ _ _ _ H) as [H'|(H1 & H2 & H3 & H4 & H5 & -> & Hne)];
          [auto|].
        right. destruct (Hvis Hne) as (info & -> & -> & Hd).
        repeat split; auto. exists info. split; [left; reflexivity | exact Hd].
      * right. repeat split; auto. exists info. split; [right; exact Hi | exact Hd].
Qed.

(** A key list without duplicates stays so. *)
Lemma run_NoDup vs st st' r :
  run_visits cb vs st = (st', r) ->
  List.NoDup (elems (Files (archived st))) ->
  List.NoDup (elems (Files (archived st'))).
Proof.
  revert st. induction vs as [|[[p i] err] vs IH]; intros st; simpl.
  - intros [= <- <-]. auto.
  - pose proof (callback_effect p i err st) as Heff.
    destruct (cb p i err st) as [st1 r1]. simpl in Heff.
    intros Hrun Hnd.
    assert (Hnd1 : List.NoDup (elems (Files (archived st1)))).
    { inversion Heff; subst; simpl; auto.
      unfold append. simpl.
      apply NoDup_ListNoDup, NoDup_app. repeat split.
      - apply NoDup_ListNoDup, Hnd.
      - intros x Hx Hx'. apply list_elem_of_In in Hx.
        apply list_elem_of_In in Hx'. destruct Hx' as [<-|[]]. contradiction.
      - apply NoDup_ListNoDup. repeat constructor. intros []. }
    destruct r1 as [e1|].
    + injection Hrun as <- <-. exact Hnd1.
    + eapply IH; eauto.
Qed.

(** When the walk ends without error, the key of every entry that is no
    directory is in the listing or in the key list. *)
Lemma run_covered vs st st' :
  run_visits cb vs st = (st', None) ->
  forall p info, In (p, Some info, None) vs -> IsDir info = false ->
    map_index m (s3KeyOf ld p) = true \/
    In (s3KeyOf ld p) (elems (Files (archived st'))).
Proof.
  revert st. induction vs as [|[[p0 i] err] vs IH]; intros st; simpl.
  - intros _ p info [].
  - pose proof (callback_effect p0 i err st) as Heff.
    destruct (cb p0 i err st) as [st1 r1] eqn:Hcb. simpl in Heff.
    destruct r1 as [e1|]; [discriminate|].
    intros Hrun p info [Hin|Hin] Hd.
    + injection Hin as -> -> ->.
      destruct (run_files _ _ _ _ Hrun) as (new & _ & Hf & _).
      unfold walk_callback in Hcb. rewrite Hd in Hcb.
      destruct (map_index m (s3KeyOf ld p)) eqn:Hm; [auto|]. right.
      rewrite Hf. apply in_or_app. left.
      destruct (is_archived _ _) eqn:Ha.
      * injection Hcb as <-. simpl. apply is_archived_In, Ha.
      * destruct (UploadFile _ _ _ _ _); [discriminate|].
        injection Hcb as <-. simpl. apply in_or_app. right. left. reflexivity.
    + eapply IH; eauto.
Qed.

(** When every key is in the listing or in the key list, nothing is
    uploaded and the key list is left as it is. *)
Lemma run_all_skipped vs st st' r :
  (forall p info, In (p, Some info, None) vs -> IsDir info = false ->
     map_index m (s3KeyOf ld p) = true \/
     In (s3KeyOf ld p) (elems (Files (archived st)))) ->
  run_visits cb vs st = (st', r) ->
  archived st' = archived st /\
  exists new, trace st' = trace st ++ new /\
              Forall (fun ev => is_upload ev = false /\ is_write ev = false) new.
Proof.
  revert st. induction vs as [|[[p0 i] err] vs IH]; intros st Hall; simpl.
  - intros [= <- <-]. split; [reflexivity|]. exists []. rewrite app_nil_r. auto.
  - pose proof (callback_effect p0 i err st) as Heff.
    destruct (cb p0 i err st) as [st1 r1] eqn:Hcb. simpl in Heff.
    assert (Hstep : archived st1 = archived st /\
              exists new, trace st1 = trace st ++ new /\
                Forall (fun ev => is_upload ev = false /\ is_write ev = false) new).
    { assert (Hk : forall info, i = Some info -> err = None ->
                     IsDir info = false ->
                     map_index m (s3KeyOf ld p0) = true \/
                     In (s3KeyOf ld p0) (elems (Files (archived st)))).
      { intros info -> -> Hd. eapply Hall; [left; reflexivity | exact Hd]. }
      unfold walk_callback in Hcb.
      destruct err; [injection Hcb as <- <-; split; auto; exists [];
                     rewrite app_nil_r; auto|].
      destruct i as [info|]; [|injection Hcb as <- <-; split; auto; exists [];
                                rewrite app_nil_r; auto].
      destruct (IsDir info) eqn:Hd; [injection Hcb as <- <-; split; auto;
                                     exists []; rewrite app_nil_r; auto|].
      destruct (map_index m (s3KeyOf ld p0)) eqn:Hm.
      { injection Hcb as <- <-. split; [reflexivity|]. eexists.
        split; [reflexivity|]. repeat constructor. }
      destruct (Hk _ eq_refl eq_refl Hd) as [?|Hin]; [discriminate|].
      apply is_archived_In in Hin. rewrite Hin in Hcb.
      injection Hcb as <- <-. split; [reflexivity|]. eexists.
      split; [reflexivity|]. repeat constructor. }
    destruct Hstep as (Ha1 & new1 & Ht1 & Hn1).
    destruct r1 as [e1|].
    + intros [= <- <-]. split; [exact Ha1|]. exists new1. auto.
    + intros Hrun. destruct (IH st1) with (2 := Hrun) as (Ha2 & new2 & Ht2 & Hn2).
      { rewrite Ha1. intros p info Hin Hd. eapply Hall; eauto. right; exact Hin. }
      split; [congruence|]. exists (new1 ++ new2).
      rewrite Ht2, Ht1, app_assoc. split; [reflexivity|].
      apply Forall_app; auto.
Qed.

(** A call with an error ends the walk with an error. *)
Lemma run_fault vs st st' r p i e :
  In (p, i, Some e) vs -> run_visits cb vs st = (st', r) -> r <> None.
Proof.
  revert st. induction vs as [|[[p0 i0] err] vs IH]; intros st; simpl.
  - intros [].
  - intros [Hin|Hin].
    + injection Hin as -> -> ->. rewrite callback_error.
      intros [= <- <-]. discriminate.
    + destruct (cb p0 i0 err st) as [st1 [e1|]].
      * intros [= <- <-]. discriminate.
      * apply IH, Hin.
Qed.

(** An upload that failed ended the walk. *)
Lemma run_upload_failed vs st st' r p k b' e :
  run_visits cb vs st = (st', r) ->
  In (UploadCall p k b' (Some e)) (trace st') ->
  In (UploadCall p k b' (Some e)) (trace st) \/ r <> None.
Proof.
  revert st. induction vs as [|[[p0 i] err] vs IH]; intros st; simpl.
  - intros [= <- <-]. auto.
  - pose proof (callback_effect p0 i err st) as Heff.
    destruct (cb p0 i err st) as [st1 r1]. simpl in Heff.
    destruct r1 as [e1|].
    + intros [= <- <-] _. right. discriminate.
    + intros Hrun Hin. destruct (IH _ Hrun Hin) as [H|H]; [|auto].
      left. inversion Heff; subst; simpl in H; auto;
        apply in_app_or in H as [H|[H|[]]]; auto; discriminate.
Qed.
End Callback.

Lemma has_fault_visits (path : string) (n : node) :
  has_fault n = true ->
  exists p i e, In (p, i, Some e) (visits path n).
Proof.
  revert path. induction n as [k|es IH|e|e] using node_ind; intros path; simpl.
  - discriminate.
  - induction es as [|[name child] es IHes]; [discriminate|].
    inversion IH as [|? ? Hc Hes]; subst. simpl in Hc.
    intros H. apply orb_true_iff in H as [H|H].
    + destruct (Hc (Filepath.Join path name) H) as (p & i & e & Hin).
      exists p, i, e.
      right. apply in_or_app. left. exact Hin.
    + destruct (IHes Hes H) as (p & i & e & [Hin|Hin]); [discriminate|].
      exists p, i, e. right. apply in_or_app. right. exact Hin.
  - intros _. eexists _, _, _. left. reflexivity.
  - intros _. eexists _, _, _. left. reflexivity.
Qed.

(** ** The file system *)

Lemma take_length (n : nat) (s : string) :
  String.length (Strings.take n s) <= n.
Proof.
  revert s. induction n as [|n IH]; intros [|c s]; simpl; try lia.
  specialize (IH s). lia.
Qed.

Lemma last_element_start_bound (s : string) (k : nat) (b : bool) (j : nat) :
  j <= k -> last_element_start s k b j <= k + String.length s.
Proof.
  revert k b j. induction s as [|c s IH]; intros k b j Hj; simpl; [lia|].
  destruct (is_separator c).
  - specialize (IH (S k) true j). lia.
  - destruct b.
    + specialize (IH (S k) false k). lia.
    + specialize (IH (S k) false j). lia.
Qed.

(** The directory of a path is a shorter path. *)
Lemma parent_length (path dir : string) :
  parent path = Some dir -> String.length dir < String.length path.
Proof.
  unfold parent.
  pose proof (last_element_start_bound path 0 true 0 (Nat.le_refl 0)) as Hb.
  destruct (Nat.ltb_spec 1 (last_element_start path 0 true 0)) as [Hj|_];
    [|discriminate].
  intros [= <-].
  pose proof (take_length (last_element_start path 0 true 0 - 1) path). lia.
Qed.

Lemma ancestors_from_enough (fuel : nat) (path : string) :
  String.length path <= fuel ->
  ancestors_from fuel path = ancestors path.
Proof.
  unfold ancestors.
  remember (String.length path) as n eqn:Hn.
  revert path Hn fuel.
  induction n as [n IH] using lt_wf_ind. intros path Hn fuel Hf.
  destruct fuel as [|fuel], n as [|n]; simpl; try reflexivity; try lia.
  - destruct path; [reflexivity | discriminate].
  - destruct (parent path) as [dir|] eqn:Hp; [|reflexivity].
    apply parent_length in Hp. f_equal.
    rewrite (IH (String.length dir) ltac:(lia) dir eq_refl fuel) by lia.
    symmetry. apply (IH (String.length dir)); lia.
Qed.

Lemma ancestors_parent (path : string) :
  ancestors path =
  match parent path with
  | Some dir => dir :: ancestors dir
  | None => []
  end.
Proof.
  unfold ancestors at 1.
  destruct (String.length path) as [|n] eqn:Hn.
  - destruct path; [reflexivity | discriminate].
  - simpl. destruct (parent path) as [dir|] eqn:Hp; [|reflexivity].
    apply parent_length in Hp. f_equal.
    apply ancestors_from_enough. lia.
Qed.

Lemma ancestors_shorter (path a : string) :
  In a (ancestors path) -> String.length a < String.length path.
Proof.
  remember (String.length path) as n eqn:Hn. revert path Hn a.
  induction n as [n IH] using lt_wf_ind. intros path Hn a.
  rewrite ancestors_parent.
  destruct (parent path) as [dir|] eqn:Hp; [|intros []].
  apply parent_length in Hp. intros [<-|Hin]; [lia|].
  specialize (IH (String.length dir) ltac:(lia) dir eq_refl a Hin). lia.
Qed.

Lemma not_own_ancestor (path : string) : ~ In path (ancestors path).
Proof. intros H. apply ancestors_shorter in H. lia. Qed.

(** The directories on the way to a directory on the way to [path] are on
    the way to [path]: the way to [path] goes through [a] and then on. *)
Lemma ancestors_split (path a : string) :
  In a (ancestors path) ->
  exists inner,
    ancestors path = inner ++ a :: ancestors a /\
    Forall (fun x => In a (ancestors x)) inner.
Proof.
  remember (String.length path) as n eqn:Hn. revert path Hn a.
  induction n as [n IH] using lt_wf_ind. intros path Hn a.
  rewrite (ancestors_parent path).
  destruct (parent path) as [dir|] eqn:Hp; [|intros []].
  apply parent_length in Hp as Hl. intros [<-|Hin].
  - exists []. split; [reflexivity | constructor].
  - destruct (IH (String.length dir) ltac:(lia) dir eq_refl a Hin)
      as (inner & E & Hall).
    exists (dir :: inner). split; [rewrite E; reflexivity|].
    constructor; [exact Hin | exact Hall].
Qed.

Lemma ancestors_trans (path a b : string) :
  In a (ancestors path) -> In b (ancestors a) -> In b (ancestors path).
Proof.
  intros Ha Hb. destruct (ancestors_split path a Ha) as (inner & -> & _).
  apply in_or_app. right. right. exact Hb.
Qed.

Lemma is_below_In (dir path : string) :
  is_below dir path = true <-> In dir (ancestors path).
Proof.
  unfold is_below. rewrite existsb_exists. split.
  - intros (x & Hin & E). apply String.eqb_eq in E. subst. exact Hin.
  - intros Hin. exists dir. split; [exact Hin | apply String.eqb_refl].
Qed.

Lemma search_ext (m m' : gmap string fentry) (dirs : list string) :
  (forall d, In d dirs -> m !! d = m' !! d) ->
  search m dirs = search m' dirs.
Proof.
  induction dirs as [|d dirs IH]; intros H; [reflexivity|]. simpl.
  rewrite <- (H d) by (left; reflexivity).
  destruct (m !! d) as [[]|]; try reflexivity.
  apply IH. intros d' Hd'. apply H. right. exact Hd'.
Qed.

Lemma search_app (m : gmap string fentry) (l1 l2 : list string) :
  search m (l1 ++ l2) =
  match search m l1 with
  | Some e => Some e
  | None => search m l2
  end.
Proof.
  induction l1 as [|d l1 IH]; [reflexivity|]. simpl.
  destruct (m !! d) as [[]|]; try reflexivity. exact IH.
Qed.

(** What is found at a path depends on the entries at the path and on the
    way to it. *)
Lemma lookup_path_ext (fs fs' : FileSystem) (path : string) :
  entries fs !! path = entries fs' !! path ->
  (forall d, In d (ancestors path) -> entries fs !! d = entries fs' !! d) ->
  lookup_path fs path = lookup_path fs' path.
Proof.
  intros Hp Hd. unfold lookup_path, way.
  rewrite (search_ext (entries fs) (entries fs')), Hp; [reflexivity|].
  intros d Hin. apply Hd. apply in_rev. exact Hin.
Qed.

Lemma lookup_Some (fs : FileSystem) (path : string) (x : fentry) :
  fs !! path = Some x <-> lookup_path fs path = inr x.
Proof.
  unfold lookup, FileSystem_lookup.
  destruct (lookup_path fs path); split; congruence.
Qed.

Lemma lookup_None (fs : FileSystem) (path : string) :
  fs !! path = None <-> exists e, lookup_path fs path = inl e.
Proof.
  unfold lookup, FileSystem_lookup.
  destruct (lookup_path fs path) as [e|x]; split.
  - eauto.
  - reflexivity.
  - discriminate.
  - intros [e [=]].
Qed.

Lemma lookup_path_lookup (fs fs' : FileSystem) (path : string) :
  lookup_path fs path = lookup_path fs' path -> fs !! path = fs' !! path.
Proof. unfold lookup, FileSystem_lookup. intros ->. reflexivity. Qed.

Lemma lookup_path_way (fs : FileSystem) (path : string) (x : fentry) :
  lookup_path fs path = inr x ->
  way fs path = None /\ entries fs !! path = Some x.
Proof.
  unfold lookup_path. destruct (way fs path); [discriminate|].
  destruct (entries fs !! path); [|discriminate]. intros [= ->]. auto.
Qed.

(** Nothing is found below what is not a directory that can be
    searched. *)
Lemma search_blocked (m : gmap string fentry) (dirs : list string)
    (d : string) :
  In d dirs -> m !! d <> Some FDir -> search m dirs <> None.
Proof.
  induction dirs as [|d' dirs IH]; [intros []|]. simpl.
  intros [->|Hin] Hd.
  - destruct (m !! d) as [[]|]; congruence.
  - destruct (m !! d') as [[]|]; try discriminate. apply IH; assumption.
Qed.

Lemma lookup_below (fs : FileSystem) (dir path : string) :
  In dir (ancestors path) -> entries fs !! dir <> Some FDir ->
  fs !! path = None.
Proof.
  intros Hin Hd. apply lookup_None. unfold lookup_path.
  destruct (way fs path) as [e|] eqn:Hw; [eauto|].
  exfalso. revert Hw. apply (search_blocked _ _ dir); [|exact Hd].
  apply in_rev. rewrite rev_involutive. exact Hin.
Qed.

(** *** Writing a file *)

Lemma insert_lookup_path (fs : FileSystem) (path : string) (x : fentry) :
  way fs path = None -> lookup_path (<[path := x]> fs) path = inr x.
Proof.
  intros Hw. unfold lookup_path, way in *. simpl.
  rewrite (search_ext _ (entries fs)), Hw, lookup_insert_eq; [reflexivity|].
  intros d Hd. apply lookup_insert_ne. intros <-.
  apply in_rev in Hd. apply (not_own_ancestor _ Hd).
Qed.

(** A file that is written where no directory is changes what is found
    at its path only. *)
Lemma insert_file_frame (fs : FileSystem) (path q data : string) :
  entries fs !! path <> Some FDir -> q <> path ->
  (<[path := FFile data]> fs) !! q = fs !! q.
Proof.
  intros Hp Hq.
  destruct (in_dec String.string_dec path (ancestors q)) as [Hin|Hn].
  - rewrite (lookup_below fs path q Hin Hp).
    apply (lookup_below _ path q Hin). simpl. rewrite lookup_insert_eq.
    discriminate.
  - apply lookup_path_lookup, lookup_path_ext; simpl.
    + apply lookup_insert_ne. congruence.
    + intros d Hd. apply lookup_insert_ne. intros <-. contradiction.
Qed.

(** *** Making a directory *)

Lemma make_dir_entries (fs : FileSystem) (path k : string) :
  k <> path -> ~ In path (ancestors k) ->
  entries (make_dir path fs) !! k = entries fs !! k.
Proof.
  intros Hk Hn. simpl. rewrite lookup_insert_ne by congruence.
  destruct (entries fs !! k) as [x|] eqn:E.
  - apply map_lookup_filter_Some. split; [exact E|]. simpl.
    destruct (is_below path k) eqn:B; [|reflexivity].
    apply is_below_In in B. contradiction.
  - apply map_lookup_filter_None. left. exact E.
Qed.

Lemma make_dir_below (fs : FileSystem) (path k : string) :
  In path (ancestors k) -> entries (make_dir path fs) !! k = None.
Proof.
  intros Hin. simpl. rewrite lookup_insert_ne.
  - apply map_lookup_filter_None. right. intros x _. simpl.
    apply is_below_In in Hin. rewrite Hin. discriminate.
  - intros <-. apply (not_own_ancestor _ Hin).
Qed.


(** A new directory changes nothing in what is found at the other
    paths: below it, nothing was and nothing is. *)
Lemma make_dir_frame (fs : FileSystem) (path q : string) :
  entries fs !! path = None -> q <> path ->
  lookup_path (make_dir path fs) q = lookup_path fs q.
Proof.
  intros Hp Hq.
  destruct (in_dec String.string_dec path (ancestors q)) as [Hin|Hn].
  - destruct (ancestors_split q path Hin) as (inner & E & Hall).
    assert (Houter : search (entries (make_dir path fs)) (rev (ancestors path))
                     = search (entries fs) (rev (ancestors path))).
    { apply search_ext. intros d Hd. apply in_rev in Hd.
      apply make_dir_entries.
      - intros ->. apply (not_own_ancestor _ Hd).
      - intros Hin'. apply ancestors_shorter in Hd, Hin'. lia. }
    assert (Hd : entries (make_dir path fs) !! path = Some FDir).
    { simpl. apply lookup_insert_eq. }
    unfold lookup_path, way. rewrite E, rev_app_distr. cbn [rev].
    rewrite <- !app_assoc, !search_app, Houter.
    destruct (search (entries fs) (rev (ancestors path))) as [e|];
      [reflexivity|].
    cbn [app search]. rewrite Hp, Hd.
    destruct (rev inner) as [|x rest] eqn:Hr.
    + cbn [search]. rewrite (make_dir_below fs path q Hin). reflexivity.
    + cbn [search]. rewrite (make_dir_below fs path x); [reflexivity|].
      rewrite Forall_forall in Hall. apply Hall.
      apply list_elem_of_In, in_rev. rewrite Hr. left. reflexivity.
  - apply lookup_path_ext.
    + apply make_dir_entries; assumption.
    + intros d Hd. apply make_dir_entries.
      * intros ->. contradiction.
      * intros Hin. apply Hn. eapply ancestors_trans; eauto.
Qed.

(** *** The manifest file and its directory *)

Lemma last_element_start_plain (name : string) (k : nat) (b : bool) (j : nat) :
  Strings.contains Filepath.Separator name = false ->
  last_element_start name k b j =
  match name with
  | EmptyString => j
  | _ => if b then k else j
  end.
Proof.
  revert k b j. induction name as [|c name IH]; intros k b j H; [reflexivity|].
  simpl in H. apply orb_false_iff in H as [Hc Hn].
  cbn [last_element_start]. unfold is_separator. rewrite Hc.
  rewrite (IH _ _ _ Hn). destruct name; reflexivity.
Qed.

Lemma parent_archives (name : string) :
  plain_name name = true -> parent ("archives/" +:+ name) = Some "archives".
Proof.
  intros Hn. unfold plain_name in Hn.
  apply andb_true_iff in Hn as [Hn _]. apply andb_true_iff in Hn as [Hn _].
  apply andb_true_iff in Hn as [H0 H1]. apply negb_true_iff in H0, H1.
  apply String.eqb_neq in H0.
  unfold parent.
  change ("archives/" +:+ name)
    with (String "a" (String "r" (String "c" (String "h" (String "i"
           (String "v" (String "e" (String "s" (String "/" name))))))))).
  cbn [last_element_start is_separator Ascii.eqb Bool.eqb Filepath.Separator].
  rewrite (last_element_start_plain name _ _ _ H1).
  destruct name as [|c name]; [congruence|]. reflexivity.
Qed.

Lemma ancestors_manifest (localDir : string) :
  ancestors (GenerateArchiveFilePath "archives" localDir) = ["archives"].
Proof.
  rewrite GenerateArchiveFilePath_eq.
  change (join_prefix "archives") with "archives/".
  rewrite ancestors_parent, (parent_archives _ (subst_plain localDir)).
  reflexivity.
Qed.

(** *** What [os.MkdirAll] changes *)







(** ** The steps of [main] *)

(** What [EnsureArchiveDirectory] does to [archives]. *)
Lemma Ensure_archives env fs :
  match entries fs !! "archives" with
  | Some _ => EnsureArchiveDirectory env fs "archives" = (fs, [], None)
  | None =>
      match mkdir_err env "archives" with
      | Some e =>
          EnsureArchiveDirectory env fs "archives"
          = (fs, [MkdirCall "archives" (Some (PathError "mkdir" "archives" e))],
             Some (PathError "mkdir" "archives" e))
      | None =>
          EnsureArchiveDirectory env fs "archives"
          = (make_dir "archives" fs, [MkdirCall "archives" None], None)
      end
  end.
Proof.
  unfold EnsureArchiveDirectory, Stat, MkdirAll, lookup_path, way.
  change (ancestors "archives") with (@nil string).
  change (String.length "archives") with 8.
  cbn [rev search MkdirAll_from].
  unfold lookup_path, way.
  change (ancestors "archives") with (@nil string).
  change (parent "archives") with (@None string).
  cbn [rev search].
  destruct (entries fs !! "archives") as [x|] eqn:E; [reflexivity|].
  cbn [IsNotExist]. unfold Mkdir, way.
  change (ancestors "archives") with (@nil string). cbn [rev search].
  rewrite E.
  destruct (mkdir_err env "archives"); [|reflexivity].
  unfold lookup_path, way.
  change (ancestors "archives") with (@nil string). cbn [rev search].
  rewrite E. reflexivity.
Qed.

Lemma archive_path_cases flags env p fs tr err :
  archive_path flags env = (p, fs, tr, err) ->
  (fs = files env /\ tr = [] /\ err = None) \/
  (archiveFile flags = "" /\ entries (files env) !! "archives" = None /\
   tr = [MkdirCall "archives" err] /\
   fs = match err with
        | None => make_dir "archives" (files env)
        | Some _ => files env
        end).
Proof.
  unfold archive_path.
  destruct (String.eqb_spec (archiveFile flags) "") as [Ha|Ha]; cbn [negb].
  - pose proof (Ensure_archives env (files env)) as H.
    destruct (entries (files env) !! "archives") as [x|] eqn:Hl.
    + rewrite H. intros [= <- <- <- <-]. auto.
    + destruct (mkdir_err env "archives"); rewrite H;
        intros [= <- <- <- <-]; right; auto.
  - intros [= <- <- <- <-]. auto.
Qed.

Lemma archive_path_spec flags env p fs tr err :
  archive_path flags env = (p, fs, tr, err) ->
  p = manifest_path flags /\
  lookup_path fs p = lookup_path (files env) p /\ Forall quiet tr.
Proof.
  intros Hap. pose proof (archive_path_cases _ _ _ _ _ _ Hap) as Hc.
  assert (Hp : p = manifest_path flags).
  { revert Hap. unfold archive_path, manifest_path.
    destruct (negb (String.eqb (archiveFile flags) ""));
      [intros [= <- _ _ _]; reflexivity|].
    destruct (EnsureArchiveDirectory _ _ _) as [[fs0 tr0] err0].
    intros [= <- _ _ _]. reflexivity. }
  split; [exact Hp|].
  destruct Hc as [(-> & -> & _)|(Ha & Hno & -> & ->)].
  - split; [reflexivity | constructor].
  - split; [|repeat constructor].
    destruct err; [reflexivity|].
    apply make_dir_frame; [exact Hno|].
    subst p. unfold manifest_path. rewrite Ha. cbn [String.eqb negb].
    apply manifest_path_not_archives.
Qed.

Lemma LoadArchivedFiles_lookup fs fs' p :
  lookup_path fs p = lookup_path fs' p ->
  LoadArchivedFiles fs p = LoadArchivedFiles fs' p.
Proof. unfold LoadArchivedFiles, ReadFile. intros ->. reflexivity. Qed.

(** What [SaveArchivedFiles] leaves: the file with its new bytes, the
    file system as it was when the file could not be opened, or the file
    with the bytes that were written before the write failed. *)
Lemma SaveArchivedFiles_spec env fs p a fs' tr err :
  SaveArchivedFiles env fs p a = (fs', tr, err) ->
  tr = [WriteCall p (Json.MarshalIndent (Files a)) err] /\
  match err with
  | None =>
      fs' = <[p := FFile (Json.MarshalIndent (Files a))]> fs /\
      way fs p = None /\ write_err env p = None
  | Some _ =>
      fs' = fs \/
      exists written e,
        write_err env p = Some (WriteFails written e) /\
        way fs p = None /\
        fs' = <[p := FFile (Strings.take written
                              (Json.MarshalIndent (Files a)))]> fs
  end.
Proof.
  unfold SaveArchivedFiles, WriteFile.
  destruct (way fs p); [intros [= <- <- <-]; auto|].
  destruct (entries fs !! p) as [[d| | |]|] eqn:E;
    destruct (write_err env p) as [[e|written e]|] eqn:Ew;
    intros [= <- <- <-]; split; auto; right; eauto.
Qed.

(** A call of [SaveArchivedFiles] changes what is found at the path of
    the manifest only. *)
Lemma SaveArchivedFiles_frame env fs p a fs' tr err q :
  SaveArchivedFiles env fs p a = (fs', tr, err) ->
  q <> p -> fs' !! q = fs !! q.
Proof.
  unfold SaveArchivedFiles, WriteFile. intros H Hq. revert H.
  destruct (way fs p); [intros [= <- _ _]; reflexivity|].
  destruct (entries fs !! p) as [[d| | |]|] eqn:E;
    destruct (write_err env p) as [[e|written e]|] eqn:Ew;
    intros [= <- _ _]; try reflexivity;
    apply insert_file_frame; try exact Hq; rewrite E; discriminate.
Qed.


Lemma SaveArchivedFiles_lookup env fs p a fs' tr :
  SaveArchivedFiles env fs p a = (fs', tr, None) ->
  lookup_path fs' p = inr (FFile (Json.MarshalIndent (Files a))).
Proof.
  intros H. apply SaveArchivedFiles_spec in H as (_ & -> & Hw & _).
  apply insert_lookup_path, Hw.
Qed.

Lemma main_run flags env : run_of flags env (main flags env).
Proof.
  unfold main.
  destruct (_ || _); [apply Run_stopped; auto|].
  destruct (archive_path flags env) as [[[p fs] tr] err] eqn:Hap.
  apply archive_path_spec in Hap as (-> & Hfs & Htr).
  destruct err; [apply Run_stopped; auto|].
  destruct (config_err env _ _); [apply Run_stopped; auto|].
  destruct (LoadArchivedFiles fs _) as [loaded lerr] eqn:Hload.
  rewrite (LoadArchivedFiles_lookup _ _ _ Hfs) in Hload.
  destruct lerr; [apply Run_stopped; auto|].
  destruct (ListS3Files _ _) as [s3Files e] eqn:Hlist.
  destruct e; [apply Run_stopped; auto|].
  rewrite Walk_callback.
  destruct (run_visits _ _ _) as [st werr] eqn:Hwalk.
  eapply Run_walked; eauto.
  destruct werr; [reflexivity|].
  destruct (SaveArchivedFiles _ _ _ _) as [[fs' tr'] serr] eqn:Hsave.
  pose proof (SaveArchivedFiles_spec _ _ _ _ _ _ _ Hsave) as [-> _].
  exists fs', serr. split; [reflexivity|]. destruct serr; reflexivity.
Qed.

(** ** UTF-8 *)

Lemma between_high (lo hi : N) (c : ascii) :
  Utf8.between lo hi c = true -> (128 <= lo)%N -> Utf8.is_ascii c = false.
Proof.
  unfold Utf8.between, Utf8.is_ascii. intros H Hlo.
  apply andb_true_iff in H as [H _]. apply N.leb_le in H.
  apply N.ltb_ge. lia.
Qed.

Lemma cont_high (c : ascii) : Utf8.cont c = true -> Utf8.is_ascii c = false.
Proof. intros H. eapply between_high; [exact H | lia]. Qed.

Lemma lead3_high (b1 b2 : ascii) :
  Utf8.lead3 b1 b2 = true -> Utf8.is_ascii b2 = false.
Proof.
  unfold Utf8.lead3. intros H.
  repeat (apply orb_true_iff in H as [H|H]);
    apply andb_true_iff in H as [_ H];
    (apply cont_high, H) || (eapply between_high; [exact H | lia]).
Qed.

Lemma lead4_high (b1 b2 : ascii) :
  Utf8.lead4 b1 b2 = true -> Utf8.is_ascii b2 = false.
Proof.
  unfold Utf8.lead4. intros H.
  repeat (apply orb_true_iff in H as [H|H]);
    apply andb_true_iff in H as [_ H];
    (apply cont_high, H) || (eapply between_high; [exact H | lia]).
Qed.

Lemma take_app_length (bytes rest : string) :
  Strings.take (String.length bytes) (bytes +:+ rest) = bytes.
Proof.
  induction bytes as [|c bytes IH]; [reflexivity|].
  rewrite app_cons. simpl. rewrite IH. reflexivity.
Qed.

Lemma chunks_from_skip (bytes rest : string) :
  Utf8.chunks_from (String.length bytes) (bytes +:+ rest)
  = Utf8.chunks_from 0 rest.
Proof.
  induction bytes as [|c bytes IH].
  - rewrite app_empty_l. destruct rest; reflexivity.
  - rewrite app_cons. simpl. exact IH.
Qed.

(** The sequence at the start of a string: its width, and the bytes it is
    made of. *)
Lemma rune_len_take (s : string) (k : nat) :
  Utf8.rune_len s = S k -> chunk_ok (Utf8.Rune (Strings.take (S k) s)).
Proof.
  unfold chunk_ok, Utf8.rune_len.
  destruct s as [|b1 [|b2 [|b3 [|b4 r]]]]; try discriminate;
    destruct (Utf8.is_ascii b1) eqn:H1;
    try (intros [= <-]; simpl; rewrite H1; split; [reflexivity|];
         left; eexists; split; reflexivity || exact H1);
    try discriminate.
  - destruct (Utf8.between 194 223 b1) eqn:H12; [|discriminate].
    destruct (Utf8.cont b2) eqn:H2; [|discriminate].
    intros [= <-]. simpl. rewrite H1, H12, H2. split; [reflexivity|].
    right. rewrite (cont_high _ H2). simpl. split; [lia | reflexivity].
  - destruct (Utf8.between 194 223 b1) eqn:H12.
    + destruct (Utf8.cont b2) eqn:H2; [|discriminate].
      intros [= <-]. simpl. rewrite H1, H12, H2. split; [reflexivity|].
      right. rewrite (cont_high _ H2). simpl. split; [lia | reflexivity].
    + destruct (Utf8.lead3 b1 b2) eqn:H3; [|discriminate].
      destruct (Utf8.cont b3) eqn:Hc3; [|discriminate].
      intros [= <-]. simpl. rewrite H1, H12, H3, Hc3. split; [reflexivity|].
      right. rewrite (lead3_high _ _ H3), (cont_high _ Hc3). simpl.
      split; [lia | reflexivity].
  - destruct (Utf8.between 194 223 b1) eqn:H12.
    + destruct (Utf8.cont b2) eqn:H2; [|discriminate].
      intros [= <-]. simpl. rewrite H1, H12, H2. split; [reflexivity|].
      right. rewrite (cont_high _ H2). simpl. split; [lia | reflexivity].
    + destruct (Utf8.lead3 b1 b2) eqn:H3.
      * destruct (Utf8.cont b3) eqn:Hc3; [|discriminate].
        intros [= <-]. simpl. rewrite H1, H12, H3, Hc3. split; [reflexivity|].
        right. rewrite (lead3_high _ _ H3), (cont_high _ Hc3). simpl.
        split; [lia | reflexivity].
      * destruct (Utf8.lead4 b1 b2) eqn:H4; [|discriminate].
        destruct (Utf8.cont b3) eqn:Hc3; [|discriminate].
        destruct (Utf8.cont b4) eqn:Hc4; [|discriminate].
        intros [= <-]. simpl. rewrite H1, H12, H3, H4, Hc3, Hc4.
        split; [reflexivity|].
        right. rewrite (lead4_high _ _ H4), (cont_high _ Hc3),
                 (cont_high _ Hc4). simpl.
        split; [lia | reflexivity].
Qed.

Lemma chunks_from_ok (skip : nat) (s : string) :
  Forall chunk_ok (Utf8.chunks_from skip s).
Proof.
  revert skip. induction s as [|c s IH]; intros skip;
    cbn [Utf8.chunks_from]; [constructor|].
  destruct skip as [|k]; [|apply IH].
  destruct (Utf8.rune_len (String c s)) as [|k] eqn:Hlen.
  - constructor; [exact I | apply IH].
  - constructor; [apply rune_len_take, Hlen | apply IH].
Qed.

(** Decoding looks at the bytes of the sequence only. *)
Lemma rune_len_app (bytes rest : string) :
  bytes <> "" -> Utf8.rune_len bytes = String.length bytes ->
  Utf8.rune_len (bytes +:+ rest) = String.length bytes.
Proof.
  intros Hne. unfold Utf8.rune_len.
  destruct bytes as [|b1 [|b2 [|b3 [|b4 [|b5 r]]]]]; [congruence|..];
    rewrite ?app_cons, ?app_empty_l; simpl;
    destruct (Utf8.is_ascii b1); try discriminate; try reflexivity;
    try (destruct rest; discriminate).
  all: intros H;
    repeat match type of H with
           | context [if ?b then _ else _] => destruct b
           end;
    try discriminate H; reflexivity.
Qed.

Lemma chunks_rune_app (bytes rest : string) :
  bytes <> "" -> Utf8.rune_len bytes = String.length bytes ->
  Utf8.chunks (bytes +:+ rest) = Utf8.Rune bytes :: Utf8.chunks rest.
Proof.
  intros Hne Hlen. unfold Utf8.chunks.
  pose proof (rune_len_app bytes rest Hne Hlen) as Happ.
  destruct bytes as [|c bytes]; [congruence|].
  rewrite app_cons in *. cbn [Utf8.chunks_from]. rewrite Happ.
  cbn [String.length]. rewrite <- app_cons.
  change (S (String.length bytes)) with (String.length (String c bytes)).
  rewrite take_app_length, chunks_from_skip. reflexivity.
Qed.

Lemma chunk_ok_valid (ch : Utf8.chunk) :
  chunk_ok ch ->
  Utf8.chunk_valid ch <> "" /\
  Utf8.rune_len (Utf8.chunk_valid ch) = String.length (Utf8.chunk_valid ch).
Proof.
  destruct ch as [bytes|b]; simpl.
  - intros [Hlen [(c & -> & _)|[H2 _]]]; split; auto; try discriminate.
    intros ->. simpl in H2. lia.
  - intros _. split; [discriminate | reflexivity].
Qed.

Lemma rechunk (cs : list Utf8.chunk) :
  Forall chunk_ok cs ->
  Utf8.chunks (Utf8.concat (map Utf8.chunk_valid cs))
  = map (fun ch => Utf8.Rune (Utf8.chunk_valid ch)) cs.
Proof.
  induction 1 as [|ch cs Hch _ IH]; [reflexivity|].
  simpl. destruct (chunk_ok_valid _ Hch) as [Hne Hlen].
  rewrite chunks_rune_app by assumption. rewrite IH. reflexivity.
Qed.

(** Valid UTF-8 is left as it is. *)
Lemma sanitize_idempotent (s : string) :
  Utf8.sanitize (Utf8.sanitize s) = Utf8.sanitize s.
Proof.
  unfold Utf8.sanitize.
  rewrite rechunk by apply chunks_from_ok.
  rewrite List.map_map. reflexivity.
Qed.

(** ** Reading back what [MarshalIndent] writes *)

Lemma run_prefix (sc sc' : Json.scanner) (pre rest : string) :
  Json.run sc pre = Some sc' ->
  Json.run sc (pre +:+ rest) = Json.run sc' rest.
Proof.
  revert sc. induction pre as [|c pre IH]; intros sc.
  - intros [= ->]. reflexivity.
  - rewrite app_cons. simpl. destruct (Json.feed sc c); [apply IH | discriminate].
Qed.

Lemma feed_high_byte (k : bool) (acc : string) (fs : list Json.frame) (d : N)
    (b : ascii) :
  Utf8.is_ascii b = false ->
  Json.feed (Json.Scanner (Json.InString k acc None) fs d) b
  = Some (Json.Scanner (Json.InString k (acc +:+ String b "") None) fs d).
Proof.
  destruct b as [[] [] [] [] [] [] [] []]; intros H;
    try discriminate H; reflexivity.
Qed.

Lemma run_high_bytes (k : bool) (acc : string) (fs : list Json.frame) (d : N)
    (bytes rest : string) :
  all_high bytes = true ->
  Json.run (Json.Scanner (Json.InString k acc None) fs d) (bytes +:+ rest)
  = Json.run (Json.Scanner (Json.InString k (acc +:+ bytes) None) fs d) rest.
Proof.
  revert acc. induction bytes as [|b bytes IH]; intros acc H.
  - rewrite app_empty_l, app_empty_r. reflexivity.
  - simpl in H. apply andb_true_iff in H as [Hb H].
    apply negb_true_iff in Hb.
    rewrite app_cons. cbn [Json.run]. rewrite (feed_high_byte _ _ _ _ _ Hb).
    rewrite (IH _ H), app_assoc_s. reflexivity.
Qed.

Lemma run_ascii (k : bool) (acc : string) (fs : list Json.frame) (d : N)
    (c : ascii) (rest : string) :
  Utf8.is_ascii c = true ->
  Json.run (Json.Scanner (Json.InString k acc None) fs d)
    (Json.escape_byte c +:+ rest)
  = Json.run (Json.Scanner (Json.InString k (acc +:+ String c "") None) fs d)
      rest.
Proof.
  destruct c as [[] [] [] [] [] [] [] []]; intros H;
    try discriminate H; reflexivity.
Qed.

Lemma run_chunk (k : bool) (acc : string) (fs : list Json.frame) (d : N)
    (ch : Utf8.chunk) (rest : string) :
  chunk_ok ch ->
  Json.run (Json.Scanner (Json.InString k acc None) fs d)
    (Json.escape_chunk ch +:+ rest)
  = Json.run
      (Json.Scanner (Json.InString k (acc +:+ Utf8.chunk_valid ch) None) fs d)
      rest.
Proof.
  destruct ch as [bytes|b]; simpl.
  - intros [_ [(c & -> & Hc)|[Hlen Hhigh]]].
    + apply run_ascii, Hc.
    + destruct bytes as [|b1 [|b2 r]]; simpl in Hlen; try lia.
      destruct (String.eqb_spec (String b1 (String b2 r)) Json.line_separator)
        as [->|_]; [reflexivity|].
      destruct (String.eqb_spec (String b1 (String b2 r))
                  Json.paragraph_separator) as [->|_]; [reflexivity|].
      apply run_high_bytes, Hhigh.
  - intros _. reflexivity.
Qed.

Lemma concat_cons (x : string) (l : list string) :
  Utf8.concat (x :: l) = x +:+ Utf8.concat l.
Proof. reflexivity. Qed.

Lemma run_body (k : bool) (fs : list Json.frame) (d : N)
    (cs : list Utf8.chunk) (acc rest : string) :
  Forall chunk_ok cs ->
  Json.run (Json.Scanner (Json.InString k acc None) fs d)
    (Utf8.concat (map Json.escape_chunk cs) +:+ rest)
  = Json.run
      (Json.Scanner
         (Json.InString k (acc +:+ Utf8.concat (map Utf8.chunk_valid cs)) None)
         fs d)
      rest.
Proof.
  intros H. revert acc. induction H as [|ch cs Hch _ IH]; intros acc.
  - simpl. rewrite app_empty_l, app_empty_r. reflexivity.
  - cbn [map]. rewrite !concat_cons, app_assoc_s.
    rewrite (run_chunk _ _ _ _ _ _ Hch), IH, app_assoc_s. reflexivity.
Qed.

(** A quoted string is read back as the string, made valid UTF-8. *)
Lemma run_quote (st : Json.step) (fs : list Json.frame) (d : N)
    (s rest : string) :
  st = Json.BeginValue \/ st = Json.BeginValueOrEmpty ->
  Json.run (Json.Scanner st fs d) (Json.quote s +:+ rest)
  = Json.run (Json.complete (Json.Str (Utf8.sanitize s)) fs d) rest.
Proof.
  intros Hst. unfold Json.quote. rewrite app_cons. cbn [Json.run].
  assert (Hopen : Json.feed (Json.Scanner st fs d) Json.quote_char
                  = Some (Json.Scanner (Json.InString false "" None) fs d)).
  { destruct Hst as [->| ->]; reflexivity. }
  rewrite Hopen, app_assoc_s.
  rewrite run_body by apply chunks_from_ok.
  rewrite app_cons, app_empty_l. cbn [Json.run].
  change (Json.feed (Json.Scanner (Json.InString false ?a None) fs d)
            Json.quote_char)
    with (Some (Json.complete (Json.Str (Utf8.sanitize a)) fs d)).
  rewrite app_empty_l.
  change (Utf8.concat (map Utf8.chunk_valid (Utf8.chunks s)))
    with (Utf8.sanitize s).
  rewrite sanitize_idempotent. reflexivity.
Qed.
(** ** Reading back a whole manifest *)

(** The elements of the array, one to a line. *)
Lemma run_elements (fs : list Json.frame) (d : N) (xs : list string)
    (x : string) (st : Json.step) (seen : list Json.value) (rest : string) :
  st = Json.BeginValue \/ st = Json.BeginValueOrEmpty ->
  Json.run (Json.Scanner st (Json.InArray seen :: fs) d)
    (Strings.Join (map Json.quote (x :: xs)) element_separator +:+ rest)
  = Json.run
      (Json.Scanner Json.EndValue
         (Json.InArray (rev (read_strings (x :: xs)) ++ seen) :: fs) d)
      rest.
Proof.
  revert x st seen. induction xs as [|y xs IH]; intros x st seen Hst.
  - cbn [map Strings.Join]. rewrite (run_quote _ _ _ _ _ Hst). reflexivity.
  - change (Strings.Join (map Json.quote (x :: y :: xs)) element_separator)
      with (Json.quote x +:+ element_separator +:+
            Strings.Join (map Json.quote (y :: xs)) element_separator).
    rewrite !app_assoc_s, (run_quote _ _ _ _ _ Hst).
    cbn [Json.complete].
    rewrite (run_prefix _
               (Json.Scanner Json.BeginValue
                  (Json.InArray (Json.Str (Utf8.sanitize x) :: seen) :: fs) d))
      by reflexivity.
    rewrite IH by (left; reflexivity).
    change (read_strings (x :: y :: xs))
      with (Json.Str (Utf8.sanitize x) :: read_strings (y :: xs)).
    cbn [rev]. rewrite <- app_assoc. reflexivity.
Qed.

Lemma parse_MarshalIndent (files : option (list string)) :
  Json.parse (Json.MarshalIndent files) = Some (written files).
Proof.
  unfold Json.parse, Json.MarshalIndent.
  destruct files as [[|x xs]|]; [reflexivity| |reflexivity].
  set (fs := [Json.InObject [] "files"]).
  assert (Hrun :
    Json.run (Json.Scanner Json.BeginValue [] 0)
      ("{" +:+ Json.newline +:+ "  " +:+ Json.quote "files" +:+ ": " +:+
       ("[" +:+ Json.newline +:+ "    " +:+
        Strings.Join (map Json.quote (x :: xs))
          ("," +:+ Json.newline +:+ "    ") +:+
        Json.newline +:+ "  ]") +:+ Json.newline +:+ "}")
    = Some (Json.Scanner (Json.EndTop (written (Some (x :: xs)))) [] 0)).
  { rewrite <- !app_assoc_s.
    rewrite !app_assoc_s.
    rewrite <- (app_assoc_s "{"), <- (app_assoc_s ("{" +:+ Json.newline)),
      <- (app_assoc_s (("{" +:+ Json.newline) +:+ "  ")),
      <- (app_assoc_s ((("{" +:+ Json.newline) +:+ "  ") +:+ Json.quote "files")),
      <- (app_assoc_s (((("{" +:+ Json.newline) +:+ "  ") +:+ Json.quote "files")
                         +:+ ": ")),
      <- (app_assoc_s ((((("{" +:+ Json.newline) +:+ "  ") +:+ Json.quote "files")
                         +:+ ": ") +:+ "[")),
      <- (app_assoc_s (((((("{" +:+ Json.newline) +:+ "  ") +:+ Json.quote "files")
                         +:+ ": ") +:+ "[") +:+ Json.newline)).
    rewrite (run_prefix _
               (Json.Scanner Json.BeginValueOrEmpty (Json.InArray [] :: fs) 2))
      by reflexivity.
    fold element_separator.
    rewrite run_elements by (right; reflexivity).
    rewrite app_nil_r.
    rewrite <- (app_empty_r (Json.newline +:+ "  ]" +:+ Json.newline +:+ "}")).
    rewrite (run_prefix _
               (Json.Scanner (Json.EndTop (written (Some (x :: xs)))) [] 0)).
    - reflexivity.
    - unfold written. rewrite <- (rev_involutive (read_strings (x :: xs))) at 2.
      generalize (rev (read_strings (x :: xs))). intros seen. reflexivity. }
  rewrite Hrun. reflexivity.
Qed.

Lemma decode_elems_strings (old xs : list string) :
  Json.decode_elems old (map Json.Str xs) = (xs, None).
Proof.
  revert old. induction xs as [|x xs IH]; intros old; [reflexivity|].
  cbn [map Json.decode_elems Json.decode_elem]. rewrite IH. reflexivity.
Qed.

(** Writing a key list and reading it back gives the key list, its strings
    made valid UTF-8; a nil list stays nil. *)
Lemma Unmarshal_MarshalIndent (files : option (list string)) :
  Json.Unmarshal (Json.MarshalIndent files) None
  = (option_map (map Utf8.sanitize) files, None).
Proof.
  unfold Json.Unmarshal. rewrite parse_MarshalIndent.
  destruct files as [xs|]; [|reflexivity].
  unfold written, read_strings. rewrite <- (List.map_map Utf8.sanitize Json.Str).
  cbn [Json.decode Json.decode_members].
  change (Json.is_files_key "files") with true. cbn iota.
  destruct xs as [|x xs]; [reflexivity|].
  cbn [map Json.decode_files].
  change (Json.Str (Utf8.sanitize x) :: map Json.Str (map Utf8.sanitize xs))
    with (map Json.Str (Utf8.sanitize x :: map Utf8.sanitize xs)).
  rewrite decode_elems_strings. reflexivity.
Qed.

(** ** The strings of a manifest that was read are valid UTF-8 *)

Lemma clean_array (seen : list Json.value) :
  Forall clean seen -> clean (Json.Array (rev seen)).
Proof.
  intros H. unfold clean. simpl. rewrite Forall_flat_map.
  apply Forall_rev. exact H.
Qed.

Lemma clean_object (seen : list (string * Json.value)) :
  Forall (fun kv => clean (snd kv)) seen -> clean (Json.Object (rev seen)).
Proof.
  intros H. unfold clean. simpl. rewrite Forall_flat_map.
  apply Forall_rev. exact H.
Qed.

Lemma complete_clean (v : Json.value) (fs : list Json.frame) (d : N) :
  clean v -> Forall frame_clean fs -> scanner_clean (Json.complete v fs d).
Proof.
  intros Hv Hfs. unfold Json.complete.
  destruct fs as [|[seen|seen key] fs]; simpl.
  - split; [constructor | exact Hv].
  - inversion Hfs; subst. split; [|exact I].
    constructor; [|assumption]. simpl. constructor; assumption.
  - inversion Hfs; subst. split; [|exact I].
    constructor; [|assumption]. simpl. constructor; assumption.
Qed.

Lemma end_value_clean (sc sc' : Json.scanner) (c : ascii) :
  scanner_clean sc -> Json.end_value sc c = Some sc' -> scanner_clean sc'.
Proof.
  intros Hsc. pose proof Hsc as [Hfs Hst]. unfold Json.end_value.
  destruct (Json.isSpace c); [intros [= <-]; exact Hsc|].
  destruct (Json.parseState sc) as [|[seen|seen key] fs] eqn:Hps; [discriminate|..].
  - inversion Hfs; subst.
    destruct (Ascii.eqb c ",").
    { intros [= <-]. split; [constructor; assumption | exact I]. }
    destruct (Ascii.eqb c "]"); [|discriminate].
    intros [= <-]. apply complete_clean; [apply clean_array|]; assumption.
  - inversion Hfs; subst.
    destruct (Ascii.eqb c ",").
    { intros [= <-]. split; [constructor; assumption | exact I]. }
    destruct (Ascii.eqb c "}"); [|discriminate].
    intros [= <-]. apply complete_clean; [apply clean_object|]; assumption.
Qed.

Lemma after_value_clean (sc sc' : Json.scanner) (c : ascii) :
  scanner_clean sc -> Json.after_value sc c = Some sc' -> scanner_clean sc'.
Proof.
  intros Hsc. unfold Json.after_value.
  destruct (Json.st sc) eqn:E; try (apply end_value_clean; exact Hsc).
  unfold Json.end_top. destruct (Json.isSpace c); [|discriminate].
  intros [= <-]. exact Hsc.
Qed.

Lemma goto_clean (s : Json.step) (fs : list Json.frame) (d : N) :
  Forall frame_clean fs -> step_clean s -> scanner_clean (Json.Scanner s fs d).
Proof. intros Hfs Hs. split; assumption. Qed.

Lemma clean_plain (v : Json.value) : strings_of v = [] -> clean v.
Proof. unfold clean. intros ->. constructor. Qed.

Lemma begin_value_clean (sc sc' : Json.scanner) (c : ascii) :
  scanner_clean sc -> Json.begin_value sc c = Some sc' -> scanner_clean sc'.
Proof.
  intros Hsc. pose proof Hsc as [Hfs Hst]. unfold Json.begin_value, Json.push.
  repeat match goal with
         | |- context [if ?b then _ else _] => destruct b
         end;
    try discriminate; intros [= <-]; try exact Hsc;
    try (apply goto_clean; [assumption | first [exact I | apply clean_plain; reflexivity]]).
  - split; [|exact I]. constructor; [constructor | exact Hfs].
  - split; [|exact I]. constructor; [constructor | exact Hfs].
Qed.

Lemma valid_sanitize (s : string) : valid_utf8 (Utf8.sanitize s).
Proof. apply sanitize_idempotent. Qed.

Ltac step_cases Hfs :=
  repeat match goal with
         | |- context [if ?b then _ else _] => destruct b
         end;
  try discriminate;
  try (intros [= <-]; apply goto_clean; [exact Hfs | exact I]).

Lemma feed_clean (sc sc' : Json.scanner) (c : ascii) :
  scanner_clean sc -> Json.feed sc c = Some sc' -> scanner_clean sc'.
Proof.
  intros Hsc. pose proof Hsc as [Hfs Hst]. unfold Json.feed.
  destruct (Json.st sc) eqn:E.
  - apply begin_value_clean, Hsc.
  - destruct (Json.isSpace c); [intros [= <-]; exact Hsc|].
    destruct (Ascii.eqb c "]");
      [apply end_value_clean | apply begin_value_clean]; exact Hsc.
  - destruct (Json.isSpace c); [intros [= <-]; exact Hsc|].
    destruct (Ascii.eqb c "}"); [apply end_value_clean, Hsc|].
    step_cases Hfs.
  - destruct (Json.isSpace c); [intros [= <-]; exact Hsc|].
    step_cases Hfs.
  - destruct (Ascii.eqb c Json.quote_char).
    { unfold Json.end_string. destruct is_key.
      - destruct (Json.parseState sc) as [|[seen|seen key] fs] eqn:Hps;
          try discriminate.
        intros [= <-]. inversion Hfs; subst.
        split; [constructor; assumption | exact I].
      - intros [= <-]. apply complete_clean; [|exact Hfs].
        unfold clean. simpl. constructor; [apply valid_sanitize | constructor]. }
    step_cases Hfs.
  - destruct (Ascii.eqb c "u");
      [intros [= <-]; apply goto_clean; [exact Hfs | exact I]|].
    destruct (Json.escaped c); [|discriminate].
    intros [= <-]; apply goto_clean; [exact Hfs | exact I].
  - destruct (Json.hex_value c); [|discriminate].
    destruct (Nat.eqb digits 3).
    + destruct (Json.emit_code _ _ _).
      intros [= <-]; apply goto_clean; [exact Hfs | exact I].
    + intros [= <-]; apply goto_clean; [exact Hfs | exact I].
  - destruct (Json.isSpace c); [intros [= <-]; exact Hsc|].
    step_cases Hfs.
  - apply end_value_clean, Hsc.
  - unfold Json.end_top. destruct (Json.isSpace c); [|discriminate].
    intros [= <-]. exact Hsc.
  - step_cases Hfs.
  - step_cases Hfs.
    unfold Json.finish_number. apply after_value_clean, complete_clean;
      [constructor | exact Hfs].
  - step_cases Hfs.
    unfold Json.finish_number. apply after_value_clean, complete_clean;
      [constructor | exact Hfs].
  - step_cases Hfs.
  - step_cases Hfs.
    unfold Json.finish_number. apply after_value_clean, complete_clean;
      [constructor | exact Hfs].
  - step_cases Hfs.
  - step_cases Hfs.
  - step_cases Hfs.
    unfold Json.finish_number. apply after_value_clean, complete_clean;
      [constructor | exact Hfs].
  - destruct rest as [|r rest']; [discriminate|].
    destruct (Ascii.eqb c r); [|discriminate].
    destruct rest'.
    + intros [= <-]. apply complete_clean; [exact Hst | exact Hfs].
    + intros [= <-]; apply goto_clean; [exact Hfs | exact Hst].
Qed.

Lemma run_clean (data : string) (sc sc' : Json.scanner) :
  scanner_clean sc -> Json.run sc data = Some sc' -> scanner_clean sc'.
Proof.
  revert sc. induction data as [|c data IH]; intros sc Hsc; simpl.
  - intros [= <-]. exact Hsc.
  - destruct (Json.feed sc c) as [sc1|] eqn:Hf; [|discriminate].
    apply IH. eapply feed_clean; eauto.
Qed.

Lemma parse_clean (data : string) (v : Json.value) :
  Json.parse data = Some v -> clean v.
Proof.
  unfold Json.parse.
  destruct (Json.run _ data) as [sc|] eqn:Hrun; [|discriminate].
  destruct (Json.feed sc " ") as [sc'|] eqn:Hf; [|discriminate].
  assert (Hc : scanner_clean sc').
  { eapply feed_clean; [|exact Hf]. eapply run_clean; [|exact Hrun].
    split; constructor. }
  destruct Hc as [_ Hst]. destruct (Json.st sc'); try discriminate.
  intros [= <-]. exact Hst.
Qed.

Lemma decode_elems_valid (old : list string) (vs : list Json.value) :
  Forall valid_utf8 old -> Forall clean vs ->
  Forall valid_utf8 (fst (Json.decode_elems old vs)).
Proof.
  intros Hold Hvs. revert old Hold.
  induction Hvs as [|v vs Hv _ IH]; intros old Hold; [constructor|].
  cbn [Json.decode_elems].
  assert (Hhd : valid_utf8 (hd "" old)).
  { destruct Hold; [reflexivity | assumption]. }
  assert (Htl : Forall valid_utf8 (tl old)).
  { destruct Hold; [constructor | assumption]. }
  specialize (IH _ Htl).
  destruct (Json.decode_elems (tl old) vs) as [xs e'].
  destruct v; simpl; constructor; auto.
  unfold clean in Hv. simpl in Hv. inversion Hv; assumption.
Qed.

Lemma decode_files_valid (old : Json.slice) (v : Json.value) :
  slice_valid old -> clean v ->
  slice_valid (fst (Json.decode_files old v)).
Proof.
  intros [Hold Hb] Hv.
  destruct v as [|b|lit|s|vs|ms]; try (split; assumption);
    try (split; constructor).
  destruct vs as [|v vs]; [split; constructor|].
  cbn [Json.decode_files].
  assert (Hall : Forall valid_utf8
                   (default [] (Json.elements old) ++ Json.beyond old)).
  { apply Forall_app. split; assumption. }
  pose proof (decode_elems_valid _ (v :: vs) Hall) as H.
  destruct (Json.decode_elems _ _) as [xs e].
  split; cbn [fst Json.elements Json.beyond elems default].
  - apply H. unfold clean in Hv. cbn [strings_of] in Hv.
    rewrite Forall_flat_map in Hv. exact Hv.
  - apply Forall_drop. exact Hall.
Qed.

Lemma decode_members_valid (old : Json.slice)
    (ms : list (string * Json.value)) :
  slice_valid old -> Forall (fun kv => clean (snd kv)) ms ->
  slice_valid (fst (Json.decode_members old ms)).
Proof.
  intros Hold Hms. revert old Hold.
  induction Hms as [|[key v] ms Hv _ IH]; intros old Hold; [exact Hold|].
  cbn [Json.decode_members]. destruct (Json.is_files_key key); [|apply IH, Hold].
  pose proof (decode_files_valid old v Hold Hv) as H.
  destruct (Json.decode_files old v) as [f1 e1]. simpl in H.
  specialize (IH _ H). destruct (Json.decode_members f1 ms) as [f2 e2].
  exact IH.
Qed.

(** Whatever the file holds, the keys [Unmarshal] gives are valid UTF-8. *)
Lemma Unmarshal_valid (data : string) :
  Forall valid_utf8 (elems (fst (Json.Unmarshal data None))).
Proof.
  unfold Json.Unmarshal.
  destruct (Json.parse data) as [v|] eqn:Hp; [|constructor].
  apply parse_clean in Hp.
  assert (H : slice_valid (fst (Json.decode (Json.Slice None []) v))).
  { destruct v; simpl; try (split; constructor).
    apply decode_members_valid; [split; constructor|].
    unfold clean in Hp. simpl in Hp. rewrite Forall_flat_map in Hp. exact Hp. }
  destruct (Json.decode _ v) as [s e]. apply H.
Qed.

Lemma LoadArchivedFiles_valid (fs : FileSystem) (p : string) :
  Forall valid_utf8 (elems (Files (fst (LoadArchivedFiles fs p)))).
Proof.
  unfold LoadArchivedFiles.
  destruct (ReadFile fs p) as [data [e|]].
  - destruct (IsNotExist (Some e)); constructor.
  - pose proof (Unmarshal_valid data) as H.
    destruct (Json.Unmarshal data None) as [files err]. exact H.
Qed.

(** ** One run after the other *)

Lemma list_pages_error (resp : page) (more : list page)
    (files : option (list string)) :
  (exists msg, In (PageErr msg) (resp :: more)) ->
  exists msg, list_pages resp more files = (None, Some (BackendError msg)).
Proof.
  revert resp files. induction more as [|resp' more IH]; intros resp files.
  - intros [msg [->|[]]]. exists msg. reflexivity.
  - intros [msg [->|Hin]]; [exists msg; reflexivity|].
    destruct resp as [keys|msg']; [|exists msg'; reflexivity].
    simpl. apply IH. exists msg. exact Hin.
Qed.

Lemma fold_append (keys : list string) (files : option (list string)) :
  elems (fold_left append keys files) = elems files ++ keys.
Proof.
  revert files. induction keys as [|k keys IH]; intros files; simpl.
  - rewrite app_nil_r. reflexivity.
  - rewrite IH. unfold append. simpl. rewrite <- app_assoc. reflexivity.
Qed.

Lemma list_pages_keys (resp : page) (more : list page)
    (files l : option (list string)) :
  list_pages resp more files = (l, None) ->
  elems l = elems files ++ flat_map page_keys (resp :: more).
Proof.
  revert resp files. induction more as [|resp' more IH]; intros resp files.
  - destruct resp as [keys|msg]; [|discriminate]. simpl.
    intros [= <-]. rewrite fold_append, app_nil_r. reflexivity.
  - destruct resp as [keys|msg]; [|discriminate].
    cbn [list_pages]. intros H. rewrite (IH _ _ H), fold_append.
    cbn [flat_map page_keys]. rewrite <- app_assoc. reflexivity.
Qed.

Lemma ListS3Files_inventory (env : Env) (bucket : string)
    (l : option (list string)) :
  ListS3Files {| Client := s3 env |} bucket = (l, None) ->
  elems l = inventory env bucket.
Proof.
  unfold ListS3Files, inventory. simpl.
  destruct (ListObjectsV2 (s3 env) bucket) as [resp more].
  intros H. rewrite (list_pages_keys _ _ _ _ H). reflexivity.
Qed.

Lemma quiet_uploaded (tr : list event) :
  Forall quiet tr -> uploaded_keys tr = [] /\ upload_keys tr = [].
Proof.
  induction 1 as [|ev tr [Hu _] _ [IH1 IH2]]; [split; reflexivity|].
  destruct ev; try discriminate; simpl; auto.
Qed.

Lemma upload_keys_app (a c : list event) :
  upload_keys (a ++ c) = upload_keys a ++ upload_keys c.
Proof.
  induction a as [|[] a IH]; simpl; rewrite ?IH; reflexivity.
Qed.

Lemma map_valid (xs : list string) :
  Forall valid_utf8 xs -> map Utf8.sanitize xs = xs.
Proof.
  induction 1 as [|x xs Hx _ IH]; [reflexivity|].
  simpl. rewrite Hx, IH. reflexivity.
Qed.

(** A manifest that was saved is loaded again, its keys made valid
    UTF-8. *)
Lemma Load_saved (fs : FileSystem) (p : string)
    (files : option (list string)) :
  lookup_path fs p = inr (FFile (Json.MarshalIndent files)) ->
  LoadArchivedFiles fs p
  = ({| Files := option_map (map Utf8.sanitize) files |}, None).
Proof.
  intros H. unfold LoadArchivedFiles, ReadFile. rewrite H.
  rewrite Unmarshal_MarshalIndent. reflexivity.
Qed.

Lemma Load_saved_valid (fs : FileSystem) (p : string) (a : ArchivedFiles) :
  lookup_path fs p = inr (FFile (Json.MarshalIndent (Files a))) ->
  Forall valid_utf8 (elems (Files a)) ->
  LoadArchivedFiles fs p = (a, None).
Proof.
  intros Hl H. rewrite (Load_saved _ _ _ Hl). destruct a as [[xs|]]; simpl in *.
  - rewrite (map_valid _ H). reflexivity.
  - reflexivity.
Qed.

(** After a run that ended well, the key of every entry of the tree is in
    the bucket, among the keys uploaded, or in the manifest on disk. *)
Lemma first_run (flags : Flags) (e : Env) :
  exit_code (main flags e) = 0 ->
  exists L,
    LoadArchivedFiles (disk (main flags e)) (manifest_path flags) = (L, None) /\
    Forall valid_utf8 (elems (Files L)) /\
    covered flags (tree e)
      (inventory e (bucketName flags) ++
       uploaded_keys (events (main flags e)) ++ elems (Files L)).
Proof.
  destruct (main_run flags e) as [fs tr Hfs Htr
    | fs tr loaded s3Files st werr Hfs Htr Hload Hlist Hwalk o Ho];
    [discriminate|].
  destruct werr as [e0|]; [subst o; discriminate|].
  destruct Ho as (fs' & serr & Hsave & ->). simpl.
  destruct serr; [discriminate|]. intros _.
  apply SaveArchivedFiles_lookup in Hsave.
  eexists. split; [apply (Load_saved _ _ _ Hsave)|]. simpl.
  assert (He : forall o : option (list string),
             elems (option_map (map Utf8.sanitize) o)
             = map Utf8.sanitize (elems o)).
  { intros [xs|]; reflexivity. }
  rewrite He. split.
  - apply Forall_forall. intros x Hx. apply list_elem_of_In in Hx.
    apply in_map_iff in Hx as (y & <- & _). apply valid_sanitize.
  - intros p info Hin Hd.
    destruct (run_files _ _ _ _ _ _ _ _ _ Hwalk) as (new & Ht & Hf & _ & _).
    simpl in Ht, Hf.
    destruct (run_covered _ _ _ _ _ _ _ _ Hwalk _ _ Hin Hd) as [Hm|Hk].
    + apply in_or_app. left. rewrite <- (ListS3Files_inventory _ _ _ Hlist).
      apply map_index_make, Hm.
    + apply in_or_app. right. rewrite Hf in Hk.
      rewrite Ht, !uploaded_keys_app.
      destruct (quiet_uploaded _ Htr) as [-> _]. simpl. rewrite app_nil_r.
      apply in_app_or in Hk as [Hk|Hk]; apply in_or_app; [right | left; exact Hk].
      pose proof (LoadArchivedFiles_valid (files e) (manifest_path flags)) as Hv.
      rewrite Hload in Hv. simpl in Hv. rewrite Forall_forall in Hv.
      rewrite <- (Hv _ (proj2 (list_elem_of_In _ _) Hk)).
      apply in_map. rewrite Hf. apply in_or_app. left. exact Hk.
Qed.

(** A run in a world where the key of every entry is in the bucket or in
    the manifest uploads nothing and leaves the manifest as it is. *)
Lemma later_run (flags : Flags) (e : Env) (L : ArchivedFiles) :
  LoadArchivedFiles (files e) (manifest_path flags) = (L, None) ->
  Forall valid_utf8 (elems (Files L)) ->
  covered flags (tree e) (inventory e (bucketName flags) ++ elems (Files L)) ->
  upload_keys (events (main flags e)) = [] /\
  uploaded_keys (events (main flags e)) = [] /\
  (writes_whole e (manifest_path flags) ->
   LoadArchivedFiles (disk (main flags e)) (manifest_path flags) = (L, None)).
Proof.
  intros HL Hvalid Hcov.
  destruct (main_run flags e) as [fs tr Hfs Htr
    | fs tr loaded s3Files st werr Hfs Htr Hload Hlist Hwalk o Ho].
  - simpl. destruct (quiet_uploaded _ Htr) as [-> ->].
    rewrite (LoadArchivedFiles_lookup _ _ _ Hfs). auto.
  - rewrite HL in Hload. injection Hload as <-.
    assert (Hall : forall p info,
              In (p, Some info, None) (visits (localDirectory flags) (tree e)) ->
              IsDir info = false ->
              map_index (make_s3FileMap s3Files)
                (s3KeyOf (localDirectory flags) p) = true \/
              In (s3KeyOf (localDirectory flags) p)
                (elems (Files (archived {| archived := L; trace := tr |})))).
    { intros p info Hin Hd. simpl.
      destruct (in_app_or _ _ _ (Hcov _ _ Hin Hd)) as [H|H]; [left | right; exact H].
      apply map_index_make. rewrite (ListS3Files_inventory _ _ _ Hlist). exact H. }
    destruct (run_all_skipped _ _ _ _ _ _ _ _ _ Hall Hwalk)
      as (Ha & new & Ht & Hn).
    simpl in Ha, Ht.
    assert (Hq : Forall quiet (trace st)).
    { rewrite Ht. apply Forall_app. split; assumption. }
    destruct (quiet_uploaded _ Hq) as [Hu1 Hu2].
    destruct werr as [e0|].
    + subst o. simpl. rewrite Hu1, Hu2.
      rewrite (LoadArchivedFiles_lookup _ _ _ Hfs). auto.
    + destruct Ho as (fs' & serr & Hsave & ->). simpl.
      rewrite uploaded_keys_app, upload_keys_app, Hu1, Hu2. simpl.
      split; [reflexivity|]. split; [reflexivity|]. intros Hww.
      destruct serr.
      * apply SaveArchivedFiles_spec in Hsave as [_ [->|Hp]].
        -- rewrite (LoadArchivedFiles_lookup _ _ _ Hfs). exact HL.
        -- destruct Hp as (written & e1 & Hp & _). destruct (Hww _ _ Hp).
      * apply SaveArchivedFiles_lookup in Hsave. rewrite Ha in Hsave.
        apply (Load_saved_valid _ _ _ Hsave Hvalid).
Qed.

Lemma follows_first (flags : Flags) (e1 e2 : Env) :
  exit_code (main flags e1) = 0 -> follows flags e1 e2 ->
  exists L,
    LoadArchivedFiles (disk (main flags e1)) (manifest_path flags) = (L, None) /\
    LoadArchivedFiles (files e2) (manifest_path flags) = (L, None) /\
    Forall valid_utf8 (elems (Files L)) /\
    covered flags (tree e2) (inventory e2 (bucketName flags) ++ elems (Files L)).
Proof.
  intros Hok (Htree & Hfiles & Hinv).
  destruct (first_run flags e1 Hok) as (L & HL & Hv & Hcov).
  exists L. rewrite Hfiles, Htree. repeat split; auto.
  intros p info Hin Hd. specialize (Hcov p info Hin Hd).
  apply in_app_or in Hcov as [H|H].
  - apply in_or_app. left. apply Hinv. left. exact H.
  - apply in_app_or in H as [H|H]; apply in_or_app; [left | right; exact H].
    apply Hinv. right. exact H.
Qed.

Lemma same_write (flags : Flags) (e e' : Env) :
  same_behaviour flags e e' -> forall p, write_err e' p = write_err e p.
Proof. intros (_ & _ & H & _). exact H. Qed.

(** A run that ended well wrote the manifest whole. *)
Lemma success_writes_whole (flags : Flags) (e : Env) :
  exit_code (main flags e) = 0 -> writes_whole e (manifest_path flags).
Proof.
  destruct (main_run flags e) as [fs tr Hfs Htr
    | fs tr loaded s3Files st werr Hfs Htr Hload Hlist Hwalk o Ho];
    [discriminate|].
  destruct werr as [e0|]; [subst o; discriminate|].
  destruct Ho as (fs' & serr & Hsave & ->). simpl.
  destruct serr; [discriminate|]. intros _.
  apply SaveArchivedFiles_spec in Hsave as (_ & _ & _ & Hw).
  intros written x. rewrite Hw. discriminate.
Qed.

Lemma follows_later (flags : Flags) (e e' : Env) (L : ArchivedFiles) :
  LoadArchivedFiles (files e) (manifest_path flags) = (L, None) ->
  Forall valid_utf8 (elems (Files L)) ->
  covered flags (tree e) (inventory e (bucketName flags) ++ elems (Files L)) ->
  writes_whole e (manifest_path flags) ->
  follows flags e e' ->
  LoadArchivedFiles (files e') (manifest_path flags) = (L, None) /\
  covered flags (tree e') (inventory e' (bucketName flags) ++ elems (Files L)).
Proof.
  intros HL Hv Hcov Hww (Htree & Hfiles & Hinv).
  destruct (later_run flags e L HL Hv Hcov) as (_ & _ & HL').
  rewrite Hfiles, Htree. split; [exact (HL' Hww)|].
  intros p info Hin Hd. specialize (Hcov p info Hin Hd).
  apply in_app_or in Hcov as [H|H]; apply in_or_app; [left | right; exact H].
  apply Hinv. left. exact H.
Qed.

Lemma last_cons {A : Type} (l : list A) (x d : A) :
  List.last (x :: l) d = List.last l x.
Proof.
  revert x d. induction l as [|y l IH]; intros x d; [reflexivity|].
  change (List.last (x :: y :: l) d) with (List.last (y :: l) d).
  rewrite (IH y d), (IH y x). reflexivity.
Qed.

Lemma successive_later (flags : Flags) (later : list Env) (e : Env)
    (L : ArchivedFiles) :
  LoadArchivedFiles (files e) (manifest_path flags) = (L, None) ->
  Forall valid_utf8 (elems (Files L)) ->
  covered flags (tree e) (inventory e (bucketName flags) ++ elems (Files L)) ->
  writes_whole e (manifest_path flags) ->
  successive flags e later ->
  LoadArchivedFiles (disk (main flags (List.last later e))) (manifest_path flags)
  = (L, None) /\
  Forall (fun e' => upload_keys (events (main flags e')) = []) (e :: later).
Proof.
  revert e. induction later as [|e' later IH]; intros e HL Hv Hcov Hww Hs.
  - destruct (later_run flags e L HL Hv Hcov) as (Hu & _ & HL').
    split; [exact (HL' Hww) | repeat constructor; exact Hu].
  - destruct Hs as (Hf & Hsame & Hs).
    destruct (follows_later flags e e' L HL Hv Hcov Hww Hf) as [HL' Hcov'].
    assert (Hww' : writes_whole e' (manifest_path flags)).
    { intros written x. rewrite (same_write _ _ _ Hsame). apply Hww. }
    destruct (IH e' HL' Hv Hcov' Hww' Hs) as [Hlast Hall].
    destruct (later_run flags e L HL Hv Hcov) as (Hu & _ & _).
    split; [|constructor; assumption].
    rewrite last_cons. exact Hlast.
Qed.

(** ** A run that fails, run again *)

Lemma snoc_neq {A : Type} (t : list A) (x : A) : t ++ [x] <> t.
Proof.
  intros E. apply (f_equal (@length _)) in E.
  rewrite length_app in E. simpl in E. lia.
Qed.

(** A call that adds an event is a call on an entry that is no directory. *)
Lemma callback_changes env u m ld b p i err st st' r :
  walk_callback env u m ld b p i err st = (st', r) ->
  trace st' <> trace st ->
  exists info, i = Some info /\ err = None /\ IsDir info = false.
Proof.
  unfold walk_callback.
  destruct err; [intros [= <- <-] H; congruence|].
  destruct i as [info|]; [|intros [= <- <-] H; congruence].
  destruct (IsDir info) eqn:Hd; [intros [= <- <-] H; congruence|].
  intros _ _. eauto.
Qed.

Section Rerun.
Variables (env1 env2 : Env) (u1 u2 : S3Uploader) (m1 m2 : gmap string bool)
          (ld b : string) (A0 : ArchivedFiles).

Hypothesis same_upload :
  forall p k, UploadFile env2 u2 p k b = UploadFile env1 u1 p k b.

(** The second run finds in the bucket what the first run found or
    uploaded before it failed, and fails like the first one. *)
Lemma rerun_fails vs st1 st1' e1 pre new st2 :
  run_visits (walk_callback env1 u1 m1 ld b) vs st1 = (st1', Some e1) ->
  trace st1' = trace st1 ++ new ->
  elems (Files (archived st1)) = elems (Files A0) ++ pre ->
  (forall k, map_index m2 k = true <->
             map_index m1 k = true \/ In k pre \/ In k (uploaded_keys new)) ->
  archived st2 = A0 ->
  exists st2' e2,
    run_visits (walk_callback env2 u2 m2 ld b) vs st2 = (st2', Some e2).
Proof.
  revert st1 pre new st2.
  induction vs as [|[[p i] err] vs IH]; intros st1 pre new st2; simpl;
    [discriminate|].
  pose proof (callback_effect env1 u1 m1 ld b p i err st1) as Heff.
  destruct (walk_callback env1 u1 m1 ld b p i err st1) as [st1a r1a] eqn:Hcb1.
  simpl in Heff. intros Hrun Htr Hfiles Hm Ha2.
  assert (Hquiet : st1a = st1 ->
            walk_callback env2 u2 m2 ld b p i err st2 = (st2, r1a)).
  { intros ->. revert Hcb1. unfold walk_callback.
    destruct err; [intros [= <-]; reflexivity|].
    destruct i as [info|]; [|intros [= <-]; reflexivity].
    destruct (IsDir info); [intros [= <-]; reflexivity|].
    destruct (map_index m1 _);
      [intros [= E]; apply (f_equal trace) in E; simpl in E;
       exfalso; eapply snoc_neq; eauto|].
    destruct (is_archived _ _);
      [intros [= E]; apply (f_equal trace) in E; simpl in E;
       exfalso; eapply snoc_neq; eauto|].
    destruct (UploadFile env1 u1 _ _ _);
      intros [= E]; apply (f_equal trace) in E; simpl in E;
      exfalso; eapply snoc_neq; eauto. }
  destruct r1a as [e1a|]; cbn iota beta in Hrun.
  - (* the first run fails here *)
    assert (st1a = st1') by congruence. assert (e1a = e1) by congruence.
    subst st1' e1. clear Hrun.
    revert Ha2.
    inversion Heff as [r| | |e Hm1 Hn1 Hu1 E1 E2|]; subst; intros Ha2.
    + rewrite (Hquiet eq_refl). eauto.
    + (* the upload fails again *)
      simpl in Htr. apply app_inv_head in Htr. subst new.
      destruct (callback_changes _ _ _ _ _ _ _ _ _ _ _ Hcb1
                  (snoc_neq _ _)) as (info & -> & -> & Hd).
      unfold walk_callback. rewrite Hd.
      assert (Hm2 : map_index m2 (s3KeyOf ld p) = false).
      { destruct (map_index m2 (s3KeyOf ld p)) eqn:E; [|reflexivity].
        apply Hm in E as [E|[E|[]]]; [congruence|].
        exfalso. apply Hn1. rewrite Hfiles. apply in_or_app. right. exact E. }
      assert (Ha : is_archived (elems (Files (archived st2))) (s3KeyOf ld p)
                   = false).
      { apply is_archived_false. rewrite Ha2. intros Hin. apply Hn1.
        rewrite Hfiles. apply in_or_app. left. exact Hin. }
      rewrite Hm2, Ha, same_upload, Hu1. eauto.
  - (* the first run goes on *)
    destruct (run_files _ _ _ _ _ _ _ _ _ Hrun) as (new' & Htr' & _).
    revert Ha2.
    inversion Heff as [r|Hm1 E1|Hm1 Hin1 E1| |Hm1 Hn1 Hu1 E1]; subst;
      intros Ha2.
    + rewrite (Hquiet eq_refl).
      eapply (IH _ pre new); eauto.
    + (* skipped for the bucket: skipped for the bucket again *)
      simpl in Htr'. rewrite Htr', <- app_assoc in Htr.
      apply app_inv_head in Htr. subst new.
      assert (Hcb2 : walk_callback env2 u2 m2 ld b p i err st2
                     = ({| archived := archived st2;
                           trace := trace st2 ++ [SkipInS3 (s3KeyOf ld p)] |},
                        None)).
      { destruct (callback_changes _ _ _ _ _ _ _ _ _ _ _ Hcb1
                    (snoc_neq _ _)) as (info & -> & -> & Hd).
        unfold walk_callback. rewrite Hd.
        rewrite (proj2 (Hm _) (or_introl Hm1)). reflexivity. }
      rewrite Hcb2. eapply (IH _ pre new'); eauto.
    + (* skipped for the manifest: skipped again, for one or the other *)
      simpl in Htr'. rewrite Htr', <- app_assoc in Htr.
      apply app_inv_head in Htr. subst new.
      assert (Hcb2 : exists ev,
                 walk_callback env2 u2 m2 ld b p i err st2
                 = ({| archived := archived st2;
                       trace := trace st2 ++ [ev] |}, None)).
      { destruct (callback_changes _ _ _ _ _ _ _ _ _ _ _ Hcb1
                    (snoc_neq _ _)) as (info & -> & -> & Hd).
        unfold walk_callback. rewrite Hd.
        destruct (map_index m2 (s3KeyOf ld p)) eqn:Hm2; [eauto|].
        assert (Ha : is_archived (elems (Files (archived st2)))
                       (s3KeyOf ld p) = true).
        { apply is_archived_In. rewrite Ha2. rewrite Hfiles in Hin1.
          apply in_app_or in Hin1 as [H|H]; [exact H|].
          assert (map_index m2 (s3KeyOf ld p) = true) by (apply Hm; auto).
          congruence. }
        rewrite Ha. eauto. }
      destruct Hcb2 as [ev Hcb2]. rewrite Hcb2.
      eapply (IH _ pre new'); eauto.
    + (* uploaded: now in the bucket *)
      simpl in Htr'. rewrite Htr', <- app_assoc in Htr.
      apply app_inv_head in Htr. subst new.
      assert (Hcb2 : walk_callback env2 u2 m2 ld b p i err st2
                     = ({| archived := archived st2;
                           trace := trace st2 ++ [SkipInS3 (s3KeyOf ld p)] |},
                        None)).
      { destruct (callback_changes _ _ _ _ _ _ _ _ _ _ _ Hcb1
                    (snoc_neq _ _)) as (info & -> & -> & Hd).
        unfold walk_callback. rewrite Hd.
        assert (Hm2 : map_index m2 (s3KeyOf ld p) = true).
        { apply Hm. right. right. simpl. left. reflexivity. }
        rewrite Hm2. reflexivity. }
      rewrite Hcb2.
      eapply (IH _ (pre ++ [s3KeyOf ld p]) new'); eauto.
      * simpl. unfold append. simpl. rewrite Hfiles, app_assoc. reflexivity.
      * intros k. rewrite Hm. simpl. rewrite in_app_iff. simpl. tauto.
Qed.
End Rerun.
(** ** Runs that end before the walk *)

Lemma list_pages_ok (resp : page) (more : list page)
    (files : option (list string)) :
  existsb is_page_error (resp :: more) = false ->
  exists l, list_pages resp more files = (l, None).
Proof.
  revert resp files. induction more as [|resp' more IH]; intros resp files.
  - destruct resp; [|discriminate]. intros _. eexists. reflexivity.
  - destruct resp; [|discriminate]. intros H. cbn [list_pages].
    apply IH. exact H.
Qed.

Lemma existsb_page_error (l : list page) :
  existsb is_page_error l = true -> exists msg, In (PageErr msg) l.
Proof.
  induction l as [|[keys|msg] l IH]; simpl; [discriminate| |].
  - intros H. destruct (IH H) as [msg Hm]. eauto.
  - intros _. eauto.
Qed.

Lemma listing_fails_error (env : Env) (bucket : string) :
  listing_fails env bucket = true ->
  snd (ListS3Files {| Client := s3 env |} bucket) <> None.
Proof.
  unfold listing_fails, ListS3Files. simpl.
  destruct (ListObjectsV2 (s3 env) bucket) as [resp more].
  intros H. apply (existsb_page_error (resp :: more)) in H.
  destruct (list_pages_error resp more None H) as [msg ->]. discriminate.
Qed.

Lemma listing_ok (env : Env) (bucket : string) :
  listing_fails env bucket = false ->
  exists l, ListS3Files {| Client := s3 env |} bucket = (l, None).
Proof.
  unfold listing_fails, ListS3Files. simpl.
  destruct (ListObjectsV2 (s3 env) bucket) as [resp more].
  apply (list_pages_ok resp more).
Qed.

Lemma stops_or_ready (flags : Flags) (env : Env) :
  stops flags env \/
  exists fs tr loaded s3Files, ready flags env fs tr loaded s3Files.
Proof.
  unfold stops, ready.
  destruct (_ || _) eqn:Hf; [auto|].
  destruct (archive_path flags env) as [[[p fs] tr] err] eqn:Hap.
  pose proof (archive_path_spec _ _ _ _ _ _ Hap) as (-> & _ & _).
  destruct err; [left; right; left; simpl; discriminate|].
  destruct (config_err env _ _); [left; right; right; left; discriminate|].
  destruct (LoadArchivedFiles (files env) _) as [loaded [e|]];
    [left; right; right; right; left; simpl; discriminate|].
  destruct (listing_fails env (bucketName flags)) eqn:Hl;
    [left; right; right; right; right; reflexivity|].
  destruct (listing_ok _ _ Hl) as [l Hlist].
  right. exists fs, tr, loaded, l. auto.
Qed.

Lemma main_stops (flags : Flags) (env : Env) :
  stops flags env -> exit_code (main flags env) = 1.
Proof.
  unfold stops, main.
  destruct (_ || _) eqn:Hf; [reflexivity|].
  destruct (archive_path flags env) as [[[p fs] tr] err] eqn:Hap.
  pose proof (archive_path_spec _ _ _ _ _ _ Hap) as (-> & Hfs & _).
  destruct err; [reflexivity|].
  destruct (config_err env _ _); [reflexivity|].
  rewrite (LoadArchivedFiles_lookup _ _ _ Hfs).
  destruct (LoadArchivedFiles (files env) _) as [loaded [e|]]; [reflexivity|].
  destruct (ListS3Files _ _) as [s3Files [e|]] eqn:Hlist; [reflexivity|].
  intros [Hs|[Hs|[Hs|[Hs|Hs]]]]; try discriminate; try (simpl in Hs; congruence).
  apply listing_fails_error in Hs. rewrite Hlist in Hs. simpl in Hs. congruence.
Qed.

Lemma main_ready flags env fs tr loaded s3Files :
  ready flags env fs tr loaded s3Files ->
  main flags env = from_walk flags env fs tr loaded s3Files /\
  lookup_path fs (manifest_path flags)
  = lookup_path (files env) (manifest_path flags) /\
  Forall quiet tr.
Proof.
  intros (Hf & Hap & Hc & Hload & Hlist).
  pose proof (archive_path_spec _ _ _ _ _ _ Hap) as (_ & Hfs & Htr).
  split; [|auto].
  unfold main, from_walk. rewrite Hf, Hap, Hc.
  rewrite (LoadArchivedFiles_lookup _ _ _ Hfs), Hload, Hlist.
  rewrite Walk_callback. reflexivity.
Qed.

(** A run that writes nothing leaves the manifest file as it is. *)
Lemma unwritten_keeps (flags : Flags) (env : Env) :
  List.filter is_write (events (main flags env)) = [] ->
  lookup_path (disk (main flags env)) (manifest_path flags)
  = lookup_path (files env) (manifest_path flags).
Proof.
  destruct (main_run flags env) as [fs tr Hfs Htr
    | fs tr loaded s3Files st werr Hfs Htr Hload Hlist Hwalk o Ho];
    [auto|].
  destruct werr; [subst o; auto|].
  destruct Ho as (fs' & serr & Hsave & ->). simpl.
  rewrite List.filter_app. simpl. intros H.
  apply app_eq_nil in H as [_ H]. discriminate.
Qed.

(** A run that fails leaves the manifest file as it is, when no write
    breaks off. *)
Lemma failed_keeps (flags : Flags) (env : Env) :
  writes_whole env (manifest_path flags) ->
  exit_code (main flags env) <> 0 ->
  lookup_path (disk (main flags env)) (manifest_path flags)
  = lookup_path (files env) (manifest_path flags).
Proof.
  intros Hww.
  destruct (main_run flags env) as [fs tr Hfs Htr
    | fs tr loaded s3Files st werr Hfs Htr Hload Hlist Hwalk o Ho];
    [auto|].
  destruct werr; [subst o; auto|].
  destruct Ho as (fs' & serr & Hsave & ->). simpl.
  apply SaveArchivedFiles_spec in Hsave as [_ Hfs'].
  destruct serr; [|congruence]. intros _.
  destruct Hfs' as [->|(written & x & Hw & _)]; [exact Hfs|].
  destruct (Hww _ _ Hw).
Qed.

Lemma archive_path_error flags env p fs tr e :
  archive_path flags env = (p, fs, tr, Some e) ->
  fs = files env /\
  String.eqb (archiveFile flags) "" = true /\
  entries (files env) !! "archives" = None /\
  mkdir_err env "archives" <> None.
Proof.
  unfold archive_path.
  destruct (String.eqb (archiveFile flags) ""); [|discriminate]. cbn [negb].
  pose proof (Ensure_archives env (files env)) as H.
  destruct (entries (files env) !! "archives") as [x|] eqn:Hl;
    [rewrite H; discriminate|].
  destruct (mkdir_err env "archives"); rewrite H; [|discriminate].
  intros [= <- <- <- <-]. repeat split; auto; discriminate.
Qed.

(** Once the directory of the manifests is there, it is left alone. *)
Lemma archive_path_settled flags env p fs tr :
  archive_path flags env = (p, fs, tr, None) ->
  forall env' fs',
    files env' = fs' ->
    entries fs' !! "archives" = entries fs !! "archives" ->
    archive_path flags env' = (p, fs', [], None).
Proof.
  unfold archive_path.
  destruct (String.eqb (archiveFile flags) ""); cbn [negb];
    [|intros [= <- <- _] env' fs' -> _; reflexivity].
  pose proof (Ensure_archives env (files env)) as H.
  intros Hap env' fs' Hf He.
  pose proof (Ensure_archives env' (files env')) as H'.
  rewrite Hf, He in H'. rewrite Hf.
  destruct (entries (files env) !! "archives") as [x|] eqn:Hl.
  - rewrite H in Hap. injection Hap as <- <- _. rewrite Hl in H'.
    rewrite H'. reflexivity.
  - destruct (mkdir_err env "archives"); rewrite H in Hap; [discriminate|].
    injection Hap as <- <- _.
    assert (Hd : entries (make_dir "archives" (files env)) !! "archives"
                 = Some FDir).
    { unfold make_dir. cbn [entries]. apply lookup_insert_eq. }
    rewrite Hd in H'. rewrite H'. reflexivity.
Qed.

(** A write that fails fails again on the same file system, and on any
    file system when it is the write itself that breaks. *)
Lemma Save_fails env env' fs fs' p a a' :
  write_err env' p = write_err env p ->
  (write_err env p = None -> fs' = fs) ->
  snd (SaveArchivedFiles env fs p a) <> None ->
  snd (SaveArchivedFiles env' fs' p a') <> None.
Proof.
  unfold SaveArchivedFiles, WriteFile. intros ->.
  destruct (write_err env p) as [[e|written e]|].
  - intros _ _. destruct (way fs' p); [simpl; discriminate|].
    destruct (entries fs' !! p) as [[d| | |]|]; simpl; discriminate.
  - intros _ _. destruct (way fs' p); [simpl; discriminate|].
    destruct (entries fs' !! p) as [[d| | |]|]; simpl; discriminate.
  - intros Hfs. rewrite (Hfs eq_refl).
    destruct (way fs p); [simpl; discriminate|].
    destruct (entries fs !! p) as [[d| | |]|]; simpl; congruence.
Qed.

Lemma UploadFile_same (e e' : Env) (p k b : string) :
  (forall p, open_err e' p = open_err e p) ->
  (forall bucket key,
     PutObject (s3 e') bucket key = PutObject (s3 e) bucket key) ->
  UploadFile e' {| Client := s3 e' |} p k b
  = UploadFile e {| Client := s3 e |} p k b.
Proof. intros Ho Hp. unfold UploadFile. simpl. rewrite Ho, Hp. reflexivity. Qed.

(** A run that stops before the walk leaves the manifest file as it is. *)
Lemma stops_disk (flags : Flags) (env : Env) :
  stops flags env ->
  lookup_path (disk (main flags env)) (manifest_path flags)
  = lookup_path (files env) (manifest_path flags).
Proof.
  unfold stops, main.
  destruct (_ || _) eqn:Hf; [reflexivity|].
  destruct (archive_path flags env) as [[[p fs] tr] err] eqn:Hap.
  pose proof (archive_path_spec _ _ _ _ _ _ Hap) as (-> & Hfs & _).
  destruct err; [intros _; exact Hfs|].
  destruct (config_err env _ _); [intros _; exact Hfs|].
  rewrite (LoadArchivedFiles_lookup _ _ _ Hfs).
  destruct (LoadArchivedFiles (files env) _) as [loaded [e|]];
    [intros _; exact Hfs|].
  destruct (ListS3Files _ _) as [s3Files [e|]] eqn:Hlist; [intros _; exact Hfs|].
  intros [Hs|[Hs|[Hs|[Hs|Hs]]]]; try discriminate; try (simpl in Hs; congruence).
  apply listing_fails_error in Hs. rewrite Hlist in Hs. simpl in Hs. congruence.
Qed.

(** In surroundings that do not change, a run that fails is followed by a
    run that fails. *)
Lemma failure_persists (flags : Flags) (e e' : Env) :
  follows flags e e' -> same_behaviour flags e e' ->
  exit_code (main flags e) <> 0 -> exit_code (main flags e') <> 0.
Proof.
  intros (Htree & Hfiles & Hinv) (Hopen & Hmk & Hwr & Hcfg & Hput & Hlf) Hfail.
  destruct (stops_or_ready flags e') as [Hs'|(fs' & tr' & loaded' & l' & Hr')];
    [rewrite (main_stops _ _ Hs'); discriminate|].
  pose proof Hr' as (Hf' & Hap' & Hc' & Hload' & Hlist').
  destruct (main_ready _ _ _ _ _ _ Hr') as (Hmain' & Hfs' & Htr').
  destruct (stops_or_ready flags e) as [Hs|(fs & tr & loaded & l & Hr)].
  - (* the first run ended before the walk: so does the second one *)
    exfalso.
    assert (Hlookup : lookup_path (files e') (manifest_path flags)
                      = lookup_path (files e) (manifest_path flags)).
    { rewrite Hfiles. apply stops_disk, Hs. }
    destruct Hs as [Hs|[Hs|[Hs|[Hs|Hs]]]].
    + congruence.
    + destruct (archive_path flags e) as [[[p0 fs0] tr0] [err0|]] eqn:Hap;
        [|simpl in Hs; congruence].
      destruct (archive_path_error _ _ _ _ _ _ Hap) as (-> & Ha & Hno & Hm).
      assert (Hd : disk (main flags e) = files e).
      { unfold main. rewrite Hf', Hap. reflexivity. }
      rewrite Hd in Hfiles.
      revert Hap'. unfold archive_path. rewrite Ha. cbn [negb].
      pose proof (Ensure_archives e' (files e')) as H.
      rewrite Hfiles, Hno, Hmk in H.
      destruct (mkdir_err e "archives"); [|congruence].
      rewrite Hfiles, H. discriminate.
    + rewrite Hcfg in Hc'. congruence.
    + rewrite <- (LoadArchivedFiles_lookup _ _ _ Hlookup), Hload' in Hs.
      simpl in Hs. congruence.
    + rewrite <- Hlf in Hs. apply listing_fails_error in Hs.
      rewrite Hlist' in Hs. simpl in Hs. congruence.
  - (* the first run walked *)
    pose proof Hr as (Hf & Hap & Hc & Hload & Hlist).
    destruct (main_ready _ _ _ _ _ _ Hr) as (Hmain & Hfs & Htr).
    rewrite Hmain in Hfail, Hinv, Hfiles. rewrite Hmain'.
    clear Hmain Hmain'. unfold from_walk in *. rewrite Htree.
    destruct (run_visits _ _ {| archived := loaded; trace := tr |})
      as [st1 werr1] eqn:Hrun1.
    destruct werr1 as [e1|].
    + (* the walk failed: it fails again *)
      simpl in Hfiles.
      assert (Hlookup : lookup_path (files e') (manifest_path flags)
                        = lookup_path (files e) (manifest_path flags)).
      { rewrite Hfiles. exact Hfs. }
      rewrite (LoadArchivedFiles_lookup _ _ _ Hlookup), Hload in Hload'.
      injection Hload' as <-.
      destruct (run_files _ _ _ _ _ _ _ _ _ Hrun1) as (new & Htr1 & _).
      simpl in Htr1, Hinv.
      destruct (rerun_fails e e' {| Client := s3 e |} {| Client := s3 e' |}
                  (make_s3FileMap l) (make_s3FileMap l')
                  (localDirectory flags) (bucketName flags) loaded
                  (fun p k => UploadFile_same e e' p k _ Hopen Hput)
                  _ _ _ _ [] new {| archived := loaded; trace := tr' |}
                  Hrun1 Htr1)
        as (st2 & e2 & Hrun2).
      * simpl. rewrite app_nil_r. reflexivity.
      * intros k. rewrite !map_index_make.
        rewrite (ListS3Files_inventory _ _ _ Hlist),
          (ListS3Files_inventory _ _ _ Hlist'), Hinv, Htr1,
          uploaded_keys_app.
        destruct (quiet_uploaded _ Htr) as [-> _]. simpl. tauto.
      * reflexivity.
      * rewrite Hrun2. discriminate.
    + (* the manifest could not be written: it cannot be written again *)
      destruct (SaveArchivedFiles e fs _ _) as [[fs1 tr1] serr1] eqn:Hsave1.
      destruct serr1 as [se|]; [|simpl in Hfail; congruence].
      simpl in Hfiles.
      destruct (run_visits _ _ {| archived := loaded'; trace := tr' |})
        as [st2 [e2|]]; [cbn; discriminate|].
      pose proof (Save_fails e e' fs fs' (manifest_path flags)
                    (archived st1) (archived st2) (Hwr _)) as Hsf.
      rewrite Hsave1 in Hsf.
      destruct (SaveArchivedFiles e' fs' _ _) as [[fs2 tr2] [se2|]];
        [cbn; discriminate|].
      exfalso. apply Hsf; [|discriminate | reflexivity].
      intros Hnone.
      apply SaveArchivedFiles_spec in Hsave1 as [_ [->|(w & x & Hw & _)]];
        [|congruence].
      pose proof (archive_path_settled _ _ _ _ _ Hap e' (files e') eq_refl) as H.
      rewrite Hfiles in H. specialize (H eq_refl).
      rewrite <- Hfiles in H at 1. rewrite Hap' in H. congruence.
Qed.

Lemma same_writes_whole (flags : Flags) (e e' : Env) (p : string) :
  same_behaviour flags e e' -> writes_whole e p -> writes_whole e' p.
Proof.
  intros Hsame Hww written x. rewrite (same_write _ _ _ Hsame). apply Hww.
Qed.

(** After a run that fails, in surroundings that do not change and where
    no write breaks off, the manifest file stays as it is. *)
Lemma successive_failed (flags : Flags) (later : list Env) (e : Env) :
  successive flags e later ->
  writes_whole e (manifest_path flags) ->
  exit_code (main flags e) <> 0 ->
  lookup_path (disk (main flags (List.last later e))) (manifest_path flags)
  = lookup_path (files e) (manifest_path flags).
Proof.
  revert e. induction later as [|e' later IH]; intros e Hs Hww Hfail.
  - apply failed_keeps; assumption.
  - destruct Hs as (Hf & Hsame & Hs).
    pose proof (failure_persists flags e e' Hf Hsame Hfail) as Hfail'.
    rewrite last_cons,
      (IH e' Hs (same_writes_whole _ _ _ _ Hsame Hww) Hfail').
    destruct Hf as (_ & -> & _). apply failed_keeps; assumption.
Qed.

(** A bucket that refuses every upload: the run fails, and the run after
    it fails too. *)
Example refused_twice :
  let flags := Sample.flags "data" in
  let e1 := Sample.world ∅ Sample.local_tree Sample.refusing_client in
  let e2 := Sample.world (disk (main flags e1)) Sample.local_tree
              Sample.refusing_client in
  exit_code (main flags e1) = 1 /\ exit_code (main flags e2) <> 0.
Proof.
  intros flags e1 e2. split; [vm_compute; reflexivity|].
  apply (failure_persists flags e1 e2).
  - split; [reflexivity|]. split; [reflexivity|]. intros k. vm_compute. tauto.
  - repeat split; reflexivity.
  - vm_compute. discriminate.
Qed.

(** ** The shape of a run *)

(** A run that ends with status 0 went through every step. *)
Lemma main_success flags env :
  exit_code (main flags env) = 0 ->
  exists fs tr loaded s3Files st,
    ready flags env fs tr loaded s3Files /\
    run_visits
      (walk_callback env {| Client := s3 env |} (make_s3FileMap s3Files)
         (localDirectory flags) (bucketName flags))
      (visits (localDirectory flags) (tree env))
      {| archived := loaded; trace := tr |} = (st, None) /\
    main flags env =
    {| exit_code := 0;
       disk := <[manifest_path flags :=
                   FFile (Json.MarshalIndent (Files (archived st)))]> fs;
       events := trace st ++
                 [WriteCall (manifest_path flags)
                    (Json.MarshalIndent (Files (archived st))) None] |}.
Proof.
  intros Hok.
  destruct (stops_or_ready flags env) as [Hs|(fs & tr & loaded & l & Hr)];
    [rewrite (main_stops _ _ Hs) in Hok; discriminate|].
  destruct (main_ready _ _ _ _ _ _ Hr) as (Hmain & _ & _).
  rewrite Hmain in Hok |- *. unfold from_walk in *.
  destruct (run_visits _ _ _) as [st [e|]] eqn:Hrun; [discriminate|].
  destruct (SaveArchivedFiles _ _ _ _) as [[fs' tr'] serr] eqn:Hsave.
  apply SaveArchivedFiles_spec in Hsave as [-> Hfs'].
  destruct serr; [discriminate|]. destruct Hfs' as (-> & _).
  exists fs, tr, loaded, l, st. auto.
Qed.

(** A run ends before the walk, having done nothing but perhaps make the
    directory [archives], or walks the tree and then perhaps writes the
    manifest. *)
Lemma main_walked flags env :
  (exists fs tr, main flags env = fatal fs tr /\ Forall quiet tr /\
                 forall ev, In ev tr -> exists r, ev = MkdirCall "archives" r) \/
  exists fs tr loaded s3Files st werr new,
    ready flags env fs tr loaded s3Files /\
    run_visits
      (walk_callback env {| Client := s3 env |} (make_s3FileMap s3Files)
         (localDirectory flags) (bucketName flags))
      (visits (localDirectory flags) (tree env))
      {| archived := loaded; trace := tr |} = (st, werr) /\
    trace st = tr ++ new /\
    (forall ev, In ev tr -> exists r, ev = MkdirCall "archives" r) /\
    (events (main flags env) = trace st \/
     exists r, werr = None /\
       events (main flags env)
       = trace st ++ [WriteCall (manifest_path flags)
                        (Json.MarshalIndent (Files (archived st))) r]).
Proof.
  unfold main, ready.
  destruct (_ || _) eqn:Hf;
    [left; exists (files env), []; repeat split; [constructor | intros ev []]|].
  destruct (archive_path flags env) as [[[p fs] tr] err] eqn:Hap.
  assert (Hm : forall ev, In ev tr -> exists r, ev = MkdirCall "archives" r).
  { intros ev Hin.
    destruct (archive_path_cases _ _ _ _ _ _ Hap)
      as [(_ & -> & _)|(_ & _ & -> & _)]; [destruct Hin|].
    destruct Hin as [<-|[]]. eauto. }
  pose proof (archive_path_spec _ _ _ _ _ _ Hap) as (-> & Hfs & Htr).
  destruct err; [left; exists fs, tr; auto|].
  destruct (config_err env _ _) eqn:Hc; [left; exists fs, tr; auto|].
  rewrite (LoadArchivedFiles_lookup _ _ _ Hfs).
  destruct (LoadArchivedFiles (files env) _) as [loaded [e|]] eqn:Hload;
    [left; exists fs, tr; auto|].
  destruct (ListS3Files _ _) as [s3Files [e|]] eqn:Hlist;
    [left; exists fs, tr; auto|].
  right. rewrite Walk_callback.
  destruct (run_visits _ _ _) as [st werr] eqn:Hrun.
  destruct (run_files _ _ _ _ _ _ _ _ _ Hrun) as (new & Ht & _).
  simpl in Ht.
  exists fs, tr, loaded, s3Files, st, werr, new.
  split; [auto|]. split; [exact Hrun|]. split; [exact Ht|].
  split; [exact Hm|].
  destruct werr; [left; reflexivity|].
  destruct (SaveArchivedFiles _ _ _ _) as [[fs' tr'] serr] eqn:Hsave.
  apply SaveArchivedFiles_spec in Hsave as [-> _].
  right. exists serr. split; [reflexivity|]. destruct serr; reflexivity.
Qed.

(** ** The slice [ListS3Files] returns *)

Lemma fold_append_nil (keys : list string) (files : option (list string)) :
  fold_left append keys files = None <-> files = None /\ keys = [].
Proof.
  assert (H : forall ks f, f <> None -> fold_left append ks f <> None).
  { induction ks as [|k ks IH]; intros f Hf; simpl; [exact Hf|].
    apply IH. discriminate. }
  destruct keys as [|k keys]; simpl; [tauto|].
  split; [|intros [_ [=]]].
  intros E. exfalso. revert E. apply H. discriminate.
Qed.

Lemma list_pages_nil (resp : page) (more : list page)
    (files l : option (list string)) :
  list_pages resp more files = (l, None) ->
  (l = None <-> files = None /\ flat_map page_keys (resp :: more) = []).
Proof.
  revert resp files. induction more as [|resp' more IH]; intros resp files.
  - destruct resp as [keys|msg]; [|discriminate]. simpl.
    intros [= <-]. rewrite fold_append_nil, app_nil_r. reflexivity.
  - destruct resp as [keys|msg]; [|discriminate].
    cbn [list_pages]. intros H. rewrite (IH _ _ H), fold_append_nil.
    cbn [flat_map page_keys].
    split.
    + intros [[-> ->] ->]. auto.
    + intros [-> E]. apply app_eq_nil in E as [-> E]. auto.
Qed.

(** ** The uploads of one walk *)

Lemma app_self_nil {A : Type} (l new : list A) : l = l ++ new -> new = [].
Proof.
  intros H. rewrite <- (app_nil_r l) in H at 1.
  apply app_inv_head in H. auto.
Qed.

(** No key is handed to [UploadFile] twice, and none that the key list
    held at the start. *)
Lemma run_upload_keys env u m ld b vs st st' r new :
  run_visits (walk_callback env u m ld b) vs st = (st', r) ->
  trace st' = trace st ++ new ->
  List.NoDup (upload_keys new) /\
  forall k, In k (upload_keys new) -> ~ In k (elems (Files (archived st))).
Proof.
  revert st new. induction vs as [|[[p i] err] vs IH]; intros st new; simpl.
  - intros [= <- <-] Ht. apply app_self_nil in Ht. subst new.
    split; [constructor | intros k []].
  - pose proof (callback_effect env u m ld b p i err st) as Heff.
    destruct (walk_callback env u m ld b p i err st) as [st1 r1] eqn:Hcb.
    simpl in Heff.
    assert (Hstop : forall ev, trace st1 = trace st ++ [ev] ->
              r1 <> None -> (st1, r1) = (st', r) ->
              trace st' = trace st ++ new -> new = [ev]).
    { intros ev H1 _ [= <- <-] Ht. rewrite H1 in Ht.
      apply app_inv_head in Ht. auto. }
    assert (Hgo : forall ev, trace st1 = trace st ++ [ev] ->
              run_visits (walk_callback env u m ld b) vs st1 = (st', r) ->
              trace st' = trace st ++ new ->
              exists new2, new = ev :: new2 /\ trace st' = trace st1 ++ new2).
    { intros ev H1 Hrun Ht.
      destruct (run_files _ _ _ _ _ _ _ _ _ Hrun) as (new2 & Ht2 & _).
      exists new2. split; [|exact Ht2].
      rewrite Ht2, H1, <- app_assoc in Ht. apply app_inv_head in Ht. auto. }
    inversion Heff as [r0|Hm|Hm Hin|e Hm Hn Hu|Hm Hn Hu]; subst;
      cbn iota beta.
    + match goal with
      | |- context [match ?x with Some _ => _ | None => _ end] =>
          destruct x as [e|]; [|apply IH]
      end.
      intros [= <- <-] Ht. apply app_self_nil in Ht. subst new.
      split; [constructor | intros k []].
    + intros Hrun Ht.
      destruct (Hgo (SkipInS3 (s3KeyOf ld p))) as (new2 & -> & Ht2);
        [reflexivity | exact Hrun | exact Ht |].
      destruct (IH _ _ Hrun Ht2) as [Hnd Hno]. simpl in *. auto.
    + intros Hrun Ht.
      destruct (Hgo (SkipArchived (s3KeyOf ld p))) as (new2 & -> & Ht2);
        [reflexivity | exact Hrun | exact Ht |].
      destruct (IH _ _ Hrun Ht2) as [Hnd Hno]. simpl in *. auto.
    + intros Hrun Ht.
      rewrite (Hstop (UploadCall p (s3KeyOf ld p) b (Some e)));
        [|reflexivity | discriminate | exact Hrun | exact Ht].
      simpl. split; [repeat constructor; intros [] |].
      intros k [<-|[]]. exact Hn.
    + intros Hrun Ht.
      destruct (Hgo (UploadCall p (s3KeyOf ld p) b None)) as (new2 & -> & Ht2);
        [reflexivity | exact Hrun | exact Ht |].
      destruct (IH _ _ Hrun Ht2) as [Hnd Hno]. simpl in *.
      assert (Hl : forall k, In k (upload_keys new2) ->
                ~ In k (elems (Files (archived st))) /\ k <> s3KeyOf ld p).
      { intros k Hk. specialize (Hno k Hk). unfold append in Hno. simpl in Hno.
        rewrite in_app_iff in Hno. simpl in Hno. split; [tauto|].
        intros ->. tauto. }
      split.
      * constructor; [|exact Hnd]. intros Hk. apply (Hl _ Hk). reflexivity.
      * intros k [<-|Hk]; [exact Hn | apply (Hl _ Hk)].
Qed.

(** ** The files a run leaves *)


(** ** The uploads of a run *)

Lemma main_uploads flags env p k b r :
  In (UploadCall p k b r) (events (main flags env)) ->
  exists loaded,
    LoadArchivedFiles (files env) (manifest_path flags) = (loaded, None) /\
    ~ In k (elems (Files loaded)) /\
    b = bucketName flags /\
    k = s3KeyOf (localDirectory flags) p /\
    r = UploadFile env {| Client := s3 env |} p k (bucketName flags) /\
    exists info,
      In (p, Some info, None) (visits (localDirectory flags) (tree env)) /\
      IsDir info = false.
Proof.
  intros Hin.
  destruct (main_walked flags env)
    as [(fs & tr & Hmain & Htr & _)
       |(fs & tr & loaded & l & st & werr & new & Hr & Hrun & Ht & Hmk & Hev)].
  - exfalso. rewrite Hmain in Hin. simpl in Hin.
    rewrite Forall_forall in Htr. apply list_elem_of_In in Hin.
    destruct (Htr _ Hin). discriminate.
  - assert (Hin' : In (UploadCall p k b r) (trace st)).
    { destruct Hev as [Hev|(r' & _ & Hev)]; rewrite Hev in Hin; [exact Hin|].
      apply in_app_or in Hin as [H|[H|[]]]; [exact H | discriminate]. }
    destruct Hr as (_ & _ & _ & Hload & _).
    destruct (run_uploads _ _ _ _ _ _ _ _ _ Hrun _ _ _ _ Hin')
      as [H|(_ & Hn & -> & -> & -> & Hvis)].
    + exfalso. simpl in H. destruct (Hmk _ H). discriminate.
    + exists loaded. auto 10.
Qed.

Lemma upload_keys_In (tr : list event) (k : string) :
  In k (upload_keys tr) -> exists p b r, In (UploadCall p k b r) tr.
Proof.
  induction tr as [|ev tr IH]; simpl; [intros []|].
  destruct ev as [| |p k' b r| |]; simpl;
    try (intros H; destruct (IH H) as (p0 & b0 & r0 & H0); eauto 6).
  intros [<-|H]; [eauto 6|].
  destruct (IH H) as (p0 & b0 & r0 & H0). eauto 6.
Qed.

Lemma Load_written (fs : FileSystem) (p : string)
    (saved : option (list string)) :
  fs !! p = Some (FFile (Json.MarshalIndent saved)) ->
  LoadArchivedFiles fs p
  = ({| Files := option_map (map Utf8.sanitize) saved |}, None).
Proof. intros H. apply Load_saved, lookup_Some, H. Qed.

Lemma TrimPrefix_self (s : string) : Strings.TrimPrefix s s = "".
Proof.
  unfold Strings.TrimPrefix.
  assert (H : Strings.HasPrefix s s = true).
  { induction s as [|c s IH]; [reflexivity|]. simpl.
    rewrite Ascii.eqb_refl. exact IH. }
  rewrite H. induction s as [|c s IH]; [reflexivity|]. simpl.
  apply IH. simpl in H. rewrite Ascii.eqb_refl in H. exact H.
Qed.

Lemma s3KeyOf_root (ld : string) : s3KeyOf ld ld = "".
Proof. unfold s3KeyOf. rewrite TrimPrefix_self. reflexivity. Qed.

(** ** What a run leaves for the next one *)

Lemma quiet_unwritten (tr : list event) :
  Forall quiet tr -> List.filter is_write tr = [].
Proof.
  induction 1 as [|ev tr [_ Hw] _ IH]; [reflexivity|].
  simpl. rewrite Hw. exact IH.
Qed.

Lemma uploaded_keys_In (tr : list event) (k : string) :
  In k (uploaded_keys tr) -> exists p b, In (UploadCall p k b None) tr.
Proof.
  induction tr as [|ev tr IH]; [intros []|].
  destruct ev as [| |p k' b [e|]| |]; simpl; intros H;
    try (destruct (IH H) as (p0 & b0 & H0); exists p0, b0; right; exact H0).
  destruct H as [->|H]; [exists p, b; left; reflexivity|].
  destruct (IH H) as (p0 & b0 & H0). exists p0, b0. right. exact H0.
Qed.

Lemma uploaded_upload_keys (tr : list event) (k : string) :
  In k (uploaded_keys tr) -> In k (upload_keys tr).
Proof.
  induction tr as [|ev tr IH]; [intros []|].
  destruct ev as [| |p k' b [e|]| |]; simpl; auto.
  intros [->|H]; auto.
Qed.

(** No key of the listing is handed to [UploadFile]. *)
Lemma uploads_not_listed flags env p k b r :
  In (UploadCall p k b r) (events (main flags env)) ->
  ~ In k (inventory env (bucketName flags)).
Proof.
  intros Hin.
  destruct (main_walked flags env)
    as [(fs & tr & Hmain & Htr & _)
       |(fs & tr & loaded & l & st & werr & new & Hr & Hrun & Ht & Hmk & Hev)].
  - exfalso. rewrite Hmain in Hin. simpl in Hin.
    rewrite Forall_forall in Htr. apply list_elem_of_In in Hin.
    destruct (Htr _ Hin). discriminate.
  - assert (Hin' : In (UploadCall p k b r) (trace st)).
    { destruct Hev as [Hev|(r' & _ & Hev)]; rewrite Hev in Hin; [exact Hin|].
      apply in_app_or in Hin as [H|[H|[]]]; [exact H | discriminate]. }
    destruct Hr as (_ & _ & _ & _ & Hlist).
    destruct (run_uploads _ _ _ _ _ _ _ _ _ Hrun _ _ _ _ Hin')
      as [H|(Hm & _)].
    + exfalso. simpl in H. destruct (Hmk _ H). discriminate.
    + rewrite <- (ListS3Files_inventory _ _ _ Hlist), <- map_index_make.
      congruence.
Qed.

(** The run after a run does not upload again what that run uploaded and
    the bucket kept. *)
Lemma kept_keys_skipped flags env env' k :
  follows flags env env' ->
  In k (uploaded_keys (events (main flags env))) ->
  ~ In k (upload_keys (events (main flags env'))).
Proof.
  intros (_ & _ & Hinv) Hk Hup.
  destruct (upload_keys_In _ _ Hup) as (p & b & r & Hin).
  apply (uploads_not_listed _ _ _ _ _ _ Hin), Hinv. right. exact Hk.
Qed.

(** What a run that ended well leaves in the manifest file. *)
Lemma success_saved flags env :
  exit_code (main flags env) = 0 ->
  exists loaded saved,
    LoadArchivedFiles (files env) (manifest_path flags) = (loaded, None) /\
    lookup_path (disk (main flags env)) (manifest_path flags)
    = inr (FFile (Json.MarshalIndent saved)) /\
    elems saved
    = elems (Files loaded) ++ uploaded_keys (events (main flags env)) /\
    (List.NoDup (elems (Files loaded)) -> List.NoDup (elems saved)).
Proof.
  intros Hok.
  destruct (stops_or_ready flags env) as [Hs|(fs & tr & loaded & l & Hr)];
    [rewrite (main_stops _ _ Hs) in Hok; discriminate|].
  destruct (main_ready _ _ _ _ _ _ Hr) as (Hmain & _ & Htr).
  destruct Hr as (_ & _ & _ & Hload & _).
  rewrite Hmain in Hok |- *. unfold from_walk in *.
  destruct (run_visits _ _ _) as [st [e|]] eqn:Hrun; [discriminate|].
  destruct (SaveArchivedFiles _ _ _ _) as [[fs' tr'] serr] eqn:Hsave.
  pose proof (SaveArchivedFiles_spec _ _ _ _ _ _ _ Hsave) as [-> _].
  destruct serr; [discriminate|].
  exists loaded, (Files (archived st)). split; [exact Hload|]. simpl.
  split; [apply (SaveArchivedFiles_lookup _ _ _ _ _ _ Hsave)|].
  destruct (run_files _ _ _ _ _ _ _ _ _ Hrun) as (new & Ht & Hf & _).
  simpl in Ht, Hf. split.
  - rewrite Hf, Ht, !uploaded_keys_app.
    destruct (quiet_uploaded _ Htr) as [-> _]. simpl.
    rewrite app_nil_r. reflexivity.
  - intros Hnd. apply (run_NoDup _ _ _ _ _ _ _ _ _ Hrun). exact Hnd.
Qed.

Lemma elems_option_map (f : string -> string) (o : option (list string)) :
  elems (option_map (map f) o) = map f (elems o).
Proof. destruct o; reflexivity. Qed.

(** A run that ended well and uploaded keys that are valid UTF-8 only
    leaves a manifest that reads as the keys it loaded followed by the
    keys it uploaded. *)
Lemma success_read_back flags env :
  exit_code (main flags env) = 0 ->
  Forall valid_utf8 (uploaded_keys (events (main flags env))) ->
  exists loaded L,
    LoadArchivedFiles (files env) (manifest_path flags) = (loaded, None) /\
    LoadArchivedFiles (disk (main flags env)) (manifest_path flags)
    = (L, None) /\
    elems (Files L)
    = elems (Files loaded) ++ uploaded_keys (events (main flags env)) /\
    (List.NoDup (elems (Files loaded)) -> List.NoDup (elems (Files L))).
Proof.
  intros Hok Hv.
  destruct (success_saved flags env Hok)
    as (loaded & saved & Hload & Hdisk & Hel & Hnd).
  exists loaded, {| Files := option_map (map Utf8.sanitize) saved |}.
  split; [exact Hload|]. split; [apply Load_saved, Hdisk|].
  assert (Hs : map Utf8.sanitize (elems saved) = elems saved).
  { apply map_valid. rewrite Hel. apply Forall_app. split; [|exact Hv].
    pose proof (LoadArchivedFiles_valid (files env) (manifest_path flags)) as H.
    rewrite Hload in H. exact H. }
  cbn [Files]. rewrite elems_option_map, Hs. split; [exact Hel | exact Hnd].
Qed.

(** After a run that wrote nothing, a run that ends well uploads again the
    keys the first run uploaded and the bucket does not list. *)
Lemma lost_keys_again flags env env' k :
  List.filter is_write (events (main flags env)) = [] ->
  tree env' = tree env -> files env' = disk (main flags env) ->
  exit_code (main flags env') = 0 ->
  In k (uploaded_keys (events (main flags env))) ->
  ~ In k (inventory env' (bucketName flags)) ->
  In k (uploaded_keys (events (main flags env'))).
Proof.
  intros Hnw Htree Hfiles Hok Hk Hnot.
  destruct (uploaded_keys_In _ _ Hk) as (p & b & Hup).
  destruct (main_uploads _ _ _ _ _ _ Hup)
    as (loaded & Hload & Hn & _ & Hkey & _ & info & Hvis & Hd).
  assert (Hload' : LoadArchivedFiles (files env') (manifest_path flags)
                   = (loaded, None)).
  { rewrite <- Hload. apply LoadArchivedFiles_lookup.
    rewrite Hfiles. apply unwritten_keeps, Hnw. }
  destruct (main_success flags env' Hok)
    as (fs' & tr' & loaded' & l' & st' & Hr' & Hrun' & Hmain').
  destruct (main_ready _ _ _ _ _ _ Hr') as (_ & _ & Htr').
  destruct Hr' as (_ & _ & _ & Hl' & Hlist').
  rewrite Hload' in Hl'. injection Hl' as <-.
  rewrite Htree in Hrun'.
  destruct (run_files _ _ _ _ _ _ _ _ _ Hrun') as (new & Ht & Hf & _).
  simpl in Ht, Hf.
  rewrite Hmain'. cbn [events]. rewrite Ht, !uploaded_keys_app.
  apply in_or_app. left. apply in_or_app. right.
  destruct (run_covered _ _ _ _ _ _ _ _ Hrun' _ _ Hvis Hd) as [Hm|Hin].
  - exfalso. apply Hnot.
    rewrite <- (ListS3Files_inventory _ _ _ Hlist').
    apply map_index_make. rewrite Hkey. exact Hm.
  - rewrite Hf, <- Hkey in Hin. apply in_app_or in Hin as [Hin|Hin];
      [contradiction | exact Hin].
Qed.

(** ** Cleaned paths *)

Lemma clean_step_ok (r : bool) (acc : list string) (e : string) :
  kept_ok r acc -> no_sep e -> kept_ok r (Filepath.clean_step r acc e).
Proof.
  intros Hok Hs. unfold Filepath.clean_step.
  destruct (String.eqb_spec e "") as [->|He]; [exact Hok|].
  destruct (String.eqb_spec e ".") as [->|Hd]; [exact Hok|]. cbn [orb].
  destruct (String.eqb_spec e "..") as [->|Hdd].
  - destruct acc as [|k acc'].
    + destruct r; simpl; auto.
      repeat split; auto; discriminate.
    + destruct (String.eqb_spec k "..") as [->|Hk].
      * destruct Hok as (Hok' & H1 & H2 & H3 & H4).
        destruct (H4 eq_refl) as [-> Hall].
        simpl. repeat split; auto.
      * apply Hok.
  - simpl. repeat split; auto; contradiction.
Qed.

Lemma fold_ok (r : bool) (l acc : list string) :
  kept_ok r acc -> Forall no_sep l ->
  kept_ok r (fold_left (Filepath.clean_step r) l acc).
Proof.
  revert acc. induction l as [|e l IH]; intros acc Hok Hl; [exact Hok|].
  simpl. apply Forall_cons in Hl as [He Hl].
  apply IH; [apply clean_step_ok; assumption | exact Hl].
Qed.

Lemma split_from_no_sep (cur s : string) :
  no_sep cur -> Forall no_sep (Filepath.split_from cur s).
Proof.
  revert cur. induction s as [|c s IH]; intros cur Hc; simpl.
  - constructor; [exact Hc | constructor].
  - destruct (Ascii.eqb c Filepath.Separator) eqn:E.
    + constructor; [exact Hc | apply IH; reflexivity].
    + apply IH. unfold no_sep. rewrite contains_app. simpl.
      rewrite Hc, E. reflexivity.
Qed.

Lemma kept_of (p : string) :
  kept_ok (Filepath.rooted p)
    (fold_left (Filepath.clean_step (Filepath.rooted p)) (Filepath.split p) []).
Proof.
  apply fold_ok; [exact I | apply split_from_no_sep; reflexivity].
Qed.

Lemma kept_ok_all (r : bool) (acc : list string) :
  kept_ok r acc -> Forall (fun e => e <> "" /\ no_sep e) acc.
Proof.
  induction acc as [|e acc IH]; [constructor|].
  intros (Hok & H1 & _ & H3 & _). constructor; auto.
Qed.

(** Cleaning what was kept keeps it all. *)
Lemma fold_kept (r : bool) (acc : list string) :
  kept_ok r acc -> fold_left (Filepath.clean_step r) (rev acc) [] = acc.
Proof.
  induction acc as [|e acc IH]; [reflexivity|].
  intros (Hok & H1 & H2 & H3 & H4). simpl.
  rewrite fold_left_app, (IH Hok). simpl. unfold Filepath.clean_step.
  destruct (String.eqb_spec e "") as [->|_]; [contradiction|].
  destruct (String.eqb_spec e ".") as [->|_]; [contradiction|]. cbn [orb].
  destruct (String.eqb_spec e "..") as [->|_]; [|reflexivity].
  destruct (H4 eq_refl) as [-> Hall].
  destruct acc as [|k acc']; [reflexivity|].
  apply Forall_cons in Hall as [-> _]. reflexivity.
Qed.

Lemma split_Join (l : list string) :
  l <> [] -> Forall no_sep l ->
  Filepath.split (Strings.Join l "/") = l.
Proof.
  induction l as [|e l IH]; [congruence|]. intros _ Hl.
  apply Forall_cons in Hl as [He Hl].
  destruct l as [|e2 l'].
  - simpl. unfold Filepath.split.
    rewrite (split_from_plain _ _ He), app_empty_l. reflexivity.
  - change (Strings.Join (e :: e2 :: l') "/")
      with (e +:+ String Filepath.Separator (Strings.Join (e2 :: l') "/")).
    unfold Filepath.split. rewrite split_from_app.
    rewrite (split_from_plain _ _ He), app_empty_l.
    change (Filepath.split_from "" (Strings.Join (e2 :: l') "/"))
      with (Filepath.split (Strings.Join (e2 :: l') "/")).
    rewrite IH; [reflexivity | discriminate | exact Hl].
Qed.

Lemma Join_first (e : string) (l : list string) :
  exists rest, Strings.Join (e :: l) "/" = e +:+ rest.
Proof.
  destruct l as [|e2 l'].
  - exists "". simpl. rewrite app_empty_r. reflexivity.
  - eexists. reflexivity.
Qed.

Lemma Join_not_empty (e : string) (l : list string) :
  e <> "" -> Strings.Join (e :: l) "/" <> "".
Proof.
  intros He. destruct (Join_first e l) as [rest ->].
  destruct e; [congruence|]. rewrite app_cons. discriminate.
Qed.

Lemma Join_not_rooted (e : string) (l : list string) :
  e <> "" -> no_sep e -> Filepath.rooted (Strings.Join (e :: l) "/") = false.
Proof.
  intros He Hs. destruct (Join_first e l) as [rest ->].
  destruct e as [|c e]; [congruence|]. rewrite app_cons. simpl.
  unfold no_sep in Hs. simpl in Hs. apply orb_false_iff in Hs as [Hc _].
  exact Hc.
Qed.

(** [filepath.Clean] changes nothing in a path that it has cleaned. *)
Lemma Clean_idempotent (p : string) :
  Filepath.Clean (Filepath.Clean p) = Filepath.Clean p.
Proof.
  pose proof (kept_of p) as Hok. pose proof (fold_kept _ _ Hok) as Hfold.
  pose proof (kept_ok_all _ _ Hok) as Hall.
  apply Forall_rev in Hall.
  unfold Filepath.Clean at 2 3.
  set (r := Filepath.rooted p) in *.
  set (acc := fold_left (Filepath.clean_step r) (Filepath.split p) []) in *.
  destruct (rev acc) as [|e kept] eqn:Hrev.
  - destruct r; reflexivity.
  - apply Forall_cons in Hall as [[He Hs] Hall].
    assert (Hsplit : Filepath.split (Strings.Join (e :: kept) "/") = e :: kept).
    { apply split_Join; [discriminate|].
      constructor; [exact Hs|].
      eapply Forall_impl; [exact Hall|]. intros x [_ Hx]. exact Hx. }
    destruct r.
    + unfold Filepath.Clean.
      change (Filepath.rooted ("/" +:+ Strings.Join (e :: kept) "/")) with true.
      change (Filepath.split ("/" +:+ Strings.Join (e :: kept) "/"))
        with ("" :: Filepath.split (Strings.Join (e :: kept) "/")).
      rewrite Hsplit.
      change (fold_left (Filepath.clean_step true) ("" :: e :: kept) [])
        with (fold_left (Filepath.clean_step true) (e :: kept) []).
      rewrite Hfold, Hrev. reflexivity.
    + destruct (String.eqb_spec (Strings.Join (e :: kept) "/") "") as [E|_];
        [destruct (Join_not_empty e kept He E)|].
      unfold Filepath.Clean.
      rewrite (Join_not_rooted e kept He Hs), Hsplit.
      rewrite Hfold, Hrev.
      destruct (String.eqb_spec (Strings.Join (e :: kept) "/") "") as [E|_];
        [destruct (Join_not_empty e kept He E) | reflexivity].
Qed.

(** ** Keys under a cleaned root *)

Lemma Clean_not_empty (p : string) : Filepath.Clean p = p -> p <> "".
Proof. intros H ->. discriminate. Qed.

Lemma join_prefix_clean (P : string) :
  Filepath.Clean P = P -> P <> "." ->
  join_prefix P = if String.eqb P "/" then "/" else P +:+ "/".
Proof.
  intros H Hd. pose proof (Clean_not_empty P H) as Hne.
  pose proof (kept_of P) as Hok.
  pose proof (kept_ok_all _ _ Hok) as Hall. apply Forall_rev in Hall.
  unfold Filepath.Clean in H. unfold join_prefix.
  destruct (String.eqb_spec P "") as [E|_]; [contradiction|].
  remember (Filepath.rooted P) as r eqn:Hr.
  remember (fold_left (Filepath.clean_step r) (Filepath.split P) []) as acc
    eqn:Hacc.
  destruct (rev acc) as [|e kept].
  - destruct r; [|cbn in H; congruence].
    cbn in H. rewrite <- H. reflexivity.
  - apply Forall_cons in Hall as [[He Hs] _].
    pose proof (Join_not_empty e kept He) as Hj.
    destruct r.
    + rewrite <- H.
      destruct (Strings.Join (e :: kept) "/") as [|c body] eqn:E;
        [congruence|].
      change ("/" +:+ String c body) with (String "/" (String c body)).
      cbn [String.eqb Ascii.eqb Bool.eqb].
      rewrite !app_cons, app_empty_l. reflexivity.
    + destruct (String.eqb_spec (Strings.Join (e :: kept) "/") "") as [E|_];
        [congruence|].
      rewrite <- H in Hr |- *. rewrite app_empty_l.
      destruct (String.eqb_spec (Strings.Join (e :: kept) "/") "/") as [E|_];
        [rewrite E in Hr; discriminate | reflexivity].
Qed.

(** A separator at the end of a path changes nothing in what
    [filepath.Join] puts before a name. *)
Lemma join_prefix_separator (c : string) :
  c <> "" -> join_prefix (c +:+ "/") = join_prefix c.
Proof.
  intros Hc. unfold join_prefix.
  destruct (String.eqb_spec c "") as [E|_]; [contradiction|].
  destruct (String.eqb_spec (c +:+ "/") "") as [E|_].
  { destruct c; [congruence | rewrite app_cons in E; discriminate]. }
  assert (Hr : Filepath.rooted (c +:+ "/") = Filepath.rooted c).
  { destruct c; [congruence | reflexivity]. }
  rewrite Hr. unfold Filepath.split.
  change (c +:+ "/") with (c +:+ String Filepath.Separator "").
  rewrite split_from_app, fold_left_app. reflexivity.
Qed.

Lemma plain_name_first (name : string) :
  plain_name name = true ->
  name <> "" /\ name <> "." /\ no_sep name /\ Filepath.rooted name = false.
Proof.
  unfold plain_name. intros H.
  apply andb_true_iff in H as [H _]. apply andb_true_iff in H as [H H2].
  apply andb_true_iff in H as [H0 H1]. apply negb_true_iff in H0, H1, H2.
  apply String.eqb_neq in H0, H2. repeat split; auto.
  destruct name as [|c name]; [reflexivity|]. simpl in *.
  apply orb_false_iff in H1 as [Hc _]. exact Hc.
Qed.

Lemma app_plain_not_short (x name : string) :
  plain_name name = true -> x +:+ name <> "." /\ x +:+ name <> "/".
Proof.
  intros Hn. destruct (plain_name_first name Hn) as (H0 & H1 & H2 & H3).
  assert (H : forall t, String.length t = 1 -> x +:+ name = t -> name = t).
  { intros t Ht E. pose proof (f_equal String.length E) as El.
    rewrite app_length, Ht in El.
    destruct x as [|a x]; [exact E|]. simpl in El.
    destruct name; [congruence | simpl in El; lia]. }
  split; intros E; apply H in E; try reflexivity; subst; [congruence|].
  discriminate.
Qed.

Lemma below_child (ld P rel name : string) :
  below ld P rel -> plain_name name = true ->
  below ld (Filepath.Join P name)
    (if String.eqb rel "" then name else rel +:+ "/" +:+ name).
Proof.
  intros Hb Hn.
  destruct (plain_name_first name Hn) as (Hne & _ & _ & Hnr).
  assert (Hclean : Filepath.Clean (Filepath.Join P name)
                   = Filepath.Join P name).
  { unfold Filepath.Join.
    destruct (String.eqb P ""); cbn [negb]; [|apply Clean_idempotent].
    destruct (String.eqb_spec name "") as [E|_]; [contradiction|].
    apply Clean_idempotent. }
  right. revert Hclean. rewrite (Join_plain P name Hn). intros Hclean.
  destruct (app_plain_not_short (join_prefix P) name Hn) as [Hd Hs].
  destruct Hb as [[-> ->]|(Hr0 & Hr1 & -> & HP & HPd & HPs)].
  - simpl. auto 10.
  - destruct (String.eqb_spec rel "") as [E|_]; [contradiction|].
    revert Hclean Hd Hs. rewrite (join_prefix_clean _ HP HPd).
    destruct (String.eqb_spec (join_prefix ld +:+ rel) "/") as [E|_];
      [contradiction|].
    rewrite !app_assoc_s. intros Hclean Hd Hs.
    repeat split; auto.
    + destruct rel; [congruence|]. rewrite app_cons. discriminate.
    + destruct rel; [congruence|]. rewrite app_cons. exact Hr1.
Qed.

Lemma TrimPrefix_app (s t : string) : Strings.TrimPrefix (s +:+ t) s = t.
Proof.
  unfold Strings.TrimPrefix.
  assert (H : Strings.HasPrefix (s +:+ t) s = true).
  { induction s as [|c s IH]; [destruct t; reflexivity|].
    rewrite app_cons. simpl. rewrite Ascii.eqb_refl. exact IH. }
  rewrite H. clear H.
  induction s as [|c s IH]; [reflexivity|]. rewrite app_cons. simpl. exact IH.
Qed.

Lemma subst_byte_same (c : ascii) (s : string) : subst_byte c c s = s.
Proof.
  induction s as [|a s IH]; [reflexivity|]. simpl. rewrite IH.
  destruct (Ascii.eqb_spec a c) as [->|_]; reflexivity.
Qed.

Lemma TrimPrefix_not_rooted (rel : string) :
  Filepath.rooted rel = false -> Strings.TrimPrefix rel "/" = rel.
Proof.
  destruct rel as [|c rel]; [reflexivity|]. cbn [Filepath.rooted]. intros H.
  unfold Strings.TrimPrefix. cbn [Strings.HasPrefix].
  rewrite Ascii.eqb_sym in H. unfold Filepath.Separator in H. rewrite H.
  reflexivity.
Qed.

Lemma TrimPrefix_separator (rel : string) :
  Strings.TrimPrefix (String "/" rel) "/" = rel.
Proof.
  unfold Strings.TrimPrefix. cbn [Strings.HasPrefix].
  rewrite Ascii.eqb_refl. destruct rel; reflexivity.
Qed.

(** The key of a path below a cleaned root. *)
Lemma s3KeyOf_cleaned (ld rel : string) :
  Filepath.Clean ld = ld -> ld <> "." ->
  Filepath.rooted rel = false ->
  s3KeyOf ld (join_prefix ld +:+ rel) = rel.
Proof.
  intros Hld Hd Hr1.
  unfold s3KeyOf, PathSeparator.
  rewrite ReplaceAll_byte, subst_byte_same.
  rewrite (join_prefix_clean ld Hld Hd).
  destruct (String.eqb_spec ld "/") as [->|_].
  - change ("/" +:+ rel) with (String "/" rel).
    rewrite TrimPrefix_separator.
    apply TrimPrefix_not_rooted, Hr1.
  - rewrite app_assoc_s, TrimPrefix_app.
    change ("/" +:+ rel) with (String "/" rel).
    apply TrimPrefix_separator.
Qed.

(** The key of a path below a cleaned root that is given with a separator
    at its end. *)
Lemma s3KeyOf_separator (c rel : string) :
  Filepath.Clean c = c -> c <> "." -> c <> "/" ->
  Filepath.rooted rel = false ->
  s3KeyOf (c +:+ "/") (join_prefix (c +:+ "/") +:+ rel) = rel.
Proof.
  intros Hc Hd Hs Hr1.
  unfold s3KeyOf, PathSeparator.
  rewrite ReplaceAll_byte, subst_byte_same.
  rewrite (join_prefix_separator c (Clean_not_empty c Hc)).
  rewrite (join_prefix_clean c Hc Hd).
  destruct (String.eqb_spec c "/") as [E|_]; [contradiction|].
  rewrite TrimPrefix_app. apply TrimPrefix_not_rooted, Hr1.
Qed.

Section Keys.
Variable ld : string.

Hypothesis key_below :
forall rel, Filepath.rooted rel = false ->
  s3KeyOf ld (join_prefix ld +:+ rel) = rel.

Lemma s3KeyOf_below (P rel : string) : below ld P rel -> s3KeyOf ld P = rel.
Proof.
intros [[-> ->]|(_ & Hr1 & -> & _)]; [apply s3KeyOf_root|].
apply key_below, Hr1.
Qed.

(** A key is the names from the root down to the entry, joined by [/]. *)
Lemma keys_below (n : node) :
forall P rel, below ld P rel -> plain_tree n = true ->
  file_keys ld (visits P n) = relative_keys rel n.
Proof.
induction n as [k|es IH|e|e] using node_ind; intros P rel Hb Hp.
- simpl. rewrite (s3KeyOf_below P rel Hb).
  destruct k; reflexivity.
- unfold file_keys in *.
  cbn [visits flat_map relative_keys IsDir dir_info Mode app].
  induction es as [|[name child] es IHes]; [reflexivity|].
  inversion IH as [|? ? Hc Hes]; subst. simpl in Hc.
  simpl in Hp. apply andb_true_iff in Hp as [Hp Hes'].
  apply andb_true_iff in Hp as [Hname Hchild].
  rewrite flat_map_app.
  rewrite (Hc _ _ (below_child ld P rel name Hb Hname) Hchild).
  f_equal. apply IHes; assumption.
- reflexivity.
- reflexivity.
Qed.

End Keys.

Lemma file_keys_In (ld p : string) (info : FileInfo) (vs : list visit) :
  In (p, Some info, None) vs -> IsDir info = false ->
  In (s3KeyOf ld p) (file_keys ld vs).
Proof.
  intros Hin Hd. unfold file_keys. apply in_flat_map.
  exists (p, Some info, None). split; [exact Hin|].
  rewrite Hd. left. reflexivity.
Qed.

(** ** Lemmas for the properties *)

Lemma visits_info (path : string) (n : node) (p : string) (info : FileInfo) :
  In (p, Some info, None) (visits path n) ->
  info = dir_info \/ exists kind, info = {| Mode := leaf_mode kind |}.
Proof.
  revert path. induction n as [k|es IH|e|e] using node_ind; intros path; simpl.
  - intros [[= <- <-]|[]]. right. exists k. reflexivity.
  - intros [[= <- <-]|Hin]; [left; reflexivity|].
    induction es as [|[name child] es IHes]; [destruct Hin|].
    inversion IH as [|? ? Hc Hes]; subst. simpl in Hc.
    apply in_app_or in Hin as [Hin|Hin]; [eapply Hc, Hin | apply IHes; auto].
  - intros [[=]|[]].
  - intros [[=]|[]].
Qed.

Lemma decided_keys_app (a c : list event) :
  decided_keys (a ++ c) = decided_keys a ++ decided_keys c.
Proof. apply flat_map_app. Qed.

(** A walk that returns no error decided about every entry that is no
    directory, once and in the order of the walk. *)
Lemma run_decided env u m ld b vs st st' :
  run_visits (walk_callback env u m ld b) vs st = (st', None) ->
  decided_keys (trace st') = decided_keys (trace st) ++ file_keys ld vs.
Proof.
  revert st. induction vs as [|[[p i] err] vs IH]; intros st.
  - intros [= <-]. unfold file_keys. simpl. rewrite app_nil_r. reflexivity.
  - cbn [run_visits]. unfold walk_callback at 1.
    change (file_keys ld ((p, i, err) :: vs))
      with (match i, err with
            | Some info, None => if IsDir info then [] else [s3KeyOf ld p]
            | _, _ => []
            end ++ file_keys ld vs).
    destruct err as [e|]; [discriminate|].
    destruct i as [info|]; [|discriminate].
    destruct (IsDir info); [apply IH|].
    destruct (map_index m (s3KeyOf ld p)).
    { intros H. rewrite (IH _ H). cbn [trace].
      rewrite decided_keys_app, <- app_assoc. reflexivity. }
    destruct (is_archived _ _).
    { intros H. rewrite (IH _ H). cbn [trace].
      rewrite decided_keys_app, <- app_assoc. reflexivity. }
    destruct (UploadFile env u p (s3KeyOf ld p) b); [discriminate|].
    intros H. rewrite (IH _ H). cbn [trace].
    rewrite decided_keys_app, <- app_assoc. reflexivity.
Qed.

Lemma decode_members_null (files : Json.slice)
    (ms : list (string * Json.value)) :
  (forall key v, In (key, v) ms -> Json.is_files_key key = true -> v = Json.Null) ->
  Json.decode_members files ms =
  (if existsb (fun kv => Json.is_files_key (fst kv)) ms
   then Json.Slice None [] else files,
   None).
Proof.
  revert files. induction ms as [|[key v] ms IH]; intros files Hall; simpl.
  - reflexivity.
  - destruct (Json.is_files_key key) eqn:Hk; simpl.
    + rewrite (Hall key v (or_introl eq_refl) Hk). simpl.
      rewrite IH by (intros; eapply Hall; eauto; right; eauto).
      destruct (existsb _ ms); reflexivity.
    + apply IH. intros; eapply Hall; eauto. right; eauto.
Qed.

Lemma decode_members_error (files : Json.slice)
    (ms : list (string * Json.value)) (key : string) (v : Json.value) :
  In (key, v) ms -> Json.is_files_key key = true ->
  snd (Json.decode_files (Json.Slice None []) v) <> None ->
  (forall old, snd (Json.decode_files old v) <> None) ->
  snd (Json.decode_members files ms) <> None.
Proof.
  intros Hin Hk _ Hv. revert files.
  induction ms as [|[key' v'] ms IH]; intros files; [destruct Hin|].
  simpl. destruct Hin as [[= -> ->]|Hin].
  - rewrite Hk. specialize (Hv files). revert Hv.
    destruct (Json.decode_files files v) as [f1 [e1|]]; simpl;
      [intros _|congruence].
    destruct (Json.decode_members f1 ms) as [f2 e2]. simpl. discriminate.
  - destruct (Json.is_files_key key').
    + destruct (Json.decode_files files v') as [f1 e1].
      specialize (IH Hin f1).
      destruct (Json.decode_members f1 ms) as [f2 e2]. simpl in *.
      destruct e1; [discriminate | exact IH].
    + apply IH, Hin.
Qed.

(** * The properties of the specification *)

(** C1: for a file of the walk the closure first looks for the key in the
    listing of the bucket (found: skipped, nothing uploaded), then in the
    key list of the manifest (found: skipped), and uploads the file only
    when the key is in neither; in a whole run no upload is ever called
    with a key of the listing (or of the manifest that was loaded). *)
Theorem reconciler_decision_order
    (env : Env) (uploader : S3Uploader) (s3Files : option (list string))
    (ld b path : string) (info : FileInfo) (st : WalkState) :
  IsDir info = false ->
  let key := s3KeyOf ld path in
  let call := walk_callback env uploader (make_s3FileMap s3Files) ld b
                path (Some info) None st in
  (In key (elems s3Files) ->
   call = ({| archived := archived st;
              trace := trace st ++ [SkipInS3 key] |}, None)) /\
  (~ In key (elems s3Files) -> In key (elems (Files (archived st))) ->
   call = ({| archived := archived st;
              trace := trace st ++ [SkipArchived key] |}, None)) /\
  (~ In key (elems s3Files) -> ~ In key (elems (Files (archived st))) ->
   call =
   match UploadFile env uploader path key b with
   | Some e => ({| archived := archived st;
                   trace := trace st ++ [UploadCall path key b (Some e)] |},
                Some e)
   | None => ({| archived := {| Files := append (Files (archived st)) key |};
                 trace := trace st ++ [UploadCall path key b None] |}, None)
   end) /\
  (forall flags env' p k b' r,
     In (UploadCall p k b' r) (events (main flags env')) ->
     exists s3Files' loaded,
       ListS3Files {| Client := s3 env' |} (bucketName flags)
       = (s3Files', None) /\
       LoadArchivedFiles (files env') (manifest_path flags) = (loaded, None) /\
       ~ In k (elems s3Files') /\ ~ In k (elems (Files loaded))).
Proof.
  intros Hd key call. subst call. unfold walk_callback. rewrite Hd.
  fold key. repeat split.
  - intros Hin. apply map_index_make in Hin. rewrite Hin. reflexivity.
  - intros Hn Hin.
    destruct (map_index _ key) eqn:Hm; [apply map_index_make in Hm; tauto|].
    apply is_archived_In in Hin. rewrite Hin. reflexivity.
  - intros Hn Hn'.
    destruct (map_index _ key) eqn:Hm; [apply map_index_make in Hm; tauto|].
    apply is_archived_false in Hn'. rewrite Hn'.
    destruct (UploadFile _ _ _ _ _); reflexivity.
  - intros flags env' p k b' r Hin.
    destruct (main_run flags env') as [fs tr Hfs Htr
      | fs tr loaded s3Files' st' werr Hfs Htr Hload Hlist Hwalk o Ho].
    + simpl in Hin. rewrite Forall_forall in Htr.
      apply list_elem_of_In in Hin.
      destruct (Htr _ Hin) as [Hu _]. discriminate.
    + assert (Hin' : In (UploadCall p k b' r) (trace st')).
      { destruct werr.
        - subst o. exact Hin.
        - destruct Ho as (fs' & serr & _ & ->). simpl in Hin.
          apply in_app_or in Hin as [Hin|[Hin|[]]]; [exact Hin | discriminate]. }
      exists s3Files', loaded. repeat split; auto.
      * destruct (run_uploads _ _ _ _ _ _ _ _ _ Hwalk _ _ _ _ Hin')
          as [Hold|(Hm & _)].
        -- simpl in Hold. rewrite Forall_forall in Htr.
           apply list_elem_of_In in Hold.
           destruct (Htr _ Hold) as [Hu _]. discriminate.
        -- intros Hk. apply map_index_make in Hk. congruence.
      * destruct (run_uploads _ _ _ _ _ _ _ _ _ Hwalk _ _ _ _ Hin')
          as [Hold|(_ & Hf & _)].
        -- simpl in Hold. rewrite Forall_forall in Htr.
           apply list_elem_of_In in Hold.
           destruct (Htr _ Hold) as [Hu _]. discriminate.
        -- exact Hf.
Qed.

Lemma reconciler_decision_order_witness :
  walk_callback (Sample.world ∅ Sample.local_tree (Sample.client ["a.txt"]))
    {| Client := Sample.client ["a.txt"] |} (make_s3FileMap (Some ["a.txt"]))
    "data" "bucket" "data/a.txt" (Some {| Mode := ModeRegular |}) None
    Sample.state
  = ({| archived := archived Sample.state;
        trace := [SkipInS3 "a.txt"] |}, None).
Proof.
  apply (proj1 (reconciler_decision_order
                  (Sample.world ∅ Sample.local_tree (Sample.client ["a.txt"]))
                  {| Client := Sample.client ["a.txt"] |} (Some ["a.txt"])
                  "data" "bucket" "data/a.txt" {| Mode := ModeRegular |}
                  Sample.state eq_refl)).
  simpl. left. reflexivity.
Defined.

(** C2: when a run ended well and the next run finds the same local tree,
    the manifest file the first run left, and a bucket that holds what it
    held plus the keys the first run uploaded, the next run calls no
    upload at all. *)
Theorem second_run_uploads_nothing (flags : Flags) (e1 e2 : Env) :
  exit_code (main flags e1) = 0 ->
  follows flags e1 e2 ->
  upload_keys (events (main flags e2)) = [].
Proof.
  intros Hok Hf.
  destruct (follows_first flags e1 e2 Hok Hf) as (L & _ & HL & Hv & Hcov).
  apply (proj1 (later_run flags e2 L HL Hv Hcov)).
Qed.

Lemma second_run_uploads_nothing_witness :
  upload_keys
    (events
       (main (Sample.flags "data")
          (Sample.world
             (disk (main (Sample.flags "data")
                      (Sample.world ∅ Sample.local_tree (Sample.client []))))
             Sample.local_tree (Sample.client ["a.txt"; "sub/b.txt"]))))
  = [].
Proof.
  apply (second_run_uploads_nothing (Sample.flags "data")
           (Sample.world ∅ Sample.local_tree (Sample.client []))).
  - vm_compute. reflexivity.
  - split; [reflexivity|]. split; [reflexivity|].
    intros k. vm_compute. tauto.
Defined.

(** C3 as stated fails: the manifest is empty, so without duplicates; the
    tree holds two files whose names are the bytes 0xFE and 0xFF; the run
    uploads both, under two distinct keys, and ends well; the manifest
    file it leaves holds U+FFFD for each of the two keys, and is read back
    as a list with the same key twice. *)
Lemma invalid_keys_read_back_as_duplicates :
  let flags := Sample.flags "data" in
  let e := Sample.world ∅ Sample.bytes_tree (Sample.client []) in
  LoadArchivedFiles (files e) (manifest_path flags)
  = ({| Files := Some [] |}, None) /\
  exit_code (main flags e) = 0 /\
  uploaded_keys (events (main flags e)) = [Sample.byte_fe; Sample.byte_ff] /\
  List.NoDup (uploaded_keys (events (main flags e))) /\
  LoadArchivedFiles (disk (main flags e)) (manifest_path flags)
  = ({| Files := Some [Utf8.replacement; Utf8.replacement] |}, None) /\
  ~ List.NoDup
      (elems (Files (fst (LoadArchivedFiles (disk (main flags e))
                            (manifest_path flags))))).
Proof.
  intros flags e.
  assert (H : LoadArchivedFiles (disk (main flags e)) (manifest_path flags)
              = ({| Files := Some [Utf8.replacement; Utf8.replacement] |},
                 None)) by (vm_compute; reflexivity).
  split; [vm_compute; reflexivity|]. split; [vm_compute; reflexivity|].
  split; [vm_compute; reflexivity|]. split; [|split; [exact H|]].
  - assert (Hu : uploaded_keys (events (main flags e))
                 = [Sample.byte_fe; Sample.byte_ff]) by (vm_compute; reflexivity).
    rewrite Hu. constructor; [|repeat constructor; intros []].
    intros [E|[]]. discriminate.
  - rewrite H. simpl. intros Hnd. inversion Hnd as [|x l Hin _]; subst.
    apply Hin. left. reflexivity.
Qed.

(** C3 (amended): the walk never makes a duplicate in the key list: the
    closure appends a key only when it is not in the list, so a list
    without duplicates stays so, whatever happens in the run. After a run
    that started from a manifest without duplicates, the manifest on disk
    reads back without duplicates when the keys the run uploaded are valid
    UTF-8 and no write of the manifest breaks off part-way. Over any
    number of runs that come one after the other, with the same local
    tree, a bucket that keeps what it held, surroundings that answer as
    they did and no write of the manifest that breaks off part-way, the
    manifest on disk after the last run reads as it did after the first
    run, whether that first run ended well or not. A call of the closure
    for a key that is in the list leaves the list as it is. *)
Theorem manifest_never_duplicates
    (flags : Flags) (e1 : Env) (later : list Env)
    (env : Env) (uploader : S3Uploader) (m : gmap string bool)
    (ld b root : string) (tree : node) (st : WalkState) :
  successive flags e1 later ->
  List.NoDup (elems (Files (archived st))) ->
  List.NoDup
    (elems (Files (archived
       (fst (Walker.Walk (walk_callback env uploader m ld b) root tree st))))) /\
  (forall L0,
     LoadArchivedFiles (files e1) (manifest_path flags) = (L0, None) ->
     List.NoDup (elems (Files L0)) ->
     exit_code (main flags e1) = 0 \/
     writes_whole e1 (manifest_path flags) ->
     Forall valid_utf8 (uploaded_keys (events (main flags e1))) ->
     exists L,
       LoadArchivedFiles (disk (main flags e1)) (manifest_path flags)
       = (L, None) /\
       List.NoDup (elems (Files L)) /\
       LoadArchivedFiles (disk (main flags (List.last later e1)))
         (manifest_path flags) = (L, None)) /\
  (exit_code (main flags e1) = 0 \/ writes_whole e1 (manifest_path flags) ->
   LoadArchivedFiles (disk (main flags (List.last later e1))) (manifest_path flags)
   = LoadArchivedFiles (disk (main flags e1)) (manifest_path flags)) /\
  (forall path info err,
     In (s3KeyOf ld path) (elems (Files (archived st))) ->
     archived (fst (walk_callback env uploader m ld b path info err st))
     = archived st).
Proof.
  intros Hs Hnd.
  assert (Hlast : exit_code (main flags e1) = 0 \/
                  writes_whole e1 (manifest_path flags) ->
            LoadArchivedFiles (disk (main flags (List.last later e1)))
              (manifest_path flags)
            = LoadArchivedFiles (disk (main flags e1)) (manifest_path flags)).
  { intros Hor.
    destruct (Nat.eq_dec (exit_code (main flags e1)) 0) as [Hok|Hfail].
    - destruct later as [|e2 later]; [reflexivity|].
      destruct Hs as (Hf & Hsame & Hs).
      destruct (follows_first flags e1 e2 Hok Hf) as (L & HL1 & HL & Hv & Hcov).
      rewrite last_cons, HL1.
      apply (successive_later flags later e2 L HL Hv Hcov); [|exact Hs].
      apply (same_writes_whole _ _ _ _ Hsame), success_writes_whole, Hok.
    - destruct Hor as [Hok|Hww]; [contradiction|].
      apply LoadArchivedFiles_lookup.
      rewrite (successive_failed flags later e1 Hs Hww Hfail).
      symmetry. apply failed_keeps; assumption. }
  split; [|split; [|split]].
  - rewrite Walk_callback.
    destruct (run_visits _ _ st) as [st' r] eqn:Hrun. simpl.
    eapply run_NoDup; eauto.
  - intros L0 HL0 Hnd0 Hor Hv.
    rewrite (Hlast Hor).
    destruct (Nat.eq_dec (exit_code (main flags e1)) 0) as [Hok|Hfail].
    + destruct (success_read_back flags e1 Hok Hv)
        as (loaded & L & Hload & HL & _ & HndL).
      rewrite HL0 in Hload. injection Hload as <-.
      exists L. auto.
    + destruct Hor as [Hok|Hww]; [contradiction|].
      assert (H : LoadArchivedFiles (disk (main flags e1)) (manifest_path flags)
                  = (L0, None)).
      { rewrite <- HL0.
        apply LoadArchivedFiles_lookup, failed_keeps; assumption. }
      exists L0. auto.
  - exact Hlast.
  - intros path info err Hin.
    unfold walk_callback.
    destruct err as [e|]; [reflexivity|].
    destruct info as [info|]; [|reflexivity].
    destruct (IsDir info); [reflexivity|].
    destruct (map_index m (s3KeyOf ld path)); [reflexivity|].
    apply is_archived_In in Hin. rewrite Hin. reflexivity.
Qed.

Lemma manifest_never_duplicates_witness :
  exists L,
    LoadArchivedFiles
      (disk (main (Sample.flags "data")
               (Sample.world ∅ Sample.local_tree (Sample.client []))))
      (manifest_path (Sample.flags "data")) = (L, None) /\
    List.NoDup (elems (Files L)) /\
    LoadArchivedFiles
      (disk
         (main (Sample.flags "data")
            (Sample.world
               (disk (main (Sample.flags "data")
                        (Sample.world ∅ Sample.local_tree (Sample.client []))))
               Sample.local_tree (Sample.client ["a.txt"; "sub/b.txt"]))))
      (manifest_path (Sample.flags "data")) = (L, None).
Proof.
  destruct (manifest_never_duplicates (Sample.flags "data")
           (Sample.world ∅ Sample.local_tree (Sample.client []))
           [Sample.world
              (disk (main (Sample.flags "data")
                       (Sample.world ∅ Sample.local_tree (Sample.client []))))
              Sample.local_tree (Sample.client ["a.txt"; "sub/b.txt"])]
           (Sample.world ∅ Sample.local_tree (Sample.client []))
           {| Client := Sample.client [] |} ∅ "data" "bucket" "data"
           Sample.local_tree Sample.state) as (_ & H & _).
  - split; [|split; [|exact I]].
    + split; [reflexivity|]. split; [reflexivity|].
      intros k. vm_compute. tauto.
    + repeat split; reflexivity.
  - repeat constructor. intros [].
  - apply (H {| Files := Some [] |}).
    + vm_compute. reflexivity.
    + constructor.
    + left. vm_compute. reflexivity.
    + vm_compute. repeat constructor.
Defined.

(** C4: with the root [./data] the keys are not the paths relative to the
    root: [filepath.Walk] gives the cleaned path [data/a.txt], from which
    the prefix [./data] is not trimmed. With the root [.] the file [.env]
    gets the key [env]: the walk gives the path [.env], whose first byte
    is trimmed as if it were the root. With the root [data] the keys are
    the relative paths. *)
Theorem noncanonical_root_keys :
  upload_keys
    (events (main (Sample.flags "./data")
               (Sample.world ∅ Sample.local_tree (Sample.client []))))
  = ["data/a.txt"; "data/sub/b.txt"] /\
  relative_keys "" Sample.local_tree = ["a.txt"; "sub/b.txt"] /\
  upload_keys
    (events (main (Sample.flags ".")
               (Sample.world ∅ (Dir [(".env", Leaf Regular)])
                  (Sample.client []))))
  = ["env"] /\
  relative_keys "" (Dir [(".env", Leaf Regular)]) = [".env"] /\
  upload_keys
    (events (main (Sample.flags "data")
               (Sample.world ∅ Sample.local_tree (Sample.client []))))
  = ["a.txt"; "sub/b.txt"].
Proof. repeat split; vm_compute; reflexivity. Qed.

(** C5: when the operating system finds no file at the location
    ([ENOENT]: the path or a directory on the way to it is not there) the
    manifest is empty and there is no error; contents that are not valid
    JSON give a syntax error; any other error of the read is returned as
    it is, such as the one for a path that leads through a regular file
    ([ENOTDIR]), through a directory that may not be searched, or to a
    directory; and [main] stops with status 1, before any upload or write,
    on an error of the load. *)
Theorem LoadArchivedFiles_errors (fs : FileSystem) (filename : string) :
  (lookup_path fs filename = inl ENOENT ->
   LoadArchivedFiles fs filename = ({| Files := Some [] |}, None)) /\
  (forall data, fs !! filename = Some (FFile data) ->
     Json.parse data = None ->
     exists msg,
       LoadArchivedFiles fs filename = ({| Files := None |}, Some (SyntaxError msg))) /\
  (forall e, snd (ReadFile fs filename) = Some e ->
     IsNotExist (Some e) = false ->
     LoadArchivedFiles fs filename = ({| Files := None |}, Some e)) /\
  (forall e, lookup_path fs filename = inl e -> e <> ENOENT ->
     LoadArchivedFiles fs filename
     = ({| Files := None |}, Some (PathError "open" filename e))) /\
  (forall x, fs !! filename = Some x -> is_dir x = true ->
     LoadArchivedFiles fs filename
     = ({| Files := None |}, Some (PathError "read" filename EISDIR))) /\
  (forall flags env e,
     files env = fs -> manifest_path flags = filename ->
     snd (LoadArchivedFiles fs filename) = Some e ->
     exit_code (main flags env) = 1 /\
     Forall (fun ev => is_upload ev = false /\ is_write ev = false)
       (events (main flags env))).
Proof.
  split; [|split; [|split; [|split; [|split]]]].
  - intros H. unfold LoadArchivedFiles, ReadFile. rewrite H. reflexivity.
  - intros data H Hp. apply lookup_Some in H.
    unfold LoadArchivedFiles, ReadFile, Json.Unmarshal.
    rewrite H, Hp. eexists. reflexivity.
  - intros e He Hn. unfold LoadArchivedFiles.
    destruct (ReadFile fs filename) as [data err]. simpl in He. subst err.
    rewrite Hn. reflexivity.
  - intros e H He. unfold LoadArchivedFiles, ReadFile. rewrite H.
    destruct e; try reflexivity. congruence.
  - intros x H Hd. apply lookup_Some in H.
    unfold LoadArchivedFiles, ReadFile. rewrite H.
    destruct x; try discriminate; reflexivity.
  - intros flags env e Hfs Hp He.
    destruct (main_run flags env) as [fs' tr _ Htr
      | fs' tr loaded s3Files' st' werr _ Htr Hload Hlist Hwalk o Ho].
    + split; [reflexivity | exact Htr].
    + subst. rewrite Hload in He. discriminate.
Qed.

Lemma LoadArchivedFiles_errors_witness :
  LoadArchivedFiles {[ "m.json" := FFile "{ not json" ]} "m.json"
  = ({| Files := None |}, Some (SyntaxError "invalid JSON input")) /\
  LoadArchivedFiles ∅ "m.json" = ({| Files := Some [] |}, None) /\
  LoadArchivedFiles {[ "m.json" := FDir ]} "m.json"
  = ({| Files := None |}, Some (PathError "read" "m.json" EISDIR)) /\
  LoadArchivedFiles {[ "archives" := FFile "x" ]} "archives/data.json"
  = ({| Files := None |},
     Some (PathError "open" "archives/data.json" ENOTDIR)) /\
  exit_code
    (main (Sample.flags "data")
       (Sample.world {[ "archives" := FFile "x" ]} Sample.local_tree
          (Sample.client []))) = 1.
Proof.
  pose proof (LoadArchivedFiles_errors {[ "m.json" := FFile "{ not json" ]}
                "m.json") as (_ & H2 & _).
  destruct (H2 "{ not json" eq_refl eq_refl) as [msg Hmsg].
  split; [|split; [|split; [|split]]].
  - rewrite Hmsg. vm_compute in Hmsg. injection Hmsg as <-. reflexivity.
  - apply (proj1 (LoadArchivedFiles_errors ∅ "m.json")). reflexivity.
  - apply (proj1 (proj2 (proj2 (LoadArchivedFiles_errors
                                  {[ "m.json" := FDir ]} "m.json"))));
      reflexivity.
  - apply (proj1 (proj2 (proj2 (proj2 (LoadArchivedFiles_errors
             {[ "archives" := FFile "x" ]} "archives/data.json"))))).
    + reflexivity.
    + discriminate.
  - apply (proj2 (proj2 (proj2 (proj2 (proj2 (LoadArchivedFiles_errors
             {[ "archives" := FFile "x" ]} "archives/data.json")))))
             (Sample.flags "data")
             (Sample.world {[ "archives" := FFile "x" ]} Sample.local_tree
                (Sample.client []))
             (PathError "open" "archives/data.json" ENOTDIR));
      reflexivity.
Defined.

(** C6: when a page of the listing fails, [ListS3Files] returns no key at
    all together with the error, and the run ends with status 1 without
    any upload and without any write: the manifest file is as before. *)
Theorem listing_failure_aborts (flags : Flags) (env : Env) (msg : string) :
  In (PageErr msg)
     (fst (ListObjectsV2 (s3 env) (bucketName flags))
      :: snd (ListObjectsV2 (s3 env) (bucketName flags))) ->
  (exists msg',
     ListS3Files {| Client := s3 env |} (bucketName flags)
     = (None, Some (BackendError msg'))) /\
  exit_code (main flags env) = 1 /\
  Forall (fun ev => is_upload ev = false /\ is_write ev = false)
    (events (main flags env)) /\
  disk (main flags env) !! manifest_path flags
  = files env !! manifest_path flags.
Proof.
  intros Hin.
  assert (Hl : exists msg',
             ListS3Files {| Client := s3 env |} (bucketName flags)
             = (None, Some (BackendError msg'))).
  { unfold ListS3Files. simpl.
    destruct (ListObjectsV2 (s3 env) (bucketName flags)) as [resp more].
    apply list_pages_error. exists msg. exact Hin. }
  split; [exact Hl|]. destruct Hl as [msg' Hl].
  destruct (main_run flags env) as [fs' tr Hfs Htr
    | fs' tr loaded s3Files' st' werr Hfs Htr Hload Hlist Hwalk o Ho].
  - split; [reflexivity|]. split; [exact Htr|].
    apply lookup_path_lookup, Hfs.
  - rewrite Hl in Hlist. discriminate.
Qed.

Lemma listing_failure_aborts_witness :
  exit_code (main (Sample.flags "data")
               (Sample.world ∅ Sample.local_tree Sample.failing_client)) = 1 /\
  events (main (Sample.flags "data")
            (Sample.world ∅ Sample.local_tree Sample.failing_client))
  = [MkdirCall "archives" None].
Proof.
  split.
  - apply (listing_failure_aborts (Sample.flags "data")
             (Sample.world ∅ Sample.local_tree Sample.failing_client)
             "timeout").
    simpl. right. left. reflexivity.
  - vm_compute. reflexivity.
Defined.

(** C7 as stated fails: the first run uploads [a.txt] and then fails on
    [sub/b.txt]; nothing is written; the bucket kept [a.txt] and lists it
    for the next run, which passes it and does not upload it again. *)
Lemma uploaded_key_is_not_retried :
  let flags := Sample.flags "data" in
  let e1 := Sample.world ∅ Sample.local_tree
              (Sample.refusing_only [] "sub/b.txt") in
  let e2 := Sample.world (disk (main flags e1)) Sample.local_tree
              (Sample.refusing_only ["a.txt"] "sub/b.txt") in
  exit_code (main flags e1) = 1 /\
  uploaded_keys (events (main flags e1)) = ["a.txt"] /\
  List.filter is_write (events (main flags e1)) = [] /\
  follows flags e1 e2 /\
  LoadArchivedFiles (files e2) (manifest_path flags)
  = ({| Files := Some [] |}, None) /\
  upload_keys (events (main flags e2)) = ["sub/b.txt"].
Proof.
  intros flags e1 e2.
  split; [vm_compute; reflexivity|]. split; [vm_compute; reflexivity|].
  split; [vm_compute; reflexivity|]. split; [|split; vm_compute; reflexivity].
  split; [reflexivity|]. split; [reflexivity|].
  intros k. vm_compute. tauto.
Qed.

(** C7 (amended): an upload that fails ends the walk and adds no key; the
    manifest file is written at most once in a run, and never when an
    upload failed or when the tree holds an entry that cannot be examined
    or read: the run then ends with status 1, and a run that wrote nothing
    leaves the manifest file as it was, so that the keys uploaded in that
    run are not in the manifest the next run loads. The next run does not
    upload them again when the bucket lists them, as it does when it kept
    them; it uploads them again, if it ends well, when the bucket does not
    list them. *)
Theorem manifest_written_once_after_walk (flags : Flags) (env : Env) :
  let o := main flags env in
  length (List.filter is_write (events o)) <= 1 /\
  (forall p k b e, In (UploadCall p k b (Some e)) (events o) ->
     exit_code o = 1 /\ List.filter is_write (events o) = [] /\
     disk o !! manifest_path flags = files env !! manifest_path flags) /\
  (has_fault (tree env) = true ->
     exit_code o = 1 /\ List.filter is_write (events o) = [] /\
     disk o !! manifest_path flags = files env !! manifest_path flags) /\
  (List.filter is_write (events o) = [] ->
     exit_code o = 1 /\
     disk o !! manifest_path flags = files env !! manifest_path flags /\
     LoadArchivedFiles (disk o) (manifest_path flags)
     = LoadArchivedFiles (files env) (manifest_path flags)) /\
  (forall k L, List.filter is_write (events o) = [] ->
     In k (uploaded_keys (events o)) ->
     LoadArchivedFiles (disk o) (manifest_path flags) = (L, None) ->
     ~ In k (elems (Files L))) /\
  (forall uploader m path info st e,
     IsDir info = false ->
     map_index m (s3KeyOf (localDirectory flags) path) = false ->
     ~ In (s3KeyOf (localDirectory flags) path) (elems (Files (archived st))) ->
     UploadFile env uploader path (s3KeyOf (localDirectory flags) path)
       (bucketName flags) = Some e ->
     exists st',
       walk_callback env uploader m (localDirectory flags) (bucketName flags)
         path (Some info) None st = (st', Some e) /\
       archived st' = archived st) /\
  (forall env' k,
     In k (inventory env' (bucketName flags)) ->
     ~ In k (upload_keys (events (main flags env')))) /\
  (forall env' k,
     follows flags env env' ->
     In k (uploaded_keys (events o)) ->
     In k (inventory env' (bucketName flags)) /\
     ~ In k (upload_keys (events (main flags env')))) /\
  (forall env' k,
     List.filter is_write (events o) = [] ->
     tree env' = tree env -> files env' = disk o ->
     exit_code (main flags env') = 0 ->
     In k (uploaded_keys (events o)) ->
     ~ In k (inventory env' (bucketName flags)) ->
     In k (uploaded_keys (events (main flags env')))).
Proof.
  intros o. subst o.
  assert (Hq : forall tr, Forall quiet tr -> List.filter is_write tr = []).
  { induction 1 as [|ev tr [_ Hw] _ IH]; [reflexivity|].
    simpl. rewrite Hw. exact IH. }
  assert (Hq' : forall tr, Forall (fun ev => is_write ev = false) tr ->
                           List.filter is_write tr = []).
  { induction 1 as [|ev tr Hw _ IH]; [reflexivity|].
    simpl. rewrite Hw. exact IH. }
  assert (Hqu : forall tr p k b e, Forall quiet tr ->
                                   ~ In (UploadCall p k b e) tr).
  { intros tr p k b e Htr Hin. rewrite Forall_forall in Htr.
    apply list_elem_of_In in Hin. destruct (Htr _ Hin). discriminate. }
  assert (Hcb : forall uploader m path info st e,
     IsDir info = false ->
     map_index m (s3KeyOf (localDirectory flags) path) = false ->
     ~ In (s3KeyOf (localDirectory flags) path) (elems (Files (archived st))) ->
     UploadFile env uploader path (s3KeyOf (localDirectory flags) path)
       (bucketName flags) = Some e ->
     exists st',
       walk_callback env uploader m (localDirectory flags) (bucketName flags)
         path (Some info) None st = (st', Some e) /\
       archived st' = archived st).
  { intros uploader m path info st e Hd Hm Hn Hu.
    unfold walk_callback. rewrite Hd, Hm.
    apply is_archived_false in Hn. rewrite Hn, Hu. eexists. split; reflexivity. }
  assert (Hkeep : List.filter is_write (events (main flags env)) = [] ->
            disk (main flags env) !! manifest_path flags
            = files env !! manifest_path flags /\
            LoadArchivedFiles (disk (main flags env)) (manifest_path flags)
            = LoadArchivedFiles (files env) (manifest_path flags)).
  { intros H. pose proof (unwritten_keeps flags env H) as Hk.
    split; [apply lookup_path_lookup | apply LoadArchivedFiles_lookup];
      exact Hk. }
  assert (Hlisted : forall env' k,
     In k (inventory env' (bucketName flags)) ->
     ~ In k (upload_keys (events (main flags env')))).
  { intros env' k Hk Hup.
    destruct (upload_keys_In _ _ Hup) as (p0 & b0 & r0 & Hin).
    apply (uploads_not_listed _ _ _ _ _ _ Hin), Hk. }
  assert (Hnext : forall env' k,
     follows flags env env' ->
     In k (uploaded_keys (events (main flags env))) ->
     In k (inventory env' (bucketName flags)) /\
     ~ In k (upload_keys (events (main flags env')))).
  { intros env' k Hf Hk. split; [|eapply kept_keys_skipped; eauto].
    destruct Hf as (_ & _ & Hinv). apply Hinv. right. exact Hk. }
  assert (Hagain : forall env' k,
     List.filter is_write (events (main flags env)) = [] ->
     tree env' = tree env -> files env' = disk (main flags env) ->
     exit_code (main flags env') = 0 ->
     In k (uploaded_keys (events (main flags env))) ->
     ~ In k (inventory env' (bucketName flags)) ->
     In k (uploaded_keys (events (main flags env')))).
  { intros env' k. apply lost_keys_again. }
  revert Hkeep Hlisted Hnext Hagain.
  destruct (main_run flags env) as [fs' tr Hfs Htr
    | fs' tr loaded s3Files' st' werr Hfs Htr Hload Hlist Hwalk o Ho];
    intros Hkeep Hlisted Hnext Hagain.
  - simpl in *. rewrite (Hq _ Htr) in *.
    destruct (Hkeep eq_refl) as [Hk1 Hk2].
    split; [simpl; lia|].
    split; [|split; [|split; [|split; [|split; [|split; [|split]]]]]]; auto.
    intros k L _ Hin. destruct (quiet_uploaded _ Htr) as [Hu _].
    rewrite Hu in Hin. destruct Hin.
  - destruct (run_files _ _ _ _ _ _ _ _ _ Hwalk) as (new & Ht & _ & _ & Hnw).
    simpl in Ht.
    assert (Hwt : List.filter is_write (trace st') = []).
    { rewrite Ht, List.filter_app, (Hq _ Htr), (Hq' _ Hnw). reflexivity. }
    assert (Hlost : forall k L, In k (uploaded_keys (trace st')) ->
              LoadArchivedFiles fs' (manifest_path flags) = (L, None) ->
              ~ In k (elems (Files L))).
    { intros k L Hin HL.
      rewrite (LoadArchivedFiles_lookup _ _ _ Hfs), Hload in HL.
      injection HL as <-.
      destruct (uploaded_keys_In _ _ Hin) as (p & b & Hup).
      destruct (run_uploads _ _ _ _ _ _ _ _ _ Hwalk _ _ _ _ Hup)
        as [Hold|(_ & Hn & _)]; [|exact Hn].
      exfalso. eapply Hqu; eauto. }
    destruct werr as [e0|].
    + subst o. simpl in *. rewrite Hwt in *.
      destruct (Hkeep eq_refl) as [Hk1 Hk2].
      split; [simpl; lia|].
      split; [|split; [|split; [|split; [|split; [|split; [|split]]]]]]; auto.
    + destruct Ho as (fs'' & serr & Hsave & ->). simpl in *.
      rewrite List.filter_app, Hwt in *. simpl in *. split; [lia|].
      split; [|split; [|split; [|split; [|split; [|split; [|split]]]]]]; auto.
      * intros p k b e H. exfalso.
        apply in_app_or in H as [H|[H|[]]]; [|discriminate].
        destruct (run_upload_failed _ _ _ _ _ _ _ _ _ _ _ _ _ Hwalk H) as [H'|H'].
        -- simpl in H'. eapply Hqu; eauto.
        -- congruence.
      * intros H. exfalso.
        destruct (has_fault_visits (localDirectory flags) _ H)
          as (p & i & e & Hin).
        eapply run_fault in Hwalk; eauto.
      * discriminate.
      * discriminate.
Qed.

Lemma manifest_written_once_after_walk_witness :
  exit_code (main (Sample.flags "data")
               (Sample.world ∅ Sample.local_tree Sample.refusing_client)) = 1 /\
  List.filter is_write
    (events (main (Sample.flags "data")
               (Sample.world ∅ Sample.local_tree Sample.refusing_client))) = [] /\
  disk (main (Sample.flags "data")
          (Sample.world ∅ Sample.local_tree Sample.refusing_client))
    !! manifest_path (Sample.flags "data")
  = files (Sample.world ∅ Sample.local_tree Sample.refusing_client)
      !! manifest_path (Sample.flags "data").
Proof.
  apply (proj1 (proj2 (manifest_written_once_after_walk (Sample.flags "data")
           (Sample.world ∅ Sample.local_tree Sample.refusing_client)))
           "data/a.txt" "a.txt" "bucket"
           (Errorf "failed to upload a.txt to S3" (BackendError "AccessDenied"))).
  vm_compute. right. left. reflexivity.
Defined.

(** C8 as stated fails: two roots with the same default manifest file. *)
Lemma manifest_path_collision :
  "a/b" <> "a_b" /\
  GenerateArchiveFilePath "archives" "a/b"
  = GenerateArchiveFilePath "archives" "a_b".
Proof. split; [discriminate | reflexivity]. Qed.

(** C8 (amended): [GenerateArchiveFilePath] gives distinct manifest files
    to distinct roots that hold neither [_] nor [-]. *)
Theorem manifest_path_injective (archiveDir d1 d2 : string) :
  Strings.contains "_" d1 = false -> Strings.contains "-" d1 = false ->
  Strings.contains "_" d2 = false -> Strings.contains "-" d2 = false ->
  d1 <> d2 ->
  GenerateArchiveFilePath archiveDir d1 <> GenerateArchiveFilePath archiveDir d2.
Proof.
  intros Hu1 Hm1 Hu2 Hm2 Hne H. apply Hne.
  rewrite !GenerateArchiveFilePath_eq in H.
  apply (inj (String.app _)) in H. unfold manifest_name in H.
  apply app_inv_r in H.
  apply subst_byte_inj in H;
    [|apply subst_byte_keeps; [discriminate | assumption]..].
  apply subst_byte_inj in H; assumption.
Qed.

Lemma manifest_path_injective_witness :
  GenerateArchiveFilePath "archives" "/home/a/photos"
  <> GenerateArchiveFilePath "archives" "/home/b/photos".
Proof.
  apply manifest_path_injective; try reflexivity. discriminate.
Defined.

(** C9 (amended): the closure passes directories and treats every entry
    that is no directory as a candidate, whatever its kind (regular file,
    symbolic link, named pipe, socket, device): a walk that returns no
    error has decided about each of these entries, once and in the order
    of the walk, and about nothing else; an upload is only ever called for
    such an entry of the tree; an entry that cannot be examined or read
    ends the walk with its error, on the spot. *)
Theorem walk_yields_non_directories
    (env : Env) (uploader : S3Uploader) (m : gmap string bool)
    (ld b root : string) (tree : node) (st : WalkState) :
  let cb := walk_callback env uploader m ld b in
  let res := Walker.Walk cb root tree st in
  (snd res = None ->
   decided_keys (trace (fst res))
   = decided_keys (trace st) ++ file_keys ld (visits root tree)) /\
  (forall kind path,
     file_keys ld [(path, Some {| Mode := leaf_mode kind |}, None)]
     = [s3KeyOf ld path]) /\
  (forall p k b' r, In (UploadCall p k b' r) (trace (fst res)) ->
     In (UploadCall p k b' r) (trace st) \/
     exists kind,
       In (p, Some {| Mode := leaf_mode kind |}, None) (visits root tree)) /\
  (forall path st0, cb path (Some dir_info) None st0 = (st0, None)) /\
  (forall kind path st0,
     cb path (Some {| Mode := leaf_mode kind |}) None st0
     = cb path (Some {| Mode := ModeRegular |}) None st0) /\
  (has_fault tree = true -> snd res <> None) /\
  (forall before p i e after st1,
     visits root tree = before ++ (p, i, Some e) :: after ->
     run_visits cb before st = (st1, None) ->
     res = (st1, Some e)).
Proof.
  intros cb res. subst res cb. rewrite Walk_callback.
  split; [|split; [|split; [|split; [|split; [|split]]]]].
  - destruct (run_visits _ _ st) as [st' r'] eqn:Hrun. simpl.
    intros ->. apply (run_decided _ _ _ _ _ _ _ _ Hrun).
  - intros kind path. destruct kind; reflexivity.
  - intros p k b' r Hin.
    destruct (run_visits _ _ st) as [st' r'] eqn:Hrun. simpl in Hin.
    destruct (run_uploads _ _ _ _ _ _ _ _ _ Hrun _ _ _ _ Hin)
      as [H|(_ & _ & _ & _ & _ & info & Hi & Hd)]; [left; exact H|].
    right. destruct (visits_info _ _ _ _ Hi) as [->|[kind ->]];
      [discriminate|].
    exists kind. exact Hi.
  - reflexivity.
  - intros kind path st0. destruct kind; reflexivity.
  - intros Hf. destruct (has_fault_visits root _ Hf) as (p & i & e & Hin).
    destruct (run_visits _ _ st) as [st' r'] eqn:Hrun. simpl.
    eapply run_fault; eauto.
  - intros before p i e after st1 Hv Hrun.
    rewrite Hv, run_visits_app, Hrun. simpl. reflexivity.
Qed.

Lemma walk_yields_non_directories_witness :
  decided_keys
    (trace
       (fst (Walker.Walk
               (walk_callback
                  (Sample.world ∅
                     (Dir [("link", Leaf Symlink); ("pipe", Leaf NamedPipe);
                           ("sub", Dir [("b.txt", Leaf Regular)])])
                     (Sample.client ["pipe"]))
                  {| Client := Sample.client ["pipe"] |}
                  (make_s3FileMap (Some ["pipe"])) "data" "bucket")
               "data"
               (Dir [("link", Leaf Symlink); ("pipe", Leaf NamedPipe);
                     ("sub", Dir [("b.txt", Leaf Regular)])])
               {| archived := {| Files := Some ["sub/b.txt"] |};
                  trace := [] |})))
  = ["link"; "pipe"; "sub/b.txt"].
Proof.
  apply (proj1 (walk_yields_non_directories
           (Sample.world ∅
              (Dir [("link", Leaf Symlink); ("pipe", Leaf NamedPipe);
                    ("sub", Dir [("b.txt", Leaf Regular)])])
              (Sample.client ["pipe"]))
           {| Client := Sample.client ["pipe"] |}
           (make_s3FileMap (Some ["pipe"])) "data" "bucket" "data"
           (Dir [("link", Leaf Symlink); ("pipe", Leaf NamedPipe);
                 ("sub", Dir [("b.txt", Leaf Regular)])])
           {| archived := {| Files := Some ["sub/b.txt"] |}; trace := [] |})).
  vm_compute. reflexivity.
Defined.

(** C9 as stated fails: a symbolic link and a named pipe are uploaded. *)
Lemma non_regular_entries_are_uploaded :
  upload_keys
    (events
       (main (Sample.flags "data")
          (Sample.world ∅
             (Dir [("link", Leaf Symlink); ("pipe", Leaf NamedPipe)])
             (Sample.client []))))
  = ["link"; "pipe"].
Proof. vm_compute. reflexivity. Qed.

(** C10 (amended): a manifest file that holds a JSON object in which no
    member selects the field [files], or every member that does is [null]
    (such as the empty object), or that holds [null], is loaded without
    error as a manifest with a nil key list. Contents that are not valid
    JSON are rejected, and so are valid ones of another shape: a top-level
    value that is neither an object nor [null], and a [files] member that
    is neither [null] nor an array. *)
Theorem load_without_files (fs : FileSystem) (filename data : string) :
  fs !! filename = Some (FFile data) ->
  (forall ms, Json.parse data = Some (Json.Object ms) ->
     (forall key v, In (key, v) ms -> Json.is_files_key key = true ->
                    v = Json.Null) ->
     LoadArchivedFiles fs filename = ({| Files := None |}, None)) /\
  (Json.parse data = Some Json.Null ->
     LoadArchivedFiles fs filename = ({| Files := None |}, None)) /\
  (Json.parse data = None ->
     exists msg,
       LoadArchivedFiles fs filename
       = ({| Files := None |}, Some (SyntaxError msg))) /\
  (forall v, Json.parse data = Some v -> is_object_or_null v = false ->
     LoadArchivedFiles fs filename
     = ({| Files := None |}, Some (UnmarshalTypeError (Json.describe v)))) /\
  (forall ms key v, Json.parse data = Some (Json.Object ms) ->
     In (key, v) ms -> Json.is_files_key key = true ->
     is_array_or_null v = false ->
     snd (LoadArchivedFiles fs filename) <> None).
Proof.
  intros Hfs. apply lookup_Some in Hfs.
  unfold LoadArchivedFiles, ReadFile, Json.Unmarshal.
  rewrite Hfs. simpl. split; [|split; [|split; [|split]]].
  - intros ms -> Hall. simpl. rewrite decode_members_null by exact Hall.
    destruct (existsb _ ms); reflexivity.
  - intros ->. reflexivity.
  - intros ->. eexists. reflexivity.
  - intros v -> Hv. destruct v; try discriminate; reflexivity.
  - intros ms key v -> Hin Hk Hv. simpl.
    pose proof (decode_members_error (Json.Slice None []) ms key v Hin Hk) as H.
    revert H. destruct (Json.decode_members (Json.Slice None []) ms) as [f e].
    simpl.
    intros H. apply H; [|intros old]; destruct v; try discriminate;
      simpl; discriminate.
Qed.

Lemma load_without_files_witness :
  LoadArchivedFiles {[ "m.json" := FFile "{}" ]} "m.json"
  = ({| Files := None |}, None).
Proof.
  assert (H : ({[ "m.json" := FFile "{}" ]} : FileSystem) !! "m.json"
              = Some (FFile "{}")) by (vm_compute; reflexivity).
  apply (proj1 (load_without_files _ "m.json" "{}" H) []).
  - vm_compute. reflexivity.
  - intros key v [].
Defined.

(** C10 as stated fails: these contents are valid JSON without a field
    [files], and valid JSON with one, and loading them is an error. *)
Lemma valid_json_is_rejected :
  Json.parse "[]" = Some (Json.Array []) /\
  LoadArchivedFiles {[ "m.json" := FFile "[]" ]} "m.json"
  = ({| Files := None |}, Some (UnmarshalTypeError "array")) /\
  Json.parse ("{" +:+ Json.quote "files" +:+ ": 5}")
  = Some (Json.Object [("files", Json.Number "5")]) /\
  LoadArchivedFiles
    {[ "m.json" := FFile ("{" +:+ Json.quote "files" +:+ ": 5}") ]} "m.json"
  = ({| Files := None |}, Some (UnmarshalTypeError "number")).
Proof. repeat split; vm_compute; reflexivity. Qed.

(** * Further properties of the code *)

(** X1: a manifest that [SaveArchivedFiles] wrote is read back by
    [LoadArchivedFiles] without error, a nil key list as a nil one, an
    empty one as an empty one, each key with its bytes that are not UTF-8
    replaced by U+FFFD: a manifest whose keys are valid UTF-8 comes back
    as it was saved. *)
Theorem save_then_load (env : Env) (fs fs' : FileSystem)
    (filename : string) (a : ArchivedFiles) (tr : list event) :
  SaveArchivedFiles env fs filename a = (fs', tr, None) ->
  LoadArchivedFiles fs' filename
  = ({| Files := option_map (map Utf8.sanitize) (Files a) |}, None) /\
  (Forall valid_utf8 (elems (Files a)) ->
   LoadArchivedFiles fs' filename = (a, None)).
Proof.
  intros Hsave. apply SaveArchivedFiles_lookup in Hsave.
  split; [apply Load_saved | apply Load_saved_valid]; exact Hsave.
Qed.

Lemma save_then_load_witness :
  LoadArchivedFiles
    (<["m.json" :=
         FFile (Json.MarshalIndent (Some ["a.txt"; "sub/b.txt"]))]> ∅)
    "m.json"
  = ({| Files := Some ["a.txt"; "sub/b.txt"] |}, None).
Proof.
  assert (H : SaveArchivedFiles
                (Sample.world ∅ Sample.local_tree (Sample.client []))
                ∅ "m.json" {| Files := Some ["a.txt"; "sub/b.txt"] |}
              = (<["m.json" :=
                     FFile (Json.MarshalIndent (Some ["a.txt"; "sub/b.txt"]))]> ∅,
                 [WriteCall "m.json"
                    (Json.MarshalIndent (Some ["a.txt"; "sub/b.txt"])) None],
                 None)).
  { reflexivity. }
  apply (proj2 (save_then_load _ _ _ _ _ _ H)).
  repeat constructor.
Defined.

(** X2: whatever [LoadArchivedFiles] returns, its keys are valid UTF-8: a
    key that is not valid UTF-8 is never found in a manifest that was
    loaded. *)
Theorem loaded_keys_are_valid_utf8 (fs : FileSystem)
    (filename key : string) :
  Forall valid_utf8 (elems (Files (fst (LoadArchivedFiles fs filename)))) /\
  (Utf8.sanitize key <> key ->
   is_archived (elems (Files (fst (LoadArchivedFiles fs filename)))) key
   = false).
Proof.
  pose proof (LoadArchivedFiles_valid fs filename) as Hv.
  split; [exact Hv|]. intros Hk. apply is_archived_false. intros Hin.
  rewrite Forall_forall in Hv. apply Hk, Hv, list_elem_of_In, Hin.
Qed.

Lemma loaded_keys_are_valid_utf8_witness :
  is_archived
    (elems (Files (fst (LoadArchivedFiles
                          {[ "m.json" := FFile "{}" ]} "m.json"))))
    (String (ascii_of_N 255) "") = false.
Proof.
  apply (proj2 (loaded_keys_are_valid_utf8 _ "m.json" _)).
  vm_compute. discriminate.
Defined.

(** X3: when no request of the listing fails, [ListS3Files] returns the
    keys of all the pages, page after page and in the order of each page,
    and no error; the slice is nil exactly when the bucket holds no key. *)
Theorem ListS3Files_all_pages (env : Env) (bucket : string) :
  listing_fails env bucket = false ->
  exists l,
    ListS3Files {| Client := s3 env |} bucket = (l, None) /\
    elems l = inventory env bucket /\
    (l = None <-> inventory env bucket = []).
Proof.
  intros Hl. destruct (listing_ok env bucket Hl) as [l Hlist].
  exists l. split; [exact Hlist|].
  split; [apply (ListS3Files_inventory _ _ _ Hlist)|].
  revert Hlist. unfold ListS3Files, inventory. simpl.
  destruct (ListObjectsV2 (s3 env) bucket) as [resp more].
  intros H. rewrite (list_pages_nil _ _ _ _ H). simpl. tauto.
Qed.

Lemma ListS3Files_all_pages_witness :
  exists l,
    ListS3Files
      {| Client :=
           {| ListObjectsV2 :=
                fun _ => (PageOk ["a"; "b"], [PageOk []; PageOk ["c"]]);
              PutObject := fun _ _ => None |} |} "bucket" = (l, None) /\
    elems l = ["a"; "b"; "c"].
Proof.
  destruct (ListS3Files_all_pages
              (Sample.world ∅ Sample.local_tree
                 {| ListObjectsV2 :=
                      fun _ => (PageOk ["a"; "b"], [PageOk []; PageOk ["c"]]);
                    PutObject := fun _ _ => None |})
              "bucket" eq_refl) as (l & H1 & H2 & _).
  exists l. split; [exact H1 | exact H2].
Defined.

(** X4: a run that ends with status 0 writes to the manifest file the
    keys it loaded from it, in their order, followed by the keys it
    uploaded, in the order of the walk. Read back, the file gives the keys
    that were loaded as they were and each key that was uploaded with its
    bytes that are not UTF-8 replaced by U+FFFD: the keys come back as
    they were written when the keys uploaded are valid UTF-8. *)
Theorem success_saves_loaded_and_uploaded (flags : Flags) (env : Env) :
  exit_code (main flags env) = 0 ->
  exists loaded saved,
    LoadArchivedFiles (files env) (manifest_path flags) = (loaded, None) /\
    disk (main flags env) !! manifest_path flags
    = Some (FFile (Json.MarshalIndent saved)) /\
    elems saved
    = elems (Files loaded) ++ uploaded_keys (events (main flags env)) /\
    LoadArchivedFiles (disk (main flags env)) (manifest_path flags)
    = ({| Files := option_map (map Utf8.sanitize) saved |}, None) /\
    elems (option_map (map Utf8.sanitize) saved)
    = elems (Files loaded) ++
      map Utf8.sanitize (uploaded_keys (events (main flags env))) /\
    (Forall valid_utf8 (uploaded_keys (events (main flags env))) ->
     LoadArchivedFiles (disk (main flags env)) (manifest_path flags)
     = ({| Files := saved |}, None)).
Proof.
  intros Hok.
  destruct (success_saved flags env Hok)
    as (loaded & saved & Hload & Hdisk & Hel & _).
  assert (Hvl : map Utf8.sanitize (elems (Files loaded)) = elems (Files loaded)).
  { apply map_valid.
    pose proof (LoadArchivedFiles_valid (files env) (manifest_path flags)) as H.
    rewrite Hload in H. exact H. }
  exists loaded, saved. split; [exact Hload|].
  split; [apply lookup_Some, Hdisk|]. split; [exact Hel|].
  split; [apply Load_saved, Hdisk|]. split.
  - rewrite elems_option_map, Hel, map_app, Hvl. reflexivity.
  - intros Hv.
    apply (Load_saved_valid _ _ {| Files := saved |} Hdisk). cbn [Files].
    rewrite Hel. apply Forall_app. split; [|exact Hv].
    pose proof (LoadArchivedFiles_valid (files env) (manifest_path flags)) as H.
    rewrite Hload in H. exact H.
Qed.

Lemma success_saves_loaded_and_uploaded_witness :
  exists loaded saved,
    LoadArchivedFiles
      (files (Sample.world ∅ Sample.bytes_tree (Sample.client [])))
      (manifest_path (Sample.flags "data")) = (loaded, None) /\
    disk (main (Sample.flags "data")
            (Sample.world ∅ Sample.bytes_tree (Sample.client [])))
    !! manifest_path (Sample.flags "data")
    = Some (FFile (Json.MarshalIndent saved)) /\
    elems saved
    = elems (Files loaded) ++
      uploaded_keys
        (events (main (Sample.flags "data")
                   (Sample.world ∅ Sample.bytes_tree (Sample.client [])))) /\
    LoadArchivedFiles
      (disk (main (Sample.flags "data")
               (Sample.world ∅ Sample.bytes_tree (Sample.client []))))
      (manifest_path (Sample.flags "data"))
    = ({| Files := option_map (map Utf8.sanitize) saved |}, None) /\
    elems (option_map (map Utf8.sanitize) saved)
    = elems (Files loaded) ++
      map Utf8.sanitize
        (uploaded_keys
           (events (main (Sample.flags "data")
                      (Sample.world ∅ Sample.bytes_tree (Sample.client []))))).
Proof.
  destruct (success_saves_loaded_and_uploaded (Sample.flags "data")
              (Sample.world ∅ Sample.bytes_tree (Sample.client [])))
    as (loaded & saved & H1 & H2 & H3 & H4 & H5 & _).
  - vm_compute. reflexivity.
  - exists loaded, saved. auto.
Defined.

(** X5: every call of [UploadFile] in a run is for an entry of the local
    tree that is no directory, on the bucket of the command line, under
    the key derived from the path of the entry; a call that succeeded
    opened the file and had its [PutObject] accepted. *)
Theorem uploads_of_a_run (flags : Flags) (env : Env)
    (p k b : string) (r : option error) :
  In (UploadCall p k b r) (events (main flags env)) ->
  b = bucketName flags /\
  k = s3KeyOf (localDirectory flags) p /\
  r = UploadFile env {| Client := s3 env |} p k (bucketName flags) /\
  (exists info,
     In (p, Some info, None) (visits (localDirectory flags) (tree env)) /\
     IsDir info = false) /\
  (r = None ->
   open_err env p = None /\ PutObject (s3 env) (bucketName flags) k = None).
Proof.
  intros Hin.
  destruct (main_uploads flags env p k b r Hin)
    as (loaded & _ & _ & -> & -> & -> & Hvis).
  repeat split; auto;
    revert H; unfold UploadFile; simpl;
    destruct (open_err env p); [discriminate| |discriminate|];
    destruct (PutObject _ _ _); [discriminate|reflexivity|discriminate|
                                 reflexivity].
Qed.

Lemma uploads_of_a_run_witness :
  "bucket" = bucketName (Sample.flags "data") /\
  "sub/b.txt" = s3KeyOf (localDirectory (Sample.flags "data")) "data/sub/b.txt".
Proof.
  destruct (uploads_of_a_run (Sample.flags "data")
              (Sample.world ∅ Sample.local_tree (Sample.client ["a.txt"]))
              "data/sub/b.txt" "sub/b.txt" "bucket" None) as (H1 & H2 & _).
  - vm_compute. right. right. left. reflexivity.
  - split; [exact H1 | exact H2].
Defined.

(** X6: in one run no key is handed to [UploadFile] twice: when two
    entries of the tree get the same key, the second one is skipped as
    already archived. *)
Theorem no_key_uploaded_twice (flags : Flags) (env : Env) :
  List.NoDup (upload_keys (events (main flags env))).
Proof.
  destruct (main_walked flags env)
    as [(fs & tr & Hmain & Htr & _)
       |(fs & tr & loaded & l & st & werr & new & Hr & Hrun & Ht & Hmk & Hev)].
  - rewrite Hmain. simpl. destruct (quiet_uploaded _ Htr) as [_ ->].
    constructor.
  - destruct (main_ready _ _ _ _ _ _ Hr) as (_ & _ & Htr).
    destruct (quiet_uploaded _ Htr) as [_ Hq].
    destruct (run_upload_keys _ _ _ _ _ _ _ _ _ _ Hrun Ht) as [Hnd _].
    destruct Hev as [Hev|(r' & _ & Hev)]; rewrite Hev, Ht;
      rewrite !upload_keys_app, Hq; simpl; rewrite ?app_nil_r; exact Hnd.
Qed.





(** X9: when the AWS configuration cannot be loaded, the run ends with
    status 1 after it has at most made the directory [archives]: nothing
    is uploaded, and the manifest file is neither written nor changed. *)
Theorem config_failure_aborts (flags : Flags) (env : Env) (msg : string) :
  config_err env (credFile flags) (region flags) = Some msg ->
  exit_code (main flags env) = 1 /\
  (forall ev, In ev (events (main flags env)) ->
     exists r, ev = MkdirCall "archives" r) /\
  disk (main flags env) !! manifest_path flags
  = files env !! manifest_path flags.
Proof.
  intros Hc.
  destruct (main_walked flags env)
    as [(fs & tr & Hmain & Htr & Hmk)
       |(fs & tr & loaded & l & st & werr & new & Hr & _)].
  - pose proof (unwritten_keeps flags env) as Hk. rewrite Hmain in *.
    split; [reflexivity|]. split; [exact Hmk|].
    apply lookup_path_lookup, Hk, quiet_unwritten, Htr.
  - destruct Hr as (_ & _ & Hc' & _). congruence.
Qed.

Lemma config_failure_aborts_witness :
  exit_code
    (main (Sample.flags "data")
       {| files := ∅; tree := Sample.local_tree;
          open_err := fun _ => None; mkdir_err := fun _ => None;
          write_err := fun _ => None;
          config_err := fun _ _ => Some "no credentials";
          s3 := Sample.client [] |}) = 1.
Proof.
  apply (config_failure_aborts (Sample.flags "data") _ "no credentials").
  reflexivity.
Defined.


(** X11: when a run ends with status 0, every entry of the local tree
    that is no directory is accounted for: its key is in the listing of
    the bucket, in the manifest that was loaded, or among the keys the
    run uploaded. *)
Theorem success_accounts_for_every_file (flags : Flags) (env : Env)
    (p : string) (info : FileInfo) :
  exit_code (main flags env) = 0 ->
  In (p, Some info, None) (visits (localDirectory flags) (tree env)) ->
  IsDir info = false ->
  In (s3KeyOf (localDirectory flags) p) (inventory env (bucketName flags)) \/
  In (s3KeyOf (localDirectory flags) p)
     (elems (Files (fst (LoadArchivedFiles (files env) (manifest_path flags)))))
  \/
  In (s3KeyOf (localDirectory flags) p)
     (uploaded_keys (events (main flags env))).
Proof.
  intros Hok Hin Hd.
  destruct (main_success flags env Hok)
    as (fs & tr & loaded & l & st & Hr & Hrun & ->).
  destruct (main_ready _ _ _ _ _ _ Hr) as (_ & _ & Htr).
  destruct Hr as (_ & _ & _ & Hload & Hlist).
  rewrite Hload. simpl.
  destruct (run_files _ _ _ _ _ _ _ _ _ Hrun) as (new & Ht & Hf & _).
  simpl in Ht, Hf.
  destruct (run_covered _ _ _ _ _ _ _ _ Hrun _ _ Hin Hd) as [Hm|Hk].
  - left. rewrite <- (ListS3Files_inventory _ _ _ Hlist).
    apply map_index_make, Hm.
  - right. rewrite Hf in Hk. rewrite Ht, !uploaded_keys_app.
    destruct (quiet_uploaded _ Htr) as [-> _]. simpl. rewrite app_nil_r.
    apply in_app_or in Hk. exact Hk.
Qed.

Lemma success_accounts_for_every_file_witness :
  In (s3KeyOf (localDirectory (Sample.flags "data")) "data/sub/b.txt")
     (inventory (Sample.world ∅ Sample.local_tree (Sample.client ["a.txt"]))
        (bucketName (Sample.flags "data"))) \/
  In (s3KeyOf (localDirectory (Sample.flags "data")) "data/sub/b.txt")
     (elems (Files (fst (LoadArchivedFiles
                           (files (Sample.world ∅ Sample.local_tree
                                     (Sample.client ["a.txt"])))
                           (manifest_path (Sample.flags "data"))))))
  \/
  In (s3KeyOf (localDirectory (Sample.flags "data")) "data/sub/b.txt")
     (uploaded_keys
        (events (main (Sample.flags "data")
                   (Sample.world ∅ Sample.local_tree
                      (Sample.client ["a.txt"]))))).
Proof.
  apply (success_accounts_for_every_file (Sample.flags "data")
           (Sample.world ∅ Sample.local_tree (Sample.client ["a.txt"]))
           "data/sub/b.txt" {| Mode := ModeRegular |}).
  - vm_compute. reflexivity.
  - vm_compute. right. right. right. left. reflexivity.
  - reflexivity.
Defined.

(** X12: when the local directory of the command line is no directory
    but a file, the walk visits that one path, and the key derived from
    it is the empty string: an upload in such a run is the upload of that
    file under the empty key. *)
Theorem file_root_gets_the_empty_key (flags : Flags) (env : Env)
    (kind : LeafKind) (p k b : string) (r : option error) :
  tree env = Leaf kind ->
  In (UploadCall p k b r) (events (main flags env)) ->
  p = localDirectory flags /\ k = "".
Proof.
  intros Ht Hin.
  destruct (main_uploads flags env p k b r Hin)
    as (loaded & _ & _ & _ & -> & _ & info & Hvis & _).
  rewrite Ht in Hvis. destruct Hvis as [[= <- _]|[]].
  split; [reflexivity | apply s3KeyOf_root].
Qed.

Lemma file_root_gets_the_empty_key_witness :
  "photo.jpg" = localDirectory (Sample.flags "photo.jpg") /\ "" = "".
Proof.
  apply (file_root_gets_the_empty_key (Sample.flags "photo.jpg")
           (Sample.world ∅ (Leaf Regular) (Sample.client []))
           Regular "photo.jpg" "" "bucket" None).
  - reflexivity.
  - vm_compute. right. left. reflexivity.
Defined.

(** X13: when the local directory is given as a cleaned path other than
    [.], or as such a path followed by one separator, and the entries of
    the tree have plain names, the keys of the entries that are no
    directories are their paths relative to the root, the names joined by
    [/], in the order of the walk; every key handed to [UploadFile] is
    one of them. *)
Theorem keys_under_a_cleaned_root (flags : Flags) (env : Env) (c : string) :
  Filepath.Clean c = c -> c <> "." ->
  localDirectory flags = c \/
  (c <> "/" /\ localDirectory flags = c +:+ "/") ->
  plain_tree (tree env) = true ->
  file_keys (localDirectory flags)
    (visits (localDirectory flags) (tree env))
  = relative_keys "" (tree env) /\
  forall p k b r,
    In (UploadCall p k b r) (events (main flags env)) ->
    In k (relative_keys "" (tree env)).
Proof.
  intros Hc Hd Hld Hp.
  assert (Hk : file_keys (localDirectory flags)
                 (visits (localDirectory flags) (tree env))
               = relative_keys "" (tree env)).
  { apply keys_below; [|left; auto | exact Hp].
    destruct Hld as [->|[Hs ->]]; intros rel Hr.
    - apply s3KeyOf_cleaned; assumption.
    - apply s3KeyOf_separator; assumption. }
  split; [exact Hk|].
  intros p k b r Hin.
  destruct (main_uploads flags env p k b r Hin)
    as (loaded & _ & _ & _ & -> & _ & info & Hvis & Hdir).
  rewrite <- Hk. eapply file_keys_In; eauto.
Qed.

Lemma keys_under_a_cleaned_root_witness :
  file_keys (localDirectory (Sample.flags "data/"))
    (visits (localDirectory (Sample.flags "data/"))
       (tree (Sample.world ∅ Sample.local_tree (Sample.client []))))
  = relative_keys ""
      (tree (Sample.world ∅ Sample.local_tree (Sample.client []))).
Proof.
  apply (keys_under_a_cleaned_root (Sample.flags "data/")
           (Sample.world ∅ Sample.local_tree (Sample.client [])) "data").
  - reflexivity.
  - discriminate.
  - right. split; [discriminate | reflexivity].
  - reflexivity.
Defined.

(** X14: the default manifest file lies directly in the directory
    [archives], whatever the local directory is: its name is the local
    directory with every separator replaced by [_] and every colon by [-],
    followed by [.json]; it holds no separator and no colon and is neither
    empty nor [.] nor [..]. *)
Theorem default_manifest_in_archives (localDir : string) :
  GenerateArchiveFilePath "archives" localDir
  = "archives/" +:+ manifest_name localDir /\
  plain_name (manifest_name localDir) = true /\
  Strings.contains ":" (manifest_name localDir) = false.
Proof.
  split; [apply GenerateArchiveFilePath_eq|].
  split; [apply subst_plain|].
  unfold manifest_name. rewrite contains_app.
  apply orb_false_iff. split; [|reflexivity].
  apply subst_byte_contains. discriminate.
Qed.

(** X15: when a run fails and the next run finds the same local tree, the
    file system the failed run left, a bucket that holds what it held plus
    what was uploaded, and a service and an operating system that answer
    as before, the next run fails too. *)
Theorem failed_run_fails_again (flags : Flags) (e e' : Env) :
  follows flags e e' -> same_behaviour flags e e' ->
  exit_code (main flags e) <> 0 -> exit_code (main flags e') <> 0.
Proof. apply failure_persists. Qed.

Lemma failed_run_fails_again_witness :
  exit_code
    (main (Sample.flags "data")
       (Sample.world
          (disk (main (Sample.flags "data")
                   (Sample.world ∅ Sample.local_tree Sample.refusing_client)))
          Sample.local_tree Sample.refusing_client)) <> 0.
Proof.
  apply (failed_run_fails_again (Sample.flags "data")
           (Sample.world ∅ Sample.local_tree Sample.refusing_client)).
  - split; [reflexivity|]. split; [reflexivity|]. intros k. vm_compute. tauto.
  - repeat split; reflexivity.
  - vm_compute. discriminate.
Defined.

(** X16: a key that a run uploaded and that is valid UTF-8 is never
    handed to [UploadFile] again by a run that finds the manifest file as
    the first run left it, whatever the local tree and the bucket hold by
    then. *)
Theorem uploaded_key_is_not_uploaded_again (flags : Flags) (e1 e2 : Env)
    (k : string) :
  exit_code (main flags e1) = 0 ->
  files e2 !! manifest_path flags
  = disk (main flags e1) !! manifest_path flags ->
  In k (uploaded_keys (events (main flags e1))) ->
  valid_utf8 k ->
  ~ In k (upload_keys (events (main flags e2))).
Proof.
  intros Hok Hfiles Hk Hv Hin.
  destruct (success_saved flags e1 Hok)
    as (loaded & saved & _ & Hdisk & Hel & _).
  apply lookup_Some in Hdisk. rewrite Hdisk in Hfiles.
  apply upload_keys_In in Hin as (p & b & r & Hin).
  destruct (main_uploads flags e2 p k b r Hin) as (loaded2 & Hload2 & Hn & _).
  rewrite (Load_written _ _ _ Hfiles) in Hload2. injection Hload2 as <-.
  apply Hn. cbn [Files].
  rewrite elems_option_map, <- Hv. apply in_map. rewrite Hel.
  apply in_or_app. right. exact Hk.
Qed.

Lemma uploaded_key_is_not_uploaded_again_witness :
  ~ In "a.txt"
      (upload_keys
         (events
            (main (Sample.flags "data")
               (Sample.world
                  (disk (main (Sample.flags "data")
                           (Sample.world ∅ Sample.local_tree
                              (Sample.client []))))
                  Sample.local_tree (Sample.client []))))).
Proof.
  apply (uploaded_key_is_not_uploaded_again (Sample.flags "data")
           (Sample.world ∅ Sample.local_tree (Sample.client []))).
  - vm_compute. reflexivity.
  - reflexivity.
  - vm_compute. left. reflexivity.
  - vm_compute. reflexivity.
Defined.

(** X17: the manifest cannot keep a key that is not valid UTF-8 from
    being uploaded again: in a run that ends with status 0, an entry whose
    key is not valid UTF-8 and is not in the listing of the bucket is
    uploaded, whatever the manifest file held. *)
Theorem invalid_utf8_key_is_uploaded (flags : Flags) (env : Env)
    (p : string) (info : FileInfo) :
  exit_code (main flags env) = 0 ->
  In (p, Some info, None) (visits (localDirectory flags) (tree env)) ->
  IsDir info = false ->
  Utf8.sanitize (s3KeyOf (localDirectory flags) p)
  <> s3KeyOf (localDirectory flags) p ->
  ~ In (s3KeyOf (localDirectory flags) p) (inventory env (bucketName flags)) ->
  In (s3KeyOf (localDirectory flags) p)
     (uploaded_keys (events (main flags env))).
Proof.
  intros Hok Hin Hd Hv Hinv.
  destruct (main_success flags env Hok)
    as (fs & tr & loaded & l & st & Hr & Hrun & ->).
  destruct (main_ready _ _ _ _ _ _ Hr) as (_ & _ & Htr).
  destruct Hr as (_ & _ & _ & Hload & Hlist). simpl.
  destruct (run_files _ _ _ _ _ _ _ _ _ Hrun) as (new & Ht & Hf & _).
  simpl in Ht, Hf.
  rewrite Ht, !uploaded_keys_app.
  destruct (quiet_uploaded _ Htr) as [-> _]. simpl. rewrite app_nil_r.
  destruct (run_covered _ _ _ _ _ _ _ _ Hrun _ _ Hin Hd) as [Hm|Hk].
  - exfalso. apply Hinv. rewrite <- (ListS3Files_inventory _ _ _ Hlist).
    apply map_index_make, Hm.
  - rewrite Hf in Hk. apply in_app_or in Hk as [Hk|Hk]; [|exact Hk].
    exfalso. apply Hv.
    pose proof (LoadArchivedFiles_valid (files env) (manifest_path flags)) as H.
    rewrite Hload in H. simpl in H. rewrite Forall_forall in H.
    apply H, list_elem_of_In, Hk.
Qed.

Lemma invalid_utf8_key_is_uploaded_witness :
  In (s3KeyOf (localDirectory (Sample.flags "data"))
        ("data/" +:+ String (ascii_of_N 255) ".jpg"))
     (uploaded_keys
        (events
           (main (Sample.flags "data")
              (Sample.world
                 (<["archives/data.json" :=
                      FFile (Json.MarshalIndent
                               (Some [String (ascii_of_N 255) ".jpg"]))]>
                    {[ "archives" := FDir ]})
                 (Dir [(String (ascii_of_N 255) ".jpg", Leaf Regular)])
                 (Sample.client []))))).
Proof.
  apply (invalid_utf8_key_is_uploaded (Sample.flags "data") _ _
           {| Mode := ModeRegular |}).
  - vm_compute. reflexivity.
  - vm_compute. right. left. reflexivity.
  - reflexivity.
  - vm_compute. discriminate.
  - vm_compute. tauto.
Defined.
